(** * The Circles King: the authoritative game server, verified

    A shallow embedding of [packages/server/src/index.ts] together with the
    protocol types of [@tck/shared/src/protocol].

    Conventions of the embedding.
    - A JavaScript [number] is a real number: arithmetic is exact, so
      [Math.hypot x y] is [sqrt (x*x + y*y)], and [Math.exp], [Math.sin],
      [Math.cos] are the real functions.  Rounding, overflow and NaN are
      outside the model.
    - [Math.random ()] is an input: every call site receives its own draw.
    - A [Map] is an association list in insertion order, which is the order
      in which [Map.prototype.values] iterates.
    - A [WebSocket] is its identity together with its [readyState] at the
      time of the call; what [ws.send] transmits is returned as a list of
      (socket, message) pairs, oldest first.
    - Mutation is explicit state passing: a function that mutates its
      argument returns the new value. *)

From Stdlib Require Import Reals Lra Psatz.
From Stdlib Require Import List Bool Arith Lia String Ascii.
Import ListNotations.

Open Scope R_scope.

(** ** Numbers *)

Definition Rleb (a b : R) : bool := if Rle_dec a b then true else false.
Definition Rltb (a b : R) : bool := if Rlt_dec a b then true else false.
Definition Reqb (a b : R) : bool := if Req_dec_T a b then true else false.
Definition Rgeb (a b : R) : bool := Rleb b a.
Definition Rgtb (a b : R) : bool := Rltb b a.

(** [Math.hypot] on two arguments. *)
Definition hypot (a b : R) : R := sqrt (a * a + b * b).

(** A boolean used as a number: [(input.right ? 1 : 0)]. *)
Definition b2r (b : bool) : R := if b then 1 else 0.

(** ** Protocol types ([@tck/shared/src/protocol]) *)

Module PlayerInput.
Record t : Type := mk
  { up : bool; down : bool; left : bool; right : bool; dash : bool }.
End PlayerInput.

Module Snap.
(** [SafeCircleSnapshot] *)
Record t : Type := mk { x : R; y : R; radius : R; innerRadius : R }.
End Snap.

Module WorldConfig.
Record t : Type := mk { width : R; height : R }.
End WorldConfig.

Module ActiveEvent.
Inductive t : Type :=
| SHIFT (targetX targetY durationMs : R)
| PULSE (durationMs amplitude : R)
| RESIZE (targetRadius : R)
| ACCEL (speedBoost accelBoost : R).
End ActiveEvent.

Module PlayerSnapshot.
Record t : Type := mk
  { id : string; x : R; y : R; radius : R; nickname : string;
    hp : R; alive : bool; dominationTime : R }.
End PlayerSnapshot.

Inductive Reason : Type := lastAlive | timeout.

Inductive ServerMessage : Type :=
| welcome (playerId roomCode : string) (snapshotRate tickRate : R)
          (world : WorldConfig.t)
| snapshot (tick : nat) (players : list PlayerSnapshot.t) (circle : Snap.t)
           (remainingMs : R)
| event (e : ActiveEvent.t)
| death (playerId nickname : string)
| roundEnd (winnerId : option string) (reason : Reason)
| error (message : string).

(** What [JSON.parse (data.toString ())] hands to the handler: the parse
    throws ([Malformed]), or it yields a [ClientMessage], or a value whose
    [type] is neither ["join"] nor ["input"]. *)
Inductive Incoming : Type :=
| Malformed
| join (roomCode nickname : string)
| input (seq : R) (inp : PlayerInput.t)
| OtherType.

(** ** Server types *)

Inductive ReadyState : Type := CONNECTING | OPEN | CLOSING | CLOSED.

Module WebSocket.
Record t : Type := mk { conn : nat; readyState : ReadyState }.
End WebSocket.

Definition isOpen (ws : WebSocket.t) : bool :=
  match WebSocket.readyState ws with OPEN => true | _ => false end.

Module Vec.
Record t : Type := mk { x : R; y : R }.
End Vec.

Module Player.
Record t : Type := mk
  { id : string;
    nickname : string;
    ws : WebSocket.t;
    input : PlayerInput.t;
    x : R;
    y : R;
    vx : R;
    vy : R;
    lastDir : Vec.t;
    dashCooldown : R;
    hp : R;
    alive : bool;
    dominationTime : R }.

Definition set_input (p : t) (i : PlayerInput.t) : t :=
  mk (id p) (nickname p) (ws p) i (x p) (y p) (vx p) (vy p)
     (lastDir p) (dashCooldown p) (hp p) (alive p) (dominationTime p).
Definition set_pos (p : t) (x' y' : R) : t :=
  mk (id p) (nickname p) (ws p) (input p) x' y' (vx p) (vy p)
     (lastDir p) (dashCooldown p) (hp p) (alive p) (dominationTime p).
Definition set_vel (p : t) (vx' vy' : R) : t :=
  mk (id p) (nickname p) (ws p) (input p) (x p) (y p) vx' vy'
     (lastDir p) (dashCooldown p) (hp p) (alive p) (dominationTime p).
Definition set_lastDir (p : t) (d : Vec.t) : t :=
  mk (id p) (nickname p) (ws p) (input p) (x p) (y p) (vx p) (vy p)
     d (dashCooldown p) (hp p) (alive p) (dominationTime p).
Definition set_dashCooldown (p : t) (c : R) : t :=
  mk (id p) (nickname p) (ws p) (input p) (x p) (y p) (vx p) (vy p)
     (lastDir p) c (hp p) (alive p) (dominationTime p).
Definition set_hp (p : t) (h : R) : t :=
  mk (id p) (nickname p) (ws p) (input p) (x p) (y p) (vx p) (vy p)
     (lastDir p) (dashCooldown p) h (alive p) (dominationTime p).
Definition set_alive (p : t) (a : bool) : t :=
  mk (id p) (nickname p) (ws p) (input p) (x p) (y p) (vx p) (vy p)
     (lastDir p) (dashCooldown p) (hp p) a (dominationTime p).
Definition set_dominationTime (p : t) (d : R) : t :=
  mk (id p) (nickname p) (ws p) (input p) (x p) (y p) (vx p) (vy p)
     (lastDir p) (dashCooldown p) (hp p) (alive p) d.
End Player.

Module Shift.
Record t : Type := mk
  { active : bool; startX : R; startY : R; targetX : R; targetY : R;
    duration : R; elapsed : R }.
End Shift.

Module Pulse.
Record t : Type := mk
  { active : bool; duration : R; elapsed : R; amplitude : R }.
End Pulse.

Module Circle.
(** [CircleState] *)
Record t : Type := mk
  { x : R;
    y : R;
    vx : R;
    vy : R;
    driftSpeed : R;
    driftAccel : R;
    driftTimer : R;
    baseRadius : R;
    minRadius : R;
    maxRadius : R;
    shrinkRate : R;
    innerFactor : R;
    shift : Shift.t;
    pulse : Pulse.t }.

Definition set_pos (c : t) (x' y' : R) : t :=
  mk x' y' (vx c) (vy c) (driftSpeed c) (driftAccel c) (driftTimer c)
     (baseRadius c) (minRadius c) (maxRadius c) (shrinkRate c)
     (innerFactor c) (shift c) (pulse c).
Definition set_vel (c : t) (vx' vy' : R) : t :=
  mk (x c) (y c) vx' vy' (driftSpeed c) (driftAccel c) (driftTimer c)
     (baseRadius c) (minRadius c) (maxRadius c) (shrinkRate c)
     (innerFactor c) (shift c) (pulse c).
Definition set_driftSpeed (c : t) (s : R) : t :=
  mk (x c) (y c) (vx c) (vy c) s (driftAccel c) (driftTimer c)
     (baseRadius c) (minRadius c) (maxRadius c) (shrinkRate c)
     (innerFactor c) (shift c) (pulse c).
Definition set_driftAccel (c : t) (a : R) : t :=
  mk (x c) (y c) (vx c) (vy c) (driftSpeed c) a (driftTimer c)
     (baseRadius c) (minRadius c) (maxRadius c) (shrinkRate c)
     (innerFactor c) (shift c) (pulse c).
Definition set_driftTimer (c : t) (d : R) : t :=
  mk (x c) (y c) (vx c) (vy c) (driftSpeed c) (driftAccel c) d
     (baseRadius c) (minRadius c) (maxRadius c) (shrinkRate c)
     (innerFactor c) (shift c) (pulse c).
Definition set_baseRadius (c : t) (r : R) : t :=
  mk (x c) (y c) (vx c) (vy c) (driftSpeed c) (driftAccel c) (driftTimer c)
     r (minRadius c) (maxRadius c) (shrinkRate c)
     (innerFactor c) (shift c) (pulse c).
Definition set_shift (c : t) (s : Shift.t) : t :=
  mk (x c) (y c) (vx c) (vy c) (driftSpeed c) (driftAccel c) (driftTimer c)
     (baseRadius c) (minRadius c) (maxRadius c) (shrinkRate c)
     (innerFactor c) s (pulse c).
Definition set_pulse (c : t) (p : Pulse.t) : t :=
  mk (x c) (y c) (vx c) (vy c) (driftSpeed c) (driftAccel c) (driftTimer c)
     (baseRadius c) (minRadius c) (maxRadius c) (shrinkRate c)
     (innerFactor c) (shift c) p.
End Circle.

Module Room.
Record t : Type := mk
  { code : string;
    players : list (string * Player.t);
    tick : nat;
    elapsedMs : R;
    nextShiftMs : R;
    nextPulseMs : R;
    nextResizeMs : R;
    nextAccelMs : R;
    circle : Circle.t;
    roundEnded : bool }.

Definition set_players (r : t) (ps : list (string * Player.t)) : t :=
  mk (code r) ps (tick r) (elapsedMs r) (nextShiftMs r) (nextPulseMs r)
     (nextResizeMs r) (nextAccelMs r) (circle r) (roundEnded r).
Definition set_tick (r : t) (n : nat) : t :=
  mk (code r) (players r) n (elapsedMs r) (nextShiftMs r) (nextPulseMs r)
     (nextResizeMs r) (nextAccelMs r) (circle r) (roundEnded r).
Definition set_elapsedMs (r : t) (e : R) : t :=
  mk (code r) (players r) (tick r) e (nextShiftMs r) (nextPulseMs r)
     (nextResizeMs r) (nextAccelMs r) (circle r) (roundEnded r).
Definition set_nextShiftMs (r : t) (e : R) : t :=
  mk (code r) (players r) (tick r) (elapsedMs r) e (nextPulseMs r)
     (nextResizeMs r) (nextAccelMs r) (circle r) (roundEnded r).
Definition set_nextPulseMs (r : t) (e : R) : t :=
  mk (code r) (players r) (tick r) (elapsedMs r) (nextShiftMs r) e
     (nextResizeMs r) (nextAccelMs r) (circle r) (roundEnded r).
Definition set_nextResizeMs (r : t) (e : R) : t :=
  mk (code r) (players r) (tick r) (elapsedMs r) (nextShiftMs r)
     (nextPulseMs r) e (nextAccelMs r) (circle r) (roundEnded r).
Definition set_nextAccelMs (r : t) (e : R) : t :=
  mk (code r) (players r) (tick r) (elapsedMs r) (nextShiftMs r)
     (nextPulseMs r) (nextResizeMs r) e (circle r) (roundEnded r).
Definition set_circle (r : t) (c : Circle.t) : t :=
  mk (code r) (players r) (tick r) (elapsedMs r) (nextShiftMs r)
     (nextPulseMs r) (nextResizeMs r) (nextAccelMs r) c (roundEnded r).
Definition set_roundEnded (r : t) (b : bool) : t :=
  mk (code r) (players r) (tick r) (elapsedMs r) (nextShiftMs r)
     (nextPulseMs r) (nextResizeMs r) (nextAccelMs r) (circle r) b.
End Room.

(** ** Constants *)

Definition TICK_RATE : R := 30.
Definition SNAPSHOT_RATE : R := 12.
Definition WORLD : WorldConfig.t := WorldConfig.mk 1200 800.

Definition PLAYER_RADIUS : R := 18.
Definition MAX_SPEED : R := 520.
Definition ACCEL : R := 1400.
Definition DAMPING : R := 3.2.
Definition DASH_SPEED : R := 720.
Definition DASH_COOLDOWN : R := 3.
Definition COLLISION_PUSH : R := 520.
Definition OUTSIDE_SPEED_MULT : R := 0.6.
Definition OUTSIDE_HP_DRAIN : R := 12.

Definition ROUND_DURATION_MS : R := 180000.
Definition SHIFT_INTERVAL_MS : R := 15000.
Definition SHIFT_DURATION_MS : R := 2000.
Definition PULSE_INTERVAL_MS : R := 18000.
Definition PULSE_DURATION_MS : R := 6000.
Definition PULSE_AMPLITUDE : R := 0.12.
Definition PULSE_FREQ : R := 5.
Definition RESIZE_INTERVAL_MS : R := 22000.
Definition ACCEL_INTERVAL_MS : R := 20000.

(** ** Rooms *)

(** The circle literal of [createRoom] and [resetRoomRound] (the two are
    the same literal in the source). *)
Definition freshCircle : Circle.t :=
  Circle.mk
    (WorldConfig.width WORLD * 0.5) (WorldConfig.height WORLD * 0.5)
    1 0 8 1.2 2 320 140 420 0.7 0.6
    (Shift.mk false
       (WorldConfig.width WORLD * 0.5) (WorldConfig.height WORLD * 0.5)
       (WorldConfig.width WORLD * 0.5) (WorldConfig.height WORLD * 0.5)
       (SHIFT_DURATION_MS / 1000) 0)
    (Pulse.mk false (PULSE_DURATION_MS / 1000) 0 PULSE_AMPLITUDE).

Definition createRoom (code : string) : Room.t :=
  Room.mk code [] 0 0 SHIFT_INTERVAL_MS PULSE_INTERVAL_MS RESIZE_INTERVAL_MS
          ACCEL_INTERVAL_MS freshCircle false.

(** [for (const player of room.players.values ()) { ... }] where the body
    mutates the player only. *)
Definition forEachPlayer (f : Player.t -> Player.t)
    (players : list (string * Player.t)) : list (string * Player.t) :=
  map (fun kp => (fst kp, f (snd kp))) players.

Definition resetPlayer (player : Player.t) : Player.t :=
  let player := Player.set_hp player 100 in
  let player := Player.set_alive player true in
  let player := Player.set_dominationTime player 0 in
  Player.set_vel player 0 0.

Definition resetRoomRound (room : Room.t) : Room.t :=
  let room := Room.set_elapsedMs room 0 in
  let room := Room.set_nextShiftMs room SHIFT_INTERVAL_MS in
  let room := Room.set_nextPulseMs room PULSE_INTERVAL_MS in
  let room := Room.set_nextResizeMs room RESIZE_INTERVAL_MS in
  let room := Room.set_nextAccelMs room ACCEL_INTERVAL_MS in
  let room := Room.set_roundEnded room false in
  let room := Room.set_circle room freshCircle in
  Room.set_players room (forEachPlayer resetPlayer (Room.players room)).

(** ** Sending *)

Definition Sent : Type := (nat * ServerMessage)%type.

Definition safeSend (ws : WebSocket.t) (message : ServerMessage) : list Sent :=
  if negb (isOpen ws) then [] else [(WebSocket.conn ws, message)].

(** [for (const player of room.players.values ()) safeSend (player.ws, m)] *)
Definition sendToAll (room : Room.t) (message : ServerMessage) : list Sent :=
  flat_map (fun kp => safeSend (Player.ws (snd kp)) message)
           (Room.players room).

(** ** Geometry *)

Definition normalize (x y : R) : Vec.t :=
  let len := hypot x y in
  if Reqb len 0 then Vec.mk 0 0 else Vec.mk (x / len) (y / len).

Definition clampMagnitude (vx vy max : R) : R * R :=
  let len := hypot vx vy in
  if Rleb len max then (vx, vy)
  else let scale := max / len in (vx * scale, vy * scale).

Definition getCircleSnapshot (circle : Circle.t) : Snap.t :=
  let pulse :=
    if Pulse.active (Circle.pulse circle)
    then 1 + Pulse.amplitude (Circle.pulse circle)
             * sin (Pulse.elapsed (Circle.pulse circle) * PULSE_FREQ)
    else 1 in
  let radius := Circle.baseRadius circle * pulse in
  Snap.mk (Circle.x circle) (Circle.y circle) radius
          (radius * Circle.innerFactor circle).

Definition isOutside (player : Player.t) (circle : Snap.t) : bool :=
  let dist := hypot (Player.x player - Snap.x circle)
                    (Player.y player - Snap.y circle) in
  Rgtb dist (Snap.radius circle).

(** ** Movement integration *)

(** [applyInput] in its four blocks: steering (direction, [lastDir],
    acceleration), the dash, damping with the speed cap, and the
    integration of the position with its clamp. *)
Definition steer (player : Player.t) (dt speedMultiplier : R) : Player.t :=
  let input := Player.input player in
  let dirX := b2r (PlayerInput.right input) - b2r (PlayerInput.left input) in
  let dirY := b2r (PlayerInput.down input) - b2r (PlayerInput.up input) in
  let dir := normalize dirX dirY in
  let player :=
    if negb (Reqb (Vec.x dir) 0) || negb (Reqb (Vec.y dir) 0)
    then Player.set_lastDir player dir else player in
  Player.set_vel player
    (Player.vx player + Vec.x dir * ACCEL * speedMultiplier * dt)
    (Player.vy player + Vec.y dir * ACCEL * speedMultiplier * dt).

Definition dashImpulse (player : Player.t) : Player.t :=
  let input := Player.input player in
  if PlayerInput.dash input && Rleb (Player.dashCooldown player) 0
  then
    let player :=
      Player.set_vel player
        (Player.vx player + Vec.x (Player.lastDir player) * DASH_SPEED)
        (Player.vy player + Vec.y (Player.lastDir player) * DASH_SPEED) in
    Player.set_dashCooldown player DASH_COOLDOWN
  else player.

Definition dampAndCap (player : Player.t) (dt : R) : Player.t :=
  let damping := exp (- DAMPING * dt) in
  let player :=
    Player.set_vel player (Player.vx player * damping)
                   (Player.vy player * damping) in
  let clamped := clampMagnitude (Player.vx player) (Player.vy player)
                                MAX_SPEED in
  Player.set_vel player (fst clamped) (snd clamped).

Definition integrate (player : Player.t) (dt : R) : Player.t :=
  let player :=
    Player.set_pos player
      (Player.x player + Player.vx player * dt)
      (Player.y player + Player.vy player * dt) in
  Player.set_pos player
    (Rmax PLAYER_RADIUS
       (Rmin (WorldConfig.width WORLD - PLAYER_RADIUS) (Player.x player)))
    (Rmax PLAYER_RADIUS
       (Rmin (WorldConfig.height WORLD - PLAYER_RADIUS) (Player.y player))).

Definition applyInput (player : Player.t) (dt speedMultiplier : R)
    : Player.t :=
  if negb (Player.alive player) then player else
  let player := steer player dt speedMultiplier in
  let player := dashImpulse player in
  let player := dampAndCap player dt in
  integrate player dt.

(** ** Collision resolution *)

(** The body of the inner loop for one pair [a = players[i]],
    [b = players[j]], [a] alive. *)
Definition collidePair (a b : Player.t) : Player.t * Player.t :=
  if negb (Player.alive b) then (a, b) else
  let dx := Player.x b - Player.x a in
  let dy := Player.y b - Player.y a in
  let dist := hypot dx dy in
  let minDist := PLAYER_RADIUS * 2 in
  if Reqb dist 0 || Rgeb dist minDist then (a, b) else
  let overlap := minDist - dist in
  let nx := dx / dist in
  let ny := dy / dist in
  let a := Player.set_pos a (Player.x a - nx * overlap * 0.5)
                          (Player.y a - ny * overlap * 0.5) in
  let b := Player.set_pos b (Player.x b + nx * overlap * 0.5)
                          (Player.y b + ny * overlap * 0.5) in
  let a := Player.set_vel a (Player.vx a - nx * COLLISION_PUSH)
                          (Player.vy a - ny * COLLISION_PUSH) in
  let b := Player.set_vel b (Player.vx b + nx * COLLISION_PUSH)
                          (Player.vy b + ny * COLLISION_PUSH) in
  (a, b).

(** The inner loop [for (j = i + 1; j < players.length; j += 1)]: [a] is
    [players[i]] and [rest] is [players[i+1 ..]]; both are returned as the
    loop leaves them. *)
Fixpoint collideWithRest (a : Player.t) (rest : list Player.t)
    : Player.t * list Player.t :=
  match rest with
  | [] => (a, [])
  | b :: rest' =>
      let ab := collidePair a b in
      let ar := collideWithRest (fst ab) rest' in
      (fst ar, snd ab :: snd ar)
  end.

(** The outer loop from index [i]: [n] is [players.length - i], the number
    of iterations left, and [players] is [players[i ..]]. *)
Fixpoint collideFrom (n : nat) (players : list Player.t) : list Player.t :=
  match n, players with
  | S n', a :: rest =>
      if negb (Player.alive a) then a :: collideFrom n' rest
      else
        let ar := collideWithRest a rest in
        fst ar :: collideFrom n' (snd ar)
  | _, _ => players
  end.

Definition resolveCollisions (players : list Player.t) : list Player.t :=
  collideFrom (List.length players) players.

(** ** The safe circle *)

(** The draws of [Math.random ()] that one tick of one room may consume,
    one per call site: the two of [updateCircle], the two of
    [triggerShift] and the one of [triggerResize]. *)
Module TickRandom.
Record t : Type := mk
  { angle : R; timer : R; shiftX : R; shiftY : R; resize : R }.
End TickRandom.

(** [updateCircle] in its five blocks: drift, bounce, shrink, shift and
    pulse. *)
Definition driftStep (circle : Circle.t) (dt rndAngle rndTimer : R)
    : Circle.t :=
  let circle := Circle.set_driftTimer circle (Circle.driftTimer circle - dt) in
  let circle :=
    if Rleb (Circle.driftTimer circle) 0 then
      let angle := rndAngle * PI * 2 in
      let circle := Circle.set_vel circle (cos angle) (sin angle) in
      Circle.set_driftTimer circle (2 + rndTimer * 2)
    else circle in
  let circle :=
    Circle.set_driftSpeed circle
      (Circle.driftSpeed circle + Circle.driftAccel circle * dt) in
  Circle.set_pos circle
    (Circle.x circle + Circle.vx circle * Circle.driftSpeed circle * dt)
    (Circle.y circle + Circle.vy circle * Circle.driftSpeed circle * dt).

Definition bounceStep (circle : Circle.t) : Circle.t :=
  let margin := Circle.baseRadius circle + 20 in
  let circle :=
    if Rltb (Circle.x circle) margin
       || Rgtb (Circle.x circle) (WorldConfig.width WORLD - margin)
    then
      let circle :=
        Circle.set_vel circle (Circle.vx circle * -1) (Circle.vy circle) in
      Circle.set_pos circle
        (Rmax margin (Rmin (WorldConfig.width WORLD - margin)
                           (Circle.x circle)))
        (Circle.y circle)
    else circle in
  if Rltb (Circle.y circle) margin
     || Rgtb (Circle.y circle) (WorldConfig.height WORLD - margin)
  then
    let circle :=
      Circle.set_vel circle (Circle.vx circle) (Circle.vy circle * -1) in
    Circle.set_pos circle
      (Circle.x circle)
      (Rmax margin (Rmin (WorldConfig.height WORLD - margin)
                         (Circle.y circle)))
  else circle.

Definition shrinkStep (circle : Circle.t) (dt : R) : Circle.t :=
  Circle.set_baseRadius circle
    (Rmax (Circle.minRadius circle)
          (Circle.baseRadius circle - Circle.shrinkRate circle * dt)).

Definition shiftStep (circle : Circle.t) (dt : R) : Circle.t :=
  if Shift.active (Circle.shift circle) then
    let s := Circle.shift circle in
    let elapsed := Shift.elapsed s + dt in
    let t := Rmin 1 (elapsed / Shift.duration s) in
    let circle :=
      Circle.set_pos circle
        (Shift.startX s + (Shift.targetX s - Shift.startX s) * t)
        (Shift.startY s + (Shift.targetY s - Shift.startY s) * t) in
    Circle.set_shift circle
      (Shift.mk (if Rgeb t 1 then false else Shift.active s)
                (Shift.startX s) (Shift.startY s)
                (Shift.targetX s) (Shift.targetY s)
                (Shift.duration s) elapsed)
  else circle.

Definition pulseStep (circle : Circle.t) (dt : R) : Circle.t :=
  if Pulse.active (Circle.pulse circle) then
    let p := Circle.pulse circle in
    let elapsed := Pulse.elapsed p + dt in
    if Rgeb elapsed (Pulse.duration p)
    then Circle.set_pulse circle
           (Pulse.mk false (Pulse.duration p) 0 (Pulse.amplitude p))
    else Circle.set_pulse circle
           (Pulse.mk (Pulse.active p) (Pulse.duration p) elapsed
                     (Pulse.amplitude p))
  else circle.

Definition updateCircle (room : Room.t) (dt : R) (rndAngle rndTimer : R)
    : Room.t :=
  let circle := Room.circle room in
  let circle := driftStep circle dt rndAngle rndTimer in
  let circle := bounceStep circle in
  let circle := shrinkStep circle dt in
  let circle := shiftStep circle dt in
  let circle := pulseStep circle dt in
  Room.set_circle room circle.

Definition triggerShift (room : Room.t) (rndX rndY : R)
    : Room.t * ActiveEvent.t :=
  let margin := Rmax 140 (Circle.baseRadius (Room.circle room) * 0.6) in
  let targetX := margin + rndX * (WorldConfig.width WORLD - margin * 2) in
  let targetY := margin + rndY * (WorldConfig.height WORLD - margin * 2) in
  let room :=
    Room.set_circle room
      (Circle.set_shift (Room.circle room)
         (Shift.mk true (Circle.x (Room.circle room))
                   (Circle.y (Room.circle room)) targetX targetY
                   (SHIFT_DURATION_MS / 1000) 0)) in
  (room, ActiveEvent.SHIFT targetX targetY SHIFT_DURATION_MS).

Definition triggerResize (room : Room.t) (rnd : R)
    : Room.t * ActiveEvent.t :=
  let targetRadius :=
    Circle.minRadius (Room.circle room)
    + rnd * (Circle.maxRadius (Room.circle room)
             - Circle.minRadius (Room.circle room)) in
  let room :=
    Room.set_circle room
      (Circle.set_baseRadius (Room.circle room) targetRadius) in
  (room, ActiveEvent.RESIZE targetRadius).

Definition triggerAccel (room : Room.t) : Room.t * ActiveEvent.t :=
  let speedBoost := 10 in
  let accelBoost := 0.6 in
  let circle := Room.circle room in
  let circle :=
    Circle.set_driftSpeed circle (Circle.driftSpeed circle + speedBoost) in
  let circle :=
    Circle.set_driftAccel circle (Circle.driftAccel circle + accelBoost) in
  (Room.set_circle room circle, ActiveEvent.ACCEL speedBoost accelBoost).

Definition triggerPulse (room : Room.t) : Room.t * ActiveEvent.t :=
  let room :=
    Room.set_circle room
      (Circle.set_pulse (Room.circle room)
         (Pulse.mk true (PULSE_DURATION_MS / 1000) 0 PULSE_AMPLITUDE)) in
  (room, ActiveEvent.PULSE PULSE_DURATION_MS PULSE_AMPLITUDE).

(** ** Broadcasts and the end of the round *)

Definition broadcastEvent (room : Room.t) (e : ActiveEvent.t) : list Sent :=
  sendToAll room (event e).

Definition broadcastDeath (room : Room.t) (player : Player.t) : list Sent :=
  sendToAll room (death (Player.id player) (Player.nickname player)).

(** The loop of the timeout branch; its state is
    [(winnerId, bestDomination)], initially [(null, -1)]. *)
Definition bestStep (acc : option string * R) (kp : string * Player.t)
    : option string * R :=
  if Rgtb (Player.dominationTime (snd kp)) (snd acc)
  then (Some (Player.id (snd kp)), Player.dominationTime (snd kp))
  else acc.

Definition pickWinner (players : list (string * Player.t)) : option string :=
  fst (fold_left bestStep players (None, -1)).

Definition checkRoundEnd (room : Room.t) : Room.t * list Sent :=
  if Room.roundEnded room then (room, []) else
  if (List.length (Room.players room) <? 2)%nat then (room, []) else
  let alivePlayers :=
    filter (fun kp => Player.alive (snd kp)) (Room.players room) in
  if (List.length alivePlayers <=? 1)%nat then
    let room := Room.set_roundEnded room true in
    let winnerId :=
      match alivePlayers with
      | kp :: _ => Some (Player.id (snd kp))
      | [] => None
      end in
    (room, sendToAll room (roundEnd winnerId lastAlive))
  else if Rgeb (Room.elapsedMs room) ROUND_DURATION_MS then
    let room := Room.set_roundEnded room true in
    let winnerId := pickWinner (Room.players room) in
    (room, sendToAll room (roundEnd winnerId timeout))
  else (room, []).

(** ** One tick of a room

    [updateRoom] is split at its statement blocks; each block is a function
    of the room it mutates. *)

(** [room.elapsedMs += dt * 1000; room.tick += 1; updateCircle (room, dt)] *)
Definition advancePhase (room : Room.t) (dt : R) (rnd : TickRandom.t)
    : Room.t :=
  let room := Room.set_elapsedMs room (Room.elapsedMs room + dt * 1000) in
  let room := Room.set_tick room (Room.tick room + 1)%nat in
  updateCircle room dt (TickRandom.angle rnd) (TickRandom.timer rnd).

(** The body of the first loop over the players. *)
Definition movePlayer (currentCircle : Snap.t) (dt : R) (player : Player.t)
    : Player.t :=
  let player :=
    Player.set_dashCooldown player
      (Rmax 0 (Player.dashCooldown player - dt)) in
  let outside := isOutside player currentCircle in
  let speedMultiplier := if outside then OUTSIDE_SPEED_MULT else 1 in
  applyInput player dt speedMultiplier.

(** [const currentCircle = getCircleSnapshot (room.circle)] and the first
    loop. *)
Definition movePhase (room : Room.t) (dt : R) : Room.t :=
  let currentCircle := getCircleSnapshot (Room.circle room) in
  Room.set_players room
    (forEachPlayer (movePlayer currentCircle dt) (Room.players room)).

(** [resolveCollisions (Array.from (room.players.values ()))]: the array
    holds the player objects of the map, in its order, and the map keeps
    its keys. *)
Definition collidePhase (room : Room.t) : Room.t :=
  Room.set_players room
    (combine (map fst (Room.players room))
             (resolveCollisions (map snd (Room.players room)))).

(** The body of the second loop.  [broadcastDeath] reads the sockets of the
    room's members only, which the loop leaves alone. *)
Definition damagePlayer (room : Room.t) (dt : R) (circleSnapshot : Snap.t)
    (player : Player.t) : Player.t * list Sent :=
  if negb (Player.alive player) then (player, []) else
  let outsideNow := isOutside player circleSnapshot in
  let player :=
    if outsideNow
    then Player.set_hp player
           (Rmax 0 (Player.hp player - OUTSIDE_HP_DRAIN * dt))
    else player in
  if Rleb (Player.hp player) 0 then
    let player := Player.set_alive player false in
    let player := Player.set_vel player 0 0 in
    (player, broadcastDeath room player)
  else
    let dist := hypot (Player.x player - Snap.x circleSnapshot)
                      (Player.y player - Snap.y circleSnapshot) in
    if Rleb dist (Snap.innerRadius circleSnapshot)
    then (Player.set_dominationTime player
            (Player.dominationTime player + dt), [])
    else (player, []).

Fixpoint damageLoop (room : Room.t) (dt : R) (circleSnapshot : Snap.t)
    (players : list (string * Player.t))
    : list (string * Player.t) * list Sent :=
  match players with
  | [] => ([], [])
  | kp :: rest =>
      let r := damagePlayer room dt circleSnapshot (snd kp) in
      let rs := damageLoop room dt circleSnapshot rest in
      ((fst kp, fst r) :: fst rs, snd r ++ snd rs)
  end.

(** [const circleSnapshot = getCircleSnapshot (room.circle)] and the second
    loop. *)
Definition damagePhase (room : Room.t) (dt : R) : Room.t * list Sent :=
  let circleSnapshot := getCircleSnapshot (Room.circle room) in
  let r := damageLoop room dt circleSnapshot (Room.players room) in
  (Room.set_players room (fst r), snd r).

(** The four scheduled events, in the order of the source. *)
Definition shiftDue (room : Room.t) (rnd : TickRandom.t)
    : Room.t * list Sent :=
  if Rgeb (Room.elapsedMs room) (Room.nextShiftMs room) then
    let room :=
      Room.set_nextShiftMs room (Room.nextShiftMs room + SHIFT_INTERVAL_MS) in
    let re := triggerShift room (TickRandom.shiftX rnd)
                           (TickRandom.shiftY rnd) in
    (fst re, broadcastEvent (fst re) (snd re))
  else (room, []).

Definition pulseDue (room : Room.t) : Room.t * list Sent :=
  if Rgeb (Room.elapsedMs room) (Room.nextPulseMs room) then
    let room :=
      Room.set_nextPulseMs room (Room.nextPulseMs room + PULSE_INTERVAL_MS) in
    let re := triggerPulse room in
    (fst re, broadcastEvent (fst re) (snd re))
  else (room, []).

Definition resizeDue (room : Room.t) (rnd : TickRandom.t)
    : Room.t * list Sent :=
  if Rgeb (Room.elapsedMs room) (Room.nextResizeMs room) then
    let room :=
      Room.set_nextResizeMs room
        (Room.nextResizeMs room + RESIZE_INTERVAL_MS) in
    let re := triggerResize room (TickRandom.resize rnd) in
    (fst re, broadcastEvent (fst re) (snd re))
  else (room, []).

Definition accelDue (room : Room.t) : Room.t * list Sent :=
  if Rgeb (Room.elapsedMs room) (Room.nextAccelMs room) then
    let room :=
      Room.set_nextAccelMs room (Room.nextAccelMs room + ACCEL_INTERVAL_MS) in
    let re := triggerAccel room in
    (fst re, broadcastEvent (fst re) (snd re))
  else (room, []).

Definition eventsPhase (room : Room.t) (rnd : TickRandom.t)
    : Room.t * list Sent :=
  let r1 := shiftDue room rnd in
  let r2 := pulseDue (fst r1) in
  let r3 := resizeDue (fst r2) rnd in
  let r4 := accelDue (fst r3) in
  (fst r4, snd r1 ++ snd r2 ++ snd r3 ++ snd r4).

Definition updateRoom (room : Room.t) (dt : R) (rnd : TickRandom.t)
    : Room.t * list Sent :=
  if Room.roundEnded room
  then (Room.set_tick room (Room.tick room + 1)%nat, [])
  else
    let room := advancePhase room dt rnd in
    let room := movePhase room dt in
    let room := collidePhase room in
    let rd := damagePhase room dt in
    let re := eventsPhase (fst rd) rnd in
    let rc := checkRoundEnd (fst re) in
    (fst rc, snd rd ++ snd re ++ snd rc).

(** The first and the second circle snapshot of a tick: [currentCircle],
    which the movement loop tests against, and [circleSnapshot], which the
    damage loop tests against. *)
Definition currentCircle (room : Room.t) (dt : R) (rnd : TickRandom.t)
    : Snap.t :=
  getCircleSnapshot (Room.circle (advancePhase room dt rnd)).

Definition circleSnapshot (room : Room.t) (dt : R) (rnd : TickRandom.t)
    : Snap.t :=
  getCircleSnapshot
    (Room.circle (collidePhase (movePhase (advancePhase room dt rnd) dt))).

(** ** Maps, strings and the object store *)

Section MapOps.
Context {A : Type}.

(** [Map.prototype.get] *)
Fixpoint mapGet (k : string) (m : list (string * A)) : option A :=
  match m with
  | [] => None
  | kv :: m' => if String.eqb (fst kv) k then Some (snd kv) else mapGet k m'
  end.

(** [Map.prototype.set]: an existing key keeps its place, a new one goes
    last. *)
Fixpoint mapSet (k : string) (v : A) (m : list (string * A))
    : list (string * A) :=
  match m with
  | [] => [(k, v)]
  | kv :: m' =>
      if String.eqb (fst kv) k then (k, v) :: m' else kv :: mapSet k v m'
  end.

(** [Map.prototype.delete] *)
Fixpoint mapDelete (k : string) (m : list (string * A))
    : list (string * A) :=
  match m with
  | [] => []
  | kv :: m' =>
      if String.eqb (fst kv) k then m' else kv :: mapDelete k m'
  end.

(** Assignment through a reference: the object at index [ref] of the
    store is replaced. *)
Fixpoint storeSet (ref : nat) (v : A) (h : list A) : list A :=
  match h, ref with
  | [], _ => []
  | _ :: h', O => v :: h'
  | a :: h', S ref' => a :: storeSet ref' v h'
  end.
End MapOps.

(** [String.prototype.trim], [toUpperCase] and [slice (0, n)] on strings of
    ASCII characters. *)
Definition isSpace (c : ascii) : bool :=
  let n := nat_of_ascii c in
  ((9 <=? n) && (n <=? 13) || (n =? 32))%nat.

Fixpoint trimStart (s : string) : string :=
  match s with
  | EmptyString => EmptyString
  | String c s' => if isSpace c then trimStart s' else s
  end.

Fixpoint trimEnd (s : string) : string :=
  match s with
  | EmptyString => EmptyString
  | String c s' =>
      match trimEnd s' with
      | EmptyString => if isSpace c then EmptyString
                       else String c EmptyString
      | t => String c t
      end
  end.

Definition trim (s : string) : string := trimEnd (trimStart s).

Definition upperChar (c : ascii) : ascii :=
  let n := nat_of_ascii c in
  if ((97 <=? n) && (n <=? 122))%nat then ascii_of_nat (n - 32) else c.

Fixpoint toUpperCase (s : string) : string :=
  match s with
  | EmptyString => EmptyString
  | String c s' => String (upperChar c) (toUpperCase s')
  end.

Definition slice0 (n : nat) (s : string) : string := substring 0 n s.

(** [a || b] on strings: the empty string is falsy. *)
Definition orElse (a b : string) : string :=
  match a with EmptyString => b | _ => a end.

(** ** The registry and the connections

    Rooms are objects: the registry [rooms] and the [currentRoom] of every
    connection that joined hold references to them, so a room lives in a
    store and is named by its index there. *)

Module Server.
Record t : Type := mk
  { store : list Room.t;
    rooms : list (string * nat) }.
End Server.

(** The variables a connection's handlers close over. *)
Module Session.
Record t : Type := mk
  { ws : WebSocket.t;
    currentRoom : option nat;
    playerId : option string }.
End Session.

(** The draws of a successful join: [randomId ()] and the two of the
    spawn position. *)
Module JoinRandom.
Record t : Type := mk { newId : string; spawnX : R; spawnY : R }.
End JoinRandom.

Definition emptyInput : PlayerInput.t :=
  PlayerInput.mk false false false false false.

Definition onMessage (srv : Server.t) (sess : Session.t) (data : Incoming)
    (rnd : JoinRandom.t) : Server.t * Session.t * list Sent :=
  let ws := Session.ws sess in
  match data with
  | Malformed => (srv, sess, safeSend ws (error "Invalid message."))
  | join roomCode0 nickname0 =>
      match Session.currentRoom sess with
      | Some _ => (srv, sess, safeSend ws (error "Already joined."))
      | None =>
          let roomCode := toUpperCase (trim roomCode0) in
          let nickname := orElse (slice0 16 (trim nickname0)) "Player" in
          let found := mapGet roomCode (Server.rooms srv) in
          let ref :=
            match found with
            | Some ref => ref
            | None => List.length (Server.store srv)
            end in
          let store :=
            match found with
            | Some _ => Server.store srv
            | None => Server.store srv ++ [createRoom roomCode]
            end in
          let rooms := mapSet roomCode ref (Server.rooms srv) in
          let room := nth ref store (createRoom roomCode) in
          let playerId := JoinRandom.newId rnd in
          let player :=
            Player.mk playerId nickname ws emptyInput
              (Circle.x (Room.circle room)
               + (JoinRandom.spawnX rnd - 0.5) * 120)
              (Circle.y (Room.circle room)
               + (JoinRandom.spawnY rnd - 0.5) * 120)
              0 0 (Vec.mk 0 (-1)) 0 100 true 0 in
          let room :=
            Room.set_players room
              (mapSet playerId player (Room.players room)) in
          let room :=
            if Room.roundEnded room then resetRoomRound room else room in
          (Server.mk (storeSet ref room store) rooms,
           Session.mk ws (Some ref) (Some playerId),
           safeSend ws
             (welcome playerId roomCode SNAPSHOT_RATE TICK_RATE WORLD))
      end
  | input _ inp =>
      match Session.currentRoom sess, Session.playerId sess with
      | Some ref, Some (String c s as playerId) =>
          match nth_error (Server.store srv) ref with
          | Some room =>
              match mapGet playerId (Room.players room) with
              | Some player =>
                  if negb (Player.alive player) then (srv, sess, [])
                  else
                    let room :=
                      Room.set_players room
                        (mapSet playerId (Player.set_input player inp)
                                (Room.players room)) in
                    (Server.mk (storeSet ref room (Server.store srv))
                               (Server.rooms srv),
                     sess, [])
              | None => (srv, sess, [])
              end
          | None => (srv, sess, [])
          end
      | _, _ => (srv, sess, safeSend ws (error "Join a room first."))
      end
  | OtherType => (srv, sess, [])
  end.

Definition onClose (srv : Server.t) (sess : Session.t) : Server.t :=
  match Session.currentRoom sess, Session.playerId sess with
  | Some ref, Some (String c s as playerId) =>
      match nth_error (Server.store srv) ref with
      | Some room =>
          let room :=
            Room.set_players room (mapDelete playerId (Room.players room)) in
          let store := storeSet ref room (Server.store srv) in
          if (List.length (Room.players room) =? 0)%nat
          then Server.mk store (mapDelete (Room.code room) (Server.rooms srv))
          else Server.mk store (Server.rooms srv)
      | None => srv
      end
  | _, _ => srv
  end.

(** ** Snapshots and the two drivers *)

Definition playerSnapshot (player : Player.t) : PlayerSnapshot.t :=
  PlayerSnapshot.mk (Player.id player) (Player.x player) (Player.y player)
                    PLAYER_RADIUS (Player.nickname player) (Player.hp player)
                    (Player.alive player) (Player.dominationTime player).

(** The snapshot message that [broadcastSnapshots] builds for one room. *)
Definition roomSnapshot (room : Room.t) : ServerMessage :=
  snapshot (Room.tick room)
           (map (fun kp => playerSnapshot (snd kp)) (Room.players room))
           (getCircleSnapshot (Room.circle room))
           (Rmax 0 (ROUND_DURATION_MS - Room.elapsedMs room)).

(** [rooms.values ()]: the rooms that the registry refers to, in its
    order. *)
Definition registered (srv : Server.t) : list Room.t :=
  flat_map (fun cr => match nth_error (Server.store srv) (snd cr) with
                      | Some room => [room]
                      | None => []
                      end)
           (Server.rooms srv).

Definition broadcastSnapshots (srv : Server.t) : list Sent :=
  flat_map (fun room => sendToAll room (roomSnapshot room)) (registered srv).

(** The loop of the simulation driver over [rooms.values ()]: [refs] are
    the references still to visit, [k] counts the rooms visited, and the
    room visited as number [k] ticks with the draws [rnd k]. *)
Fixpoint tickRooms (refs : list nat) (k : nat) (rnd : nat -> TickRandom.t)
    (store : list Room.t) : list Room.t * list Sent :=
  match refs with
  | [] => (store, [])
  | ref :: refs' =>
      match nth_error store ref with
      | Some room =>
          let r := updateRoom room (1 / TICK_RATE) (rnd k) in
          let rs := tickRooms refs' (S k) rnd (storeSet ref (fst r) store) in
          (fst rs, snd r ++ snd rs)
      | None => tickRooms refs' (S k) rnd store
      end
  end.

(** The callback of the first [setInterval]. *)
Definition simulationTick (srv : Server.t) (rnd : nat -> TickRandom.t)
    : Server.t * list Sent :=
  let r := tickRooms (map snd (Server.rooms srv)) 0 rnd (Server.store srv) in
  (Server.mk (fst r) (Server.rooms srv), snd r).

(** * Vocabulary of the statements *)

(** The alive players of a room, in the order of its map. *)
Definition aliveOf (room : Room.t) : list (string * Player.t) :=
  filter (fun kp => Player.alive (snd kp)) (Room.players room).

(** The domination-time accumulator of a map entry. *)
Definition dom (kp : string * Player.t) : R :=
  Player.dominationTime (snd kp).

(** What a round reset does to one player: five fields are set, the rest
    is kept. *)
Definition resetKeeps (p p' : Player.t) : Prop :=
  Player.hp p' = 100 /\ Player.alive p' = true
  /\ Player.dominationTime p' = 0
  /\ Player.vx p' = 0 /\ Player.vy p' = 0
  /\ Player.x p' = Player.x p /\ Player.y p' = Player.y p
  /\ Player.lastDir p' = Player.lastDir p
  /\ Player.dashCooldown p' = Player.dashCooldown p
  /\ Player.input p' = Player.input p
  /\ Player.id p' = Player.id p
  /\ Player.nickname p' = Player.nickname p
  /\ Player.ws p' = Player.ws p.

(** The operations that write to a room's circle: the per-tick advance,
    the four scheduled events and the round reset, each with the draws of
    [Math.random ()] it consumes. *)
Inductive CircleOp : Type :=
| OpAdvance (dt rndAngle rndTimer : R)
| OpShift (rndX rndY : R)
| OpPulse
| OpResize (rnd : R)
| OpAccel
| OpReset.

Definition applyOp (room : Room.t) (op : CircleOp) : Room.t :=
  match op with
  | OpAdvance dt rndAngle rndTimer => updateCircle room dt rndAngle rndTimer
  | OpShift rndX rndY => fst (triggerShift room rndX rndY)
  | OpPulse => fst (triggerPulse room)
  | OpResize rnd => fst (triggerResize room rnd)
  | OpAccel => fst (triggerAccel room)
  | OpReset => resetRoomRound room
  end.

(** Time does not run backwards, and [Math.random ()] is in [[0, 1)]. *)
Definition opOk (op : CircleOp) : Prop :=
  match op with
  | OpAdvance dt _ _ => 0 <= dt
  | OpResize rnd => 0 <= rnd < 1
  | _ => True
  end.

Definition radiusOk (c : Circle.t) : Prop :=
  Circle.minRadius c <= Circle.baseRadius c <= Circle.maxRadius c.

(** [radiusOk] together with what keeps it: a shrink rate that is not
    negative. *)
Definition circleOk (c : Circle.t) : Prop :=
  radiusOk c /\ 0 <= Circle.shrinkRate c.

(** A dead player as a step leaves it: still dead, with the position, the
    velocity and the health it had. *)
Definition frozen (p p' : Player.t) : Prop :=
  Player.alive p' = false
  /\ Player.x p' = Player.x p /\ Player.y p' = Player.y p
  /\ Player.vx p' = Player.vx p /\ Player.vy p' = Player.vy p
  /\ Player.hp p' = Player.hp p.

(** A dead player does not move. *)
Definition deadStill (p : Player.t) : Prop :=
  Player.alive p = false -> Player.vx p = 0 /\ Player.vy p = 0.

(** What a step may do to a player as far as death is concerned: a dead
    player stays frozen, and a player is never left dead with a velocity. *)
Definition deathRespected (p p' : Player.t) : Prop :=
  (Player.alive p = false -> frozen p p')
  /\ (deadStill p -> deadStill p').

(** A relation on players, lifted to two player maps that have the same
    keys in the same order. *)
Definition entrywise (P : Player.t -> Player.t -> Prop)
    (ps ps' : list (string * Player.t)) : Prop :=
  Forall2 (fun kp kp' => fst kp' = fst kp /\ P (snd kp) (snd kp')) ps ps'.

Definition entriesRespectDeath (ps ps' : list (string * Player.t)) : Prop :=
  entrywise deathRespected ps ps'.

(** The fields of a player that movement integration and collision
    resolution never write. *)
Definition keptByPhysics (p : Player.t)
    : string * string * WebSocket.t * PlayerInput.t * R * bool * R :=
  (Player.id p, Player.nickname p, Player.ws p, Player.input p,
   Player.hp p, Player.alive p, Player.dominationTime p).

Definition domGrows (p p' : Player.t) : Prop :=
  Player.dominationTime p <= Player.dominationTime p'.

(** A step that neither kills nor revives and does not touch the dead. *)
Definition sameLife (p p' : Player.t) : Prop :=
  Player.alive p' = Player.alive p
  /\ (Player.alive p = false -> p' = p).

(** The four fields of a circle that bound its radius. *)
Definition radii (c : Circle.t) : R * R * R * R :=
  (Circle.baseRadius c, Circle.minRadius c, Circle.maxRadius c,
   Circle.shrinkRate c).

(** The arena inset by the player radius. *)
Definition inArena (p : Player.t) : Prop :=
  PLAYER_RADIUS <= Player.x p <= WorldConfig.width WORLD - PLAYER_RADIUS
  /\ PLAYER_RADIUS <= Player.y p <= WorldConfig.height WORLD - PLAYER_RADIUS.

(** The distance of the centres of two players. *)
Definition distance (p q : Player.t) : R :=
  hypot (Player.x q - Player.x p) (Player.y q - Player.y p).

(** A map entry reduced to its key and position. *)
Definition posOf (kp : string * Player.t) : string * R * R :=
  (fst kp, Player.x (snd kp), Player.y (snd kp)).

Definition isDead (p : Player.t) : Prop := Player.alive p = false.

(** What an operation on a room may do to its dead players: every dead
    player other than the one whose key the operation deletes or overwrites
    is still there, frozen. *)
Definition deadPreserved (except : option string) (room room' : Room.t)
    : Prop :=
  forall k q,
    mapGet k (Room.players room) = Some q ->
    Player.alive q = false ->
    except <> Some k ->
    exists q', mapGet k (Room.players room') = Some q' /\ frozen q q'.

(** The room that a message joins, as a reference into the store: the room
    registered under the trimmed, upper-cased code, or else the room that
    the join creates, which goes to the end of the store.  A message that
    is not a join, and a join on a connection that has joined already,
    joins no room. *)
Definition joinedRoom (srv : Server.t) (sess : Session.t) (data : Incoming)
    : option nat :=
  match data, Session.currentRoom sess with
  | join roomCode _, None =>
      Some match mapGet (toUpperCase (trim roomCode)) (Server.rooms srv) with
           | Some ref => ref
           | None => List.length (Server.store srv)
           end
  | _, _ => None
  end.

(** What a message does to the dead players of the room at reference [i]:
    they all stay frozen unless the message is a join into this very
    room; a join into it while its round runs leaves all of them frozen
    but one that carries the id the join draws; a join into it after its
    round has ended resets every player that was in the room. *)
Definition messageSparesDead (srv : Server.t) (sess : Session.t)
    (data : Incoming) (rnd : JoinRandom.t) (i : nat) (room room' : Room.t)
    : Prop :=
  (joinedRoom srv sess data <> Some i -> deadPreserved None room room')
  /\ (joinedRoom srv sess data = Some i ->
      Room.roundEnded room = false ->
      deadPreserved (Some (JoinRandom.newId rnd)) room room')
  /\ (joinedRoom srv sess data = Some i ->
      Room.roundEnded room = true ->
      forall k q,
        mapGet k (Room.players room) = Some q ->
        k <> JoinRandom.newId rnd ->
        mapGet k (Room.players room') = Some (resetPlayer q)).

(** An input with the dash flag cleared. *)
Definition withoutDash (i : PlayerInput.t) : PlayerInput.t :=
  PlayerInput.mk (PlayerInput.up i) (PlayerInput.down i)
                 (PlayerInput.left i) (PlayerInput.right i) false.

(** The speed of a player. *)
Definition speed (p : Player.t) : R := hypot (Player.vx p) (Player.vy p).

(** The sum of a quantity over the players of a list. *)
Definition total (f : Player.t -> R) (players : list Player.t) : R :=
  fold_right (fun p s => f p + s) 0 players.

(** Two players that a collision pass leaves alone: one of them is dead,
    or their centres coincide, or they are at least two radii apart. *)
Definition apart (a b : Player.t) : Prop :=
  Player.alive a = false \/ Player.alive b = false
  \/ distance a b = 0 \/ PLAYER_RADIUS * 2 <= distance a b.

(** The drift direction of a circle is a unit vector. *)
Definition unitDrift (c : Circle.t) : Prop :=
  Circle.vx c * Circle.vx c + Circle.vy c * Circle.vy c = 1.

(** An active pulse has not run past its duration. *)
Definition pulseOk (c : Circle.t) : Prop :=
  Pulse.active (Circle.pulse c) = true ->
  0 <= Pulse.elapsed (Circle.pulse c) < Pulse.duration (Circle.pulse c).

(** The steps of [opOk] that advance time by a step that is not negative. *)
Definition stepOk (op : CircleOp) : Prop :=
  match op with
  | OpAdvance dt _ _ => 0 <= dt
  | _ => True
  end.

(** Health that was not negative is still not negative and has not
    grown. *)
Definition neverHeals (p p' : Player.t) : Prop :=
  0 <= Player.hp p -> 0 <= Player.hp p' <= Player.hp p.

(** The clock of a room and its four deadlines. *)
Definition schedule (room : Room.t) : R * R * R * R * R :=
  (Room.elapsedMs room, Room.nextShiftMs room, Room.nextPulseMs room,
   Room.nextResizeMs room, Room.nextAccelMs room).

(** The interval by which a deadline moves when the clock has reached
    it. *)
Definition moved (clock deadline interval : R) : R :=
  if Rgeb clock deadline then deadline + interval else deadline.

(** The clock, the deadlines, the tick counter and the code of a room. *)
Definition label (room : Room.t) : R * R * R * R * R * nat * string :=
  (schedule room, Room.tick room, Room.code room).

(** Successive ticks of one room, each with its step and its draws. *)
Fixpoint ticks (room : Room.t) (draws : list (R * TickRandom.t))
    : Room.t * list Sent :=
  match draws with
  | [] => (room, [])
  | d :: draws' =>
      let r := updateRoom room (fst d) (snd d) in
      let rs := ticks (fst r) draws' in
      (fst rs, snd r ++ snd rs)
  end.

(** A room in order for the code [code]: it carries that code, it has at
    least one player, and its map holds every key once. *)
Definition roomOk (code : string) (room : Room.t) : Prop :=
  Room.code room = code
  /\ Room.players room <> []
  /\ NoDup (map fst (Room.players room)).

(** A registry entry names a room of the store that is in order for the
    entry's code. *)
Definition entryOk (store : list Room.t) (cr : string * nat) : Prop :=
  exists room, nth_error store (snd cr) = Some room /\ roomOk (fst cr) room.

(** The registry holds every code once, and every entry is in order. *)
Definition wellFormed (srv : Server.t) : Prop :=
  NoDup (map fst (Server.rooms srv))
  /\ Forall (entryOk (Server.store srv)) (Server.rooms srv).

(** What happens to a server: a message or the close of a connection,
    or a tick of the simulation driver. *)
Inductive Event : Type :=
| Message (sess : Session.t) (data : Incoming) (rnd : JoinRandom.t)
| Close (sess : Session.t)
| Tick (rnd : nat -> TickRandom.t).

Definition step (srv : Server.t) (ev : Event) : Server.t :=
  match ev with
  | Message sess data rnd => fst (fst (onMessage srv sess data rnd))
  | Close sess => onClose srv sess
  | Tick rnd => fst (simulationTick srv rnd)
  end.

(** A player as the join handler creates it, for the socket [ws]. *)
Definition newcomer (ws : WebSocket.t) (nickname : string) (player : Player.t)
    : Prop :=
  Player.ws player = ws
  /\ Player.nickname player = nickname
  /\ Player.alive player = true
  /\ Player.hp player = 100
  /\ Player.dominationTime player = 0
  /\ Player.vx player = 0 /\ Player.vy player = 0
  /\ Player.input player = emptyInput.

(** ** Sample data *)

Definition sock (n : nat) : WebSocket.t := WebSocket.mk n OPEN.

(** A player as a join creates it, at the position [(x, y)]. *)
Definition spawn (id : string) (n : nat) (x y : R) : Player.t :=
  Player.mk id "Player" (sock n) emptyInput x y 0 0 (Vec.mk 0 (-1)) 0 100
            true 0.

Definition withPlayers (room : Room.t) (ps : list Player.t) : Room.t :=
  Room.set_players room (map (fun p => (Player.id p, p)) ps).

(** One player, alone in a room whose clock shows the full round
    duration. *)
Definition soloRoom : Room.t :=
  Room.set_elapsedMs (withPlayers (createRoom "X") [spawn "A" 1 600 400])
                     ROUND_DURATION_MS.

(** Two players, the second one dead. *)
Definition duelRoom : Room.t :=
  withPlayers (createRoom "X")
    [spawn "A" 1 600 400;
     Player.set_alive (Player.set_hp (spawn "B" 2 100 100) 0) false].

(** Three alive players with domination times 5.0, 3.2 and 5.0 at the end
    of the round. *)
Definition podiumRoom : Room.t :=
  Room.set_elapsedMs
    (withPlayers (createRoom "X")
       [Player.set_dominationTime (spawn "A" 1 600 400) 5.0;
        Player.set_dominationTime (spawn "B" 2 500 400) 3.2;
        Player.set_dominationTime (spawn "C" 3 700 400) 5.0])
    ROUND_DURATION_MS.

(** A server without rooms, a connection that has not joined, and the state
    after its first join. *)
Definition emptyServer : Server.t := Server.mk [] [].

Definition freshSession (n : nat) : Session.t :=
  Session.mk (sock n) None None.

Definition joinDraw : JoinRandom.t := JoinRandom.mk "p1" 0.5 0.5.

Definition afterJoin : Server.t * Session.t * list Sent :=
  onMessage emptyServer (freshSession 1) (join " x " "bob") joinDraw.

(** The room of [duelRoom] after its round ended, in a server, and a third
    connection that joins it. *)
Definition deadB : Player.t :=
  Player.set_alive (Player.set_hp (spawn "B" 2 100 100) 0) false.

Definition endedServer : Server.t :=
  Server.mk [Room.set_roundEnded duelRoom true] [("X"%string, 0%nat)].

Definition afterRejoin : Server.t * Session.t * list Sent :=
  onMessage endedServer (freshSession 3) (join "x" "carol") joinDraw.

(** No draw of [Math.random ()] matters in the samples. *)
Definition calmDraw : TickRandom.t := TickRandom.mk 0 0 0 0 0.

(** Two players who stand still next to the left wall, 12 apart. *)
Definition wallRoom : Room.t :=
  withPlayers (createRoom "X") [spawn "A" 1 18 100; spawn "B" 2 30 100].

(** A player at the left wall who steers left. *)
Definition runner : Player.t :=
  Player.set_input (spawn "A" 1 18 100)
                   (PlayerInput.mk false false true false false).

Definition runnerRoom : Room.t := withPlayers (createRoom "X") [runner].

(** Three alive players on one line: A and B overlap, and C overlaps A from
    the other side. *)
Definition crowdA : Player.t := spawn "A" 1 100 100.
Definition crowdB : Player.t := spawn "B" 2 130 100.


(** The connection of player [id] in the room at reference 0. *)
Definition seated (n : nat) (id : string) : Session.t :=
  Session.mk (sock n) (Some 0%nat) (Some id).

(** * Properties *)

(** ** The helpers on a few inputs *)

Example trim_upper_example :
  toUpperCase (trim "  ab c  ") = "AB C"%string
  /\ orElse (slice0 16 (trim "   ")) "Player" = "Player"%string
  /\ slice0 16 "abcdefghijklmnopqrstuvwxyz" = "abcdefghijklmnop"%string.
Proof. repeat split. Qed.

Example mapSet_keeps_place :
  mapSet "a" 3%nat [("a"%string, 1%nat); ("b"%string, 2%nat)]
  = [("a"%string, 3%nat); ("b"%string, 2%nat)]
  /\ mapSet "c" 3%nat [("a"%string, 1%nat); ("b"%string, 2%nat)]
     = [("a"%string, 1%nat); ("b"%string, 2%nat); ("c"%string, 3%nat)]
  /\ mapDelete "a" [("a"%string, 1%nat); ("b"%string, 2%nat)]
     = [("b"%string, 2%nat)]
  /\ mapGet "b" [("a"%string, 1%nat); ("b"%string, 2%nat)] = Some 2%nat.
Proof. repeat split. Qed.

Example safeSend_example :
  safeSend (WebSocket.mk 7 OPEN) (error "x") = [(7%nat, error "x")]
  /\ safeSend (WebSocket.mk 7 CLOSING) (error "x") = [].
Proof. split; reflexivity. Qed.

(** ** Tactics and comparisons *)

Ltac split_ifs :=
  repeat match goal with
         | |- context [if ?b then _ else _] => destruct b
         end.

Lemma Rleb_true (a b : R) : a <= b -> Rleb a b = true.
Proof. intro H. unfold Rleb. destruct (Rle_dec a b); [reflexivity | contradiction]. Qed.

Lemma Rleb_false (a b : R) : b < a -> Rleb a b = false.
Proof. intro H. unfold Rleb. destruct (Rle_dec a b); [lra | reflexivity]. Qed.

Lemma Rltb_true (a b : R) : a < b -> Rltb a b = true.
Proof. intro H. unfold Rltb. destruct (Rlt_dec a b); [reflexivity | contradiction]. Qed.

Lemma Rltb_false (a b : R) : b <= a -> Rltb a b = false.
Proof. intro H. unfold Rltb. destruct (Rlt_dec a b); [lra | reflexivity]. Qed.

Lemma Reqb_true (a b : R) : a = b -> Reqb a b = true.
Proof. intro H. unfold Reqb. destruct (Req_dec_T a b); [reflexivity | contradiction]. Qed.

Lemma Reqb_false (a b : R) : a <> b -> Reqb a b = false.
Proof. intro H. unfold Reqb. destruct (Req_dec_T a b); [contradiction | reflexivity]. Qed.

Lemma Rleb_spec (a b : R) : reflect (a <= b) (Rleb a b).
Proof. unfold Rleb. destruct (Rle_dec a b); constructor; assumption. Qed.

Lemma Rltb_spec (a b : R) : reflect (a < b) (Rltb a b).
Proof. unfold Rltb. destruct (Rlt_dec a b); constructor; assumption. Qed.

Lemma Reqb_spec (a b : R) : reflect (a = b) (Reqb a b).
Proof. unfold Reqb. destruct (Req_dec_T a b); constructor; assumption. Qed.

(** ** Lengths at the origin and along a line *)

Lemma hypot_0 : hypot 0 0 = 0.
Proof. unfold hypot. replace (0 * 0 + 0 * 0) with 0 by ring. apply sqrt_0. Qed.

Lemma hypot_flat (a : R) : hypot a 0 = Rabs a.
Proof.
  unfold hypot. replace (a * a + 0 * 0) with (Rsqr a) by (unfold Rsqr; ring).
  apply sqrt_Rsqr_abs.
Qed.

Example hypot_3_4 : hypot 3 4 = 5.
Proof. unfold hypot. apply sqrt_lem_1; lra. Qed.

Lemma normalize_0 : normalize 0 0 = Vec.mk 0 0.
Proof. unfold normalize. rewrite hypot_0, Reqb_true; reflexivity. Qed.

Lemma clampMagnitude_0 : clampMagnitude 0 0 MAX_SPEED = (0, 0).
Proof.
  unfold clampMagnitude. rewrite hypot_0, Rleb_true; [reflexivity |].
  unfold MAX_SPEED. lra.
Qed.

(** ** Lists of players *)

Section Pointwise.
Context {A : Type} (P : A -> A -> Prop).
Hypothesis P_refl : forall a, P a a.
Hypothesis P_trans : forall a b c, P a b -> P b c -> P a c.

Lemma pointwise_refl (l : list A) : Forall2 P l l.
Proof. induction l; constructor; auto. Qed.

Lemma pointwise_trans (l1 l2 l3 : list A) :
  Forall2 P l1 l2 -> Forall2 P l2 l3 -> Forall2 P l1 l3.
Proof.
  intro H12. revert l3.
  induction H12 as [| a b l1 l2 Hab _ IH]; intros l3 H23.
  - inversion H23. constructor.
  - inversion H23 as [| ? c ? l3' Hbc H23']; subst.
    constructor; [exact (P_trans _ _ _ Hab Hbc) | apply IH; exact H23'].
Qed.
End Pointwise.

Lemma Forall2_Forall_transfer {A : Type} (P : A -> A -> Prop)
    (Q : A -> Prop) (l l' : list A) :
  (forall a a', P a a' -> Q a -> Q a') ->
  Forall2 P l l' -> Forall Q l -> Forall Q l'.
Proof.
  intros HPQ H. induction H as [| a a' l l' Haa _ IH]; intro HQ.
  - constructor.
  - inversion HQ; subst. constructor; [eapply HPQ; eassumption | auto].
Qed.

Lemma forEachPlayer_Forall2 (f : Player.t -> Player.t)
    (P : Player.t -> Player.t -> Prop) :
  (forall p, P p (f p)) ->
  forall players,
    Forall2 (fun kp kp' => fst kp' = fst kp /\ P (snd kp) (snd kp'))
            players (forEachPlayer f players).
Proof.
  intros Hf players. induction players as [| kp players IH]; cbn.
  - constructor.
  - constructor; [split; [reflexivity | apply Hf] | exact IH].
Qed.

Lemma rezip_entries (P : Player.t -> Player.t -> Prop)
    (ps : list (string * Player.t)) :
  forall vs : list Player.t,
    Forall2 P (map snd ps) vs ->
    Forall2 (fun kp kp' => fst kp' = fst kp /\ P (snd kp) (snd kp'))
            ps (combine (map fst ps) vs).
Proof.
  induction ps as [| kp ps IH]; intros vs H; inversion H; subst; cbn.
  - constructor.
  - constructor; [split; [reflexivity | assumption] | apply IH; assumption].
Qed.

(** ** What movement and collisions never write *)

Lemma applyInput_dead (p : Player.t) (dt m : R) :
  Player.alive p = false -> applyInput p dt m = p.
Proof. intro H. unfold applyInput. rewrite H. reflexivity. Qed.

Lemma steer_kept (p : Player.t) (dt m : R) :
  keptByPhysics (steer p dt m) = keptByPhysics p.
Proof. unfold steer. cbv zeta. split_ifs; reflexivity. Qed.

Lemma dashImpulse_kept (p : Player.t) :
  keptByPhysics (dashImpulse p) = keptByPhysics p.
Proof. unfold dashImpulse. cbv zeta. split_ifs; reflexivity. Qed.

Lemma dampAndCap_kept (p : Player.t) (dt : R) :
  keptByPhysics (dampAndCap p dt) = keptByPhysics p.
Proof. reflexivity. Qed.

Lemma integrate_kept (p : Player.t) (dt : R) :
  keptByPhysics (integrate p dt) = keptByPhysics p.
Proof. reflexivity. Qed.

Lemma applyInput_kept (p : Player.t) (dt m : R) :
  keptByPhysics (applyInput p dt m) = keptByPhysics p.
Proof.
  unfold applyInput. destruct (negb (Player.alive p)); [reflexivity |].
  cbv zeta.
  rewrite integrate_kept, dampAndCap_kept, dashImpulse_kept, steer_kept.
  reflexivity.
Qed.

Lemma movePlayer_kept (snap : Snap.t) (dt : R) (p : Player.t) :
  keptByPhysics (movePlayer snap dt p) = keptByPhysics p.
Proof. unfold movePlayer. cbv zeta. rewrite applyInput_kept. reflexivity. Qed.

Lemma collidePair_kept (a b : Player.t) :
  keptByPhysics (fst (collidePair a b)) = keptByPhysics a
  /\ keptByPhysics (snd (collidePair a b)) = keptByPhysics b.
Proof.
  unfold collidePair. cbv zeta. split_ifs; cbn; split; reflexivity.
Qed.

Lemma kept_alive (p p' : Player.t) :
  keptByPhysics p' = keptByPhysics p -> Player.alive p' = Player.alive p.
Proof. unfold keptByPhysics. intro H. injection H. auto. Qed.

Lemma kept_dom (p p' : Player.t) :
  keptByPhysics p' = keptByPhysics p ->
  Player.dominationTime p' = Player.dominationTime p.
Proof. unfold keptByPhysics. intro H. injection H. auto. Qed.

Lemma applyInput_alive (p : Player.t) (dt m : R) :
  Player.alive (applyInput p dt m) = Player.alive p.
Proof. apply kept_alive, applyInput_kept. Qed.

Lemma movePlayer_alive (snap : Snap.t) (dt : R) (p : Player.t) :
  Player.alive (movePlayer snap dt p) = Player.alive p.
Proof. apply kept_alive, movePlayer_kept. Qed.

Lemma collidePair_alive (a b : Player.t) :
  Player.alive (fst (collidePair a b)) = Player.alive a
  /\ Player.alive (snd (collidePair a b)) = Player.alive b.
Proof.
  destruct (collidePair_kept a b) as [Ha Hb].
  split; apply kept_alive; assumption.
Qed.

(** ** The blocks of a tick that leave players, circle or flag alone *)

Lemma sendToAll_roundEnded (room : Room.t) (b : bool) (m : ServerMessage) :
  sendToAll (Room.set_roundEnded room b) m = sendToAll room m.
Proof. reflexivity. Qed.

Lemma advancePhase_players (room : Room.t) (dt : R) (rnd : TickRandom.t) :
  Room.players (advancePhase room dt rnd) = Room.players room.
Proof. reflexivity. Qed.

Lemma eventsPhase_players (room : Room.t) (rnd : TickRandom.t) :
  Room.players (fst (eventsPhase room rnd)) = Room.players room.
Proof.
  unfold eventsPhase, accelDue, resizeDue, pulseDue, shiftDue. cbv zeta.
  split_ifs; reflexivity.
Qed.

Lemma checkRoundEnd_players (room : Room.t) :
  Room.players (fst (checkRoundEnd room)) = Room.players room.
Proof. unfold checkRoundEnd. cbv zeta. split_ifs; reflexivity. Qed.

Lemma movePhase_circle (room : Room.t) (dt : R) :
  Room.circle (movePhase room dt) = Room.circle room.
Proof. reflexivity. Qed.

Lemma collidePhase_circle (room : Room.t) :
  Room.circle (collidePhase room) = Room.circle room.
Proof. reflexivity. Qed.

Lemma eventsPhase_roundEnded (room : Room.t) (rnd : TickRandom.t) :
  Room.roundEnded (fst (eventsPhase room rnd)) = Room.roundEnded room.
Proof.
  unfold eventsPhase, accelDue, resizeDue, pulseDue, shiftDue. cbv zeta.
  split_ifs; reflexivity.
Qed.

Lemma checkRoundEnd_circle (room : Room.t) :
  Room.circle (fst (checkRoundEnd room)) = Room.circle room.
Proof. unfold checkRoundEnd. cbv zeta. split_ifs; reflexivity. Qed.

(** ** What one tick does to every player

    A relation between a player before and after a step that holds across
    the movement loop, each collision of a pair and the damage loop holds
    across the whole tick, entry by entry of the player map. *)

Section TickFrame.
Variable P : Player.t -> Player.t -> Prop.
Variable dt : R.
Hypothesis P_refl : forall p, P p p.
Hypothesis P_trans : forall p q r, P p q -> P q r -> P p r.
Hypothesis P_move : forall snap p, P p (movePlayer snap dt p).
Hypothesis P_collide :
  forall a b, Player.alive a = true ->
              P a (fst (collidePair a b)) /\ P b (snd (collidePair a b)).
Hypothesis P_damage :
  forall room snap p, P p (fst (damagePlayer room dt snap p)).

Lemma entrywise_refl (ps : list (string * Player.t)) : entrywise P ps ps.
Proof. apply pointwise_refl. intro kp. split; [reflexivity | apply P_refl]. Qed.

Lemma entrywise_trans (ps qs rs : list (string * Player.t)) :
  entrywise P ps qs -> entrywise P qs rs -> entrywise P ps rs.
Proof.
  apply pointwise_trans. intros a b c [Hk1 H1] [Hk2 H2].
  split; [congruence | exact (P_trans _ _ _ H1 H2)].
Qed.

Lemma collideWithRest_pointwise (rest : list Player.t) :
  forall a : Player.t,
    Player.alive a = true ->
    P a (fst (collideWithRest a rest))
    /\ Forall2 P rest (snd (collideWithRest a rest)).
Proof.
  induction rest as [| b rest IH]; intros a Ha; cbn [collideWithRest fst snd].
  - split; [apply P_refl | constructor].
  - destruct (P_collide a b Ha) as [Haa Hbb].
    assert (Ha' : Player.alive (fst (collidePair a b)) = true)
      by (rewrite (proj1 (collidePair_alive a b)); exact Ha).
    destruct (IH (fst (collidePair a b)) Ha') as [Hfa Hrest].
    split; [exact (P_trans _ _ _ Haa Hfa) | constructor; assumption].
Qed.

Lemma collideFrom_pointwise (n : nat) :
  forall players : list Player.t, Forall2 P players (collideFrom n players).
Proof.
  induction n as [| n IH]; intros players.
  - cbn. apply pointwise_refl. exact P_refl.
  - destruct players as [| a rest]; cbn [collideFrom]; [constructor |].
    destruct (Player.alive a) eqn:Ha; cbn [negb].
    + destruct (collideWithRest_pointwise rest a Ha) as [Hfa Hrest].
      constructor; [exact Hfa |].
      exact (pointwise_trans P P_trans _ _ _ Hrest (IH _)).
    + constructor; [apply P_refl | apply IH].
Qed.

Lemma movePhase_entrywise (room : Room.t) :
  entrywise P (Room.players room) (Room.players (movePhase room dt)).
Proof.
  unfold movePhase. cbv zeta. cbn [Room.players Room.set_players].
  apply forEachPlayer_Forall2. apply P_move.
Qed.

Lemma collidePhase_entrywise (room : Room.t) :
  entrywise P (Room.players room) (Room.players (collidePhase room)).
Proof.
  unfold collidePhase. cbn [Room.players Room.set_players].
  apply rezip_entries. apply collideFrom_pointwise.
Qed.

Lemma damageLoop_entrywise (room : Room.t) (snap : Snap.t)
    (players : list (string * Player.t)) :
  entrywise P players (fst (damageLoop room dt snap players)).
Proof.
  induction players as [| kp players IH]; cbn [damageLoop fst].
  - constructor.
  - constructor; [split; [reflexivity | apply P_damage] | exact IH].
Qed.

Lemma damagePhase_entrywise (room : Room.t) :
  entrywise P (Room.players room) (Room.players (fst (damagePhase room dt))).
Proof.
  unfold damagePhase. cbv zeta. cbn [fst Room.players Room.set_players].
  apply damageLoop_entrywise.
Qed.

Lemma updateRoom_entrywise (room : Room.t) (rnd : TickRandom.t) :
  entrywise P (Room.players room) (Room.players (fst (updateRoom room dt rnd))).
Proof.
  unfold updateRoom. destruct (Room.roundEnded room).
  - cbn [fst]. apply entrywise_refl.
  - cbv zeta. cbn [fst].
    rewrite checkRoundEnd_players, eventsPhase_players.
    eapply entrywise_trans; [| apply damagePhase_entrywise].
    eapply entrywise_trans; [| apply collidePhase_entrywise].
    rewrite <- (advancePhase_players room dt rnd) at 1.
    apply movePhase_entrywise.
Qed.

End TickFrame.

Lemma updateRoom_size (room : Room.t) (dt : R) (rnd : TickRandom.t) :
  List.length (Room.players (fst (updateRoom room dt rnd)))
  = List.length (Room.players room).
Proof.
  symmetry. eapply Forall2_length.
  apply (updateRoom_entrywise (fun _ _ => True) dt); auto.
Qed.

(** ** The end of the round *)

(** A room of fewer than two players is left as it is, whatever its
    clock shows. *)
Lemma checkRoundEnd_small (room : Room.t) :
  (List.length (Room.players room) < 2)%nat ->
  checkRoundEnd room = (room, []).
Proof.
  intro Hsz. unfold checkRoundEnd.
  destruct (Room.roundEnded room); [reflexivity |].
  apply Nat.ltb_lt in Hsz. rewrite Hsz. reflexivity.
Qed.

Lemma checkRoundEnd_lastAlive (room : Room.t) :
  Room.roundEnded room = false ->
  (2 <= List.length (Room.players room))%nat ->
  (List.length (aliveOf room) <= 1)%nat ->
  checkRoundEnd room =
    (Room.set_roundEnded room true,
     sendToAll room
       (roundEnd match aliveOf room with
                 | kp :: _ => Some (Player.id (snd kp))
                 | [] => None
                 end lastAlive)).
Proof.
  intros Hact Hsz Hal. unfold checkRoundEnd. rewrite Hact.
  assert (Hs : (List.length (Room.players room) <? 2)%nat = false)
    by (apply Nat.ltb_ge; exact Hsz).
  rewrite Hs. fold (aliveOf room).
  apply Nat.leb_le in Hal. rewrite Hal. reflexivity.
Qed.

Lemma checkRoundEnd_timeout (room : Room.t) :
  Room.roundEnded room = false ->
  (2 <= List.length (aliveOf room))%nat ->
  ROUND_DURATION_MS <= Room.elapsedMs room ->
  checkRoundEnd room =
    (Room.set_roundEnded room true,
     sendToAll room (roundEnd (pickWinner (Room.players room)) timeout)).
Proof.
  intros Hact Hal Hto. unfold checkRoundEnd. rewrite Hact.
  assert (Hle : (List.length (aliveOf room)
                 <= List.length (Room.players room))%nat)
    by apply filter_length_le.
  assert (Hs : (List.length (Room.players room) <? 2)%nat = false)
    by (apply Nat.ltb_ge; lia).
  rewrite Hs. fold (aliveOf room).
  assert (Ha : (List.length (aliveOf room) <=? 1)%nat = false)
    by (apply Nat.leb_gt; lia).
  rewrite Ha. unfold Rgeb. rewrite Rleb_true by exact Hto. reflexivity.
Qed.

Lemma bestStep_gt (w0 : option string) (b0 : R) (kp : string * Player.t) :
  b0 < dom kp ->
  bestStep (w0, b0) kp = (Some (Player.id (snd kp)), dom kp).
Proof.
  intro H. unfold bestStep, Rgtb. cbn [snd].
  rewrite Rltb_true by exact H. reflexivity.
Qed.

Lemma bestStep_le (w0 : option string) (b0 : R) (kp : string * Player.t) :
  dom kp <= b0 -> bestStep (w0, b0) kp = (w0, b0).
Proof.
  intro H. unfold bestStep, Rgtb. cbn [snd].
  rewrite Rltb_false by exact H. reflexivity.
Qed.

(** What the loop of the timeout branch computes from any starting pair:
    either nothing beats the starting bound, or the result is the first
    of the entries that carry the greatest accumulator. *)
Lemma fold_bestStep (l : list (string * Player.t)) :
  forall (w0 : option string) (b0 : R),
    (Forall (fun kp => dom kp <= b0) l
     /\ fold_left bestStep l (w0, b0) = (w0, b0))
    \/ (exists before w after,
           l = before ++ w :: after
           /\ b0 < dom w
           /\ Forall (fun kp => dom kp < dom w) before
           /\ Forall (fun kp => dom kp <= dom w) after
           /\ fold_left bestStep l (w0, b0)
              = (Some (Player.id (snd w)), dom w)).
Proof.
  induction l as [| kp l IH]; intros w0 b0.
  - left. split; [constructor | reflexivity].
  - cbn [fold_left].
    destruct (Rlt_dec b0 (dom kp)) as [Hgt | Hle].
    + rewrite bestStep_gt by exact Hgt. right.
      destruct (IH (Some (Player.id (snd kp))) (dom kp))
        as [[Hall Hf] | (before & w & after & -> & Hb & Hbef & Haft & Hf)].
      * exists [], kp, l.
        split; [reflexivity |]. split; [exact Hgt |].
        split; [constructor |]. split; [exact Hall | exact Hf].
      * exists (kp :: before), w, after.
        split; [reflexivity |].
        split; [lra |].
        split; [constructor; [exact Hb | exact Hbef] |].
        split; [exact Haft | exact Hf].
    + apply Rnot_lt_le in Hle. rewrite bestStep_le by exact Hle.
      destruct (IH w0 b0)
        as [[Hall Hf] | (before & w & after & -> & Hb & Hbef & Haft & Hf)].
      * left. split; [| exact Hf].
        constructor; [exact Hle | exact Hall].
      * right. exists (kp :: before), w, after.
        split; [reflexivity |]. split; [exact Hb |].
        split; [constructor; [lra | exact Hbef] |].
        split; [exact Haft | exact Hf].
Qed.

Lemma pickWinner_first_greatest (players : list (string * Player.t)) :
  players <> [] ->
  Forall (fun kp => 0 <= dom kp) players ->
  exists before w after,
    players = before ++ w :: after
    /\ Forall (fun kp => dom kp < dom w) before
    /\ Forall (fun kp => dom kp <= dom w) after
    /\ pickWinner players = Some (Player.id (snd w)).
Proof.
  intros Hne Hpos. unfold pickWinner.
  destruct (fold_bestStep players None (-1))
    as [[Hall _] | (before & w & after & Hl & _ & Hbef & Haft & Hf)].
  - destruct players as [| kp rest]; [contradiction |].
    inversion Hall; subst. inversion Hpos; subst. lra.
  - exists before, w, after. rewrite Hf. auto.
Qed.

(** A tick of an active room of fewer than two players leaves it active. *)
Lemma small_room_tick_stays_active (room : Room.t) (dt : R)
    (rnd : TickRandom.t) :
  (List.length (Room.players room) < 2)%nat ->
  Room.roundEnded room = false ->
  Room.roundEnded (fst (updateRoom room dt rnd)) = false.
Proof.
  intros Hsz Hact. unfold updateRoom. rewrite Hact. cbv zeta. cbn [fst].
  set (r := fst (eventsPhase _ rnd)).
  assert (Hr : (List.length (Room.players r) < 2)%nat).
  { pose proof (updateRoom_size room dt rnd) as E.
    unfold updateRoom in E. rewrite Hact in E. cbv zeta in E. cbn [fst] in E.
    rewrite checkRoundEnd_players in E. fold r in E. rewrite E. exact Hsz. }
  rewrite (checkRoundEnd_small r Hr). cbn [fst]. unfold r.
  rewrite eventsPhase_roundEnded. exact Hact.
Qed.

(** C1 (as amended).  A room with fewer than two players never ends: the
    round-end check returns before both the last-alive rule and the timeout
    rule, so it leaves the room as it is and sends nothing, also when the
    elapsed time has reached the round duration; and a tick leaves such a
    room active. *)
Theorem small_room_never_ends (room : Room.t) :
  (List.length (Room.players room) < 2)%nat ->
  checkRoundEnd room = (room, [])
  /\ forall dt rnd,
       Room.roundEnded room = false ->
       Room.roundEnded (fst (updateRoom room dt rnd)) = false.
Proof.
  intro Hsz. split.
  - exact (checkRoundEnd_small room Hsz).
  - intros dt rnd Hact.
    exact (small_room_tick_stays_active room dt rnd Hsz Hact).
Qed.

Lemma small_room_never_ends_witness :
  checkRoundEnd soloRoom = (soloRoom, [])
  /\ Room.roundEnded (fst (updateRoom soloRoom (1 / TICK_RATE) calmDraw))
     = false.
Proof.
  destruct (small_room_never_ends soloRoom) as [Hcheck Htick].
  - cbn. lia.
  - split; [exact Hcheck | apply Htick; reflexivity].
Defined.

(** C1 (as stated) fails: a solo room whose elapsed time has reached the
    round duration is still active after the round-end check, and no
    round-end message is sent. *)
Lemma solo_room_does_not_time_out :
  (List.length (Room.players soloRoom) < 2)%nat
  /\ Room.roundEnded soloRoom = false
  /\ ROUND_DURATION_MS <= Room.elapsedMs soloRoom
  /\ Room.roundEnded (fst (checkRoundEnd soloRoom)) = false
  /\ snd (checkRoundEnd soloRoom) = [].
Proof.
  assert (Hsz : (List.length (Room.players soloRoom) < 2)%nat)
    by (cbn; lia).
  rewrite (checkRoundEnd_small soloRoom Hsz).
  split; [exact Hsz |]. split; [reflexivity |].
  split; [cbn; lra |]. split; reflexivity.
Qed.

(** C4.  In an active room of at least two players of whom at most one is
    alive, the round-end check ends the round and tells every member
    [roundEnd] with reason [lastAlive]; the winner is the id of the one
    alive player, and [null] when nobody is alive. *)
Theorem last_alive_ends_round (room : Room.t) :
  Room.roundEnded room = false ->
  (2 <= List.length (Room.players room))%nat ->
  (List.length (aliveOf room) <= 1)%nat ->
  exists winnerId : option string,
    checkRoundEnd room =
      (Room.set_roundEnded room true,
       sendToAll room (roundEnd winnerId lastAlive))
    /\ Room.roundEnded (fst (checkRoundEnd room)) = true
    /\ (aliveOf room = [] -> winnerId = None)
    /\ (forall kp, aliveOf room = [kp] ->
                   winnerId = Some (Player.id (snd kp))).
Proof.
  intros Hact Hsz Hal.
  rewrite (checkRoundEnd_lastAlive room Hact Hsz Hal).
  eexists. split; [reflexivity |]. split; [reflexivity |].
  split.
  - intros ->. reflexivity.
  - intros kp ->. reflexivity.
Qed.

Lemma last_alive_ends_round_witness :
  checkRoundEnd duelRoom =
    (Room.set_roundEnded duelRoom true,
     [(1%nat, roundEnd (Some "A"%string) lastAlive);
      (2%nat, roundEnd (Some "A"%string) lastAlive)]).
Proof.
  destruct (last_alive_ends_round duelRoom) as (w & Heq & _ & _ & Hone).
  - reflexivity.
  - cbn. lia.
  - cbn. lia.
  - rewrite Heq. rewrite (Hone ("A"%string, spawn "A" 1 600 400)).
    + reflexivity.
    + reflexivity.
Defined.

(** Domination times start at 0 (on join and on reset) and a tick does not
    decrease them. *)
Lemma damagePlayer_dom (room : Room.t) (dt : R) (snap : Snap.t)
    (p : Player.t) :
  0 <= dt -> domGrows p (fst (damagePlayer room dt snap p)).
Proof.
  intro Hdt. unfold domGrows, damagePlayer. cbv zeta.
  split_ifs; cbn; lra.
Qed.

Lemma updateRoom_dom_nonneg (room : Room.t) (dt : R) (rnd : TickRandom.t) :
  0 <= dt ->
  Forall (fun kp => 0 <= dom kp) (Room.players room) ->
  Forall (fun kp => 0 <= dom kp) (Room.players (fst (updateRoom room dt rnd))).
Proof.
  intros Hdt Hpos.
  assert (H : entrywise domGrows (Room.players room)
                (Room.players (fst (updateRoom room dt rnd)))).
  { apply updateRoom_entrywise.
    - intro p. unfold domGrows. lra.
    - intros p q r. unfold domGrows. lra.
    - intros snap p. unfold domGrows.
      rewrite (kept_dom _ _ (movePlayer_kept snap dt p)). lra.
    - intros a b _. destruct (collidePair_kept a b) as [Ha Hb].
      unfold domGrows. rewrite (kept_dom _ _ Ha), (kept_dom _ _ Hb). lra.
    - intros r snap p. apply damagePlayer_dom. exact Hdt. }
  eapply Forall2_Forall_transfer; [| exact H | exact Hpos].
  intros kp kp' [_ Hg] H0. unfold dom, domGrows in *. lra.
Qed.

Lemma resetRoomRound_dom (room : Room.t) :
  Forall (fun kp => dom kp = 0) (Room.players (resetRoomRound room)).
Proof.
  unfold resetRoomRound. cbv zeta. cbn [Room.players Room.set_players].
  unfold forEachPlayer. apply Forall_map. apply Forall_forall.
  intros kp _. reflexivity.
Qed.

(** The loop [for (const player of players) safeSend (player.ws, m)]
    delivers once to every open socket, in the order of the players. *)
Lemma sends_to_open (players : list (string * Player.t))
    (message : ServerMessage) :
  flat_map (fun kp => safeSend (Player.ws (snd kp)) message) players
  = map (fun kp => (WebSocket.conn (Player.ws (snd kp)), message))
        (filter (fun kp => isOpen (Player.ws (snd kp))) players).
Proof.
  induction players as [| kp players IH]; cbn [flat_map filter];
    [reflexivity |].
  rewrite IH. unfold safeSend.
  destruct (isOpen (Player.ws (snd kp))); reflexivity.
Qed.

(** C5.  In an active room with at least two alive players (hence at least
    two players) whose elapsed time has reached the round duration, the
    round-end check ends the round: the room it returns has its
    [roundEnded] flag set and is otherwise the room it was given, and
    every member whose socket is open, dead or alive, is sent [roundEnd]
    with reason [timeout], once and in the order of the map.  The winner
    reported is the first player, in the order of the map, among those
    with the greatest domination time: everyone before it has strictly
    less, everyone after it has at most as much.  Domination times are at
    least 0, as every tick leaves them. *)
Theorem timeout_first_greatest (room : Room.t) :
  Room.roundEnded room = false ->
  (2 <= List.length (aliveOf room))%nat ->
  ROUND_DURATION_MS <= Room.elapsedMs room ->
  Forall (fun kp => 0 <= dom kp) (Room.players room) ->
  exists before w after,
    Room.players room = before ++ w :: after
    /\ Forall (fun kp => dom kp < dom w) before
    /\ Forall (fun kp => dom kp <= dom w) after
    /\ checkRoundEnd room =
         (Room.set_roundEnded room true,
          sendToAll room (roundEnd (Some (Player.id (snd w))) timeout))
    /\ Room.roundEnded (fst (checkRoundEnd room)) = true
    /\ snd (checkRoundEnd room)
       = map (fun kp => (WebSocket.conn (Player.ws (snd kp)),
                         roundEnd (Some (Player.id (snd w))) timeout))
             (filter (fun kp => isOpen (Player.ws (snd kp)))
                     (Room.players room)).
Proof.
  intros Hact Hal Hto Hpos.
  rewrite (checkRoundEnd_timeout room Hact Hal Hto).
  destruct (pickWinner_first_greatest (Room.players room))
    as (before & w & after & Hl & Hbef & Haft & Hw).
  - intro Hnil. unfold aliveOf in Hal. rewrite Hnil in Hal. cbn in Hal. lia.
  - exact Hpos.
  - exists before, w, after. rewrite Hw. cbn [fst snd].
    split; [exact Hl |]. split; [exact Hbef |]. split; [exact Haft |].
    split; [reflexivity |]. split; [reflexivity |].
    apply sends_to_open.
Qed.

(** The example of the specification: domination times [5.0, 3.2, 5.0] for
    A, B, C in that order make A the winner, and all three are told. *)
Lemma timeout_first_greatest_witness :
  checkRoundEnd podiumRoom =
    (Room.set_roundEnded podiumRoom true,
     [(1%nat, roundEnd (Some "A"%string) timeout);
      (2%nat, roundEnd (Some "A"%string) timeout);
      (3%nat, roundEnd (Some "A"%string) timeout)])
  /\ Room.roundEnded (fst (checkRoundEnd podiumRoom)) = true.
Proof.
  destruct (timeout_first_greatest podiumRoom)
    as (before & w & after & Hl & Hbef & Haft & Heq & Hend & Hsent).
  - reflexivity.
  - cbn. lia.
  - cbn. lra.
  - cbn. repeat constructor; unfold dom; cbn; lra.
  - split; [| exact Hend].
    assert (Hw : Player.id (snd w) = "A"%string).
    { cbn in Hl.
      destruct before as [| b1 before].
      + cbn in Hl. injection Hl as <- _. reflexivity.
      + cbn in Hl. injection Hl as <- Hl.
        inversion Hbef as [| ? ? Hb1 Hbef']; subst.
        destruct before as [| b2 before].
        * cbn in Hl. injection Hl as <- _.
          unfold dom in Hb1. cbn in Hb1. lra.
        * cbn in Hl. injection Hl as <- Hl.
          destruct before as [| b3 before].
          -- cbn in Hl. injection Hl as <- _.
             unfold dom in Hb1. cbn in Hb1. lra.
          -- cbn in Hl. injection Hl as _ Hl.
             destruct before; discriminate Hl. }
    rewrite Heq, Hw. reflexivity.
Defined.

(** ** The round reset *)

Lemma resetPlayer_keeps (p : Player.t) : resetKeeps p (resetPlayer p).
Proof. unfold resetKeeps. cbn. repeat split. Qed.

(** C10.  A round reset sets every player's hp to 100, alive to true,
    dominationTime to 0 and velocity to zero and keeps the player's
    position, lastDir, dash cooldown, stored input, id, nickname and
    socket, in the same place of the map; it keeps the room's tick counter
    and code, and re-initializes the elapsed time, the four event
    deadlines, the roundEnded flag and the circle. *)
Theorem reset_round_frame (room : Room.t) :
  Forall2 (fun kp kp' => fst kp' = fst kp /\ resetKeeps (snd kp) (snd kp'))
          (Room.players room) (Room.players (resetRoomRound room))
  /\ Room.tick (resetRoomRound room) = Room.tick room
  /\ Room.code (resetRoomRound room) = Room.code room
  /\ Room.elapsedMs (resetRoomRound room) = 0
  /\ Room.nextShiftMs (resetRoomRound room) = SHIFT_INTERVAL_MS
  /\ Room.nextPulseMs (resetRoomRound room) = PULSE_INTERVAL_MS
  /\ Room.nextResizeMs (resetRoomRound room) = RESIZE_INTERVAL_MS
  /\ Room.nextAccelMs (resetRoomRound room) = ACCEL_INTERVAL_MS
  /\ Room.roundEnded (resetRoomRound room) = false
  /\ Room.circle (resetRoomRound room) = Room.circle (createRoom (Room.code room)).
Proof.
  split.
  - apply (forEachPlayer_Forall2 resetPlayer resetKeeps resetPlayer_keeps).
  - cbn. repeat split.
Qed.

(** ** The two circle snapshots of a tick *)

(** Where a tick uses the two snapshots: the movement loop runs with
    [currentCircle], the damage loop with [circleSnapshot]. *)
Lemma movePhase_uses_currentCircle (room : Room.t) (dt : R)
    (rnd : TickRandom.t) :
  Room.players (movePhase (advancePhase room dt rnd) dt)
  = forEachPlayer (movePlayer (currentCircle room dt rnd) dt)
                  (Room.players room).
Proof. reflexivity. Qed.

Lemma damagePhase_uses_circleSnapshot (room : Room.t) (dt : R)
    (rnd : TickRandom.t) :
  let r := collidePhase (movePhase (advancePhase room dt rnd) dt) in
  damagePhase r dt
  = (Room.set_players r
       (fst (damageLoop r dt (circleSnapshot room dt rnd) (Room.players r))),
     snd (damageLoop r dt (circleSnapshot room dt rnd) (Room.players r))).
Proof. reflexivity. Qed.

(** C7.  Within one tick of an active room the circle snapshot taken before
    the movement loop and the one taken before the damage loop are equal,
    in all four fields: the movement loop and the collision resolution
    between them write to players only, never to the circle or to its
    pulse phase. *)
Theorem tick_snapshots_agree (room : Room.t) (dt : R) (rnd : TickRandom.t) :
  Room.circle (collidePhase (movePhase (advancePhase room dt rnd) dt))
    = Room.circle (advancePhase room dt rnd)
  /\ circleSnapshot room dt rnd = currentCircle room dt rnd
  /\ Snap.x (circleSnapshot room dt rnd) = Snap.x (currentCircle room dt rnd)
  /\ Snap.y (circleSnapshot room dt rnd) = Snap.y (currentCircle room dt rnd)
  /\ Snap.radius (circleSnapshot room dt rnd)
     = Snap.radius (currentCircle room dt rnd)
  /\ Snap.innerRadius (circleSnapshot room dt rnd)
     = Snap.innerRadius (currentCircle room dt rnd).
Proof.
  assert (Hc : Room.circle
                 (collidePhase (movePhase (advancePhase room dt rnd) dt))
               = Room.circle (advancePhase room dt rnd)).
  { rewrite collidePhase_circle. apply movePhase_circle. }
  assert (Hs : circleSnapshot room dt rnd = currentCircle room dt rnd).
  { unfold circleSnapshot, currentCircle. rewrite Hc. reflexivity. }
  split; [exact Hc |]. split; [exact Hs |].
  rewrite Hs. repeat split.
Qed.

(** ** The radius of the circle *)

Lemma driftStep_radii (c : Circle.t) (dt a t : R) :
  radii (driftStep c dt a t) = radii c.
Proof. unfold driftStep. cbv zeta. split_ifs; reflexivity. Qed.

Lemma bounceStep_radii (c : Circle.t) : radii (bounceStep c) = radii c.
Proof. unfold bounceStep. cbv zeta. split_ifs; reflexivity. Qed.

Lemma shiftStep_radii (c : Circle.t) (dt : R) :
  radii (shiftStep c dt) = radii c.
Proof. unfold shiftStep. cbv zeta. split_ifs; reflexivity. Qed.

Lemma pulseStep_radii (c : Circle.t) (dt : R) :
  radii (pulseStep c dt) = radii c.
Proof. unfold pulseStep. cbv zeta. split_ifs; reflexivity. Qed.

Lemma updateCircle_radius (room : Room.t) (dt a t : R) :
  let c := Room.circle room in
  let c' := Room.circle (updateCircle room dt a t) in
  Circle.baseRadius c'
    = Rmax (Circle.minRadius c)
           (Circle.baseRadius c - Circle.shrinkRate c * dt)
  /\ Circle.minRadius c' = Circle.minRadius c
  /\ Circle.maxRadius c' = Circle.maxRadius c
  /\ Circle.shrinkRate c' = Circle.shrinkRate c.
Proof.
  intros c c'.
  assert (H : radii c'
              = radii (shrinkStep (bounceStep (driftStep c dt a t)) dt)).
  { unfold c', updateCircle. cbv zeta. cbn [Room.circle Room.set_circle].
    rewrite pulseStep_radii, shiftStep_radii. reflexivity. }
  assert (H0 : radii (bounceStep (driftStep c dt a t)) = radii c)
    by (rewrite bounceStep_radii; apply driftStep_radii).
  unfold radii in H, H0. cbn [shrinkStep Circle.set_baseRadius
    Circle.baseRadius Circle.minRadius Circle.maxRadius Circle.shrinkRate]
    in H.
  injection H as Hb Hmin Hmax Hrate. injection H0 as Hb0 Hmin0 Hmax0 Hrate0.
  rewrite Hb, Hmin, Hmax, Hrate, Hb0, Hmin0, Hmax0, Hrate0. repeat split.
Qed.

(** The shrink step floors at [minRadius] and never raises the radius. *)
Lemma updateCircle_shrinks (room : Room.t) (dt a t : R) :
  0 <= dt ->
  circleOk (Room.circle room) ->
  Circle.minRadius (Room.circle room)
    <= Circle.baseRadius (Room.circle (updateCircle room dt a t))
    <= Circle.baseRadius (Room.circle room).
Proof.
  intros Hdt [[Hlo Hhi] Hrate].
  destruct (updateCircle_radius room dt a t) as (-> & _).
  split.
  - apply Rmax_l.
  - apply Rmax_lub; [exact Hlo |].
    assert (0 <= Circle.shrinkRate (Room.circle room) * dt)
      by (apply Rmult_le_pos; assumption).
    lra.
Qed.

(** A resize sets the radius to a value between the two bounds. *)
Lemma triggerResize_in_range (room : Room.t) (rnd : R) :
  0 <= rnd < 1 ->
  Circle.minRadius (Room.circle room) <= Circle.maxRadius (Room.circle room) ->
  radiusOk (Room.circle (fst (triggerResize room rnd))).
Proof.
  intros [H0 H1] Hmm. unfold radiusOk. cbn.
  set (lo := Circle.minRadius (Room.circle room)) in *.
  set (hi := Circle.maxRadius (Room.circle room)) in *.
  split; nra.
Qed.

Lemma freshCircle_ok : circleOk freshCircle.
Proof. unfold circleOk, radiusOk. cbn. lra. Qed.

Lemma applyOp_ok (room : Room.t) (op : CircleOp) :
  opOk op ->
  circleOk (Room.circle room) ->
  circleOk (Room.circle (applyOp room op))
  /\ (op <> OpReset ->
      Circle.minRadius (Room.circle (applyOp room op))
        = Circle.minRadius (Room.circle room)
      /\ Circle.maxRadius (Room.circle (applyOp room op))
        = Circle.maxRadius (Room.circle room)).
Proof.
  intros Hop Hok. destruct op; cbn [applyOp opOk] in *.
  - destruct (updateCircle_radius room dt rndAngle rndTimer)
      as (Hb & Hmin & Hmax & Hrate).
    pose proof (updateCircle_shrinks room dt rndAngle rndTimer Hop Hok)
      as [Hlo Hhi].
    destruct Hok as [[Hlo0 Hhi0] Hrate0].
    split; [| intros _; split; assumption].
    unfold circleOk, radiusOk. rewrite Hmin, Hmax, Hrate. lra.
  - split; [exact Hok | intros _; split; reflexivity].
  - split; [exact Hok | intros _; split; reflexivity].
  - destruct Hok as [[Hlo Hhi] Hrate].
    split; [| intros _; split; reflexivity].
    split; [| exact Hrate].
    apply triggerResize_in_range; [exact Hop | lra].
  - split; [exact Hok | intros _; split; reflexivity].
  - split; [exact freshCircle_ok | intro H; contradiction].
Qed.

(** C8.  From a circle whose base radius lies between its two bounds (as in
    a new room), every sequence of advances, scheduled events and round
    resets leaves the base radius between the bounds: the shrink step
    floors at [minRadius] and does not raise the radius, a resize sets it
    to a value inside the bounds, and nothing else writes it. *)
Theorem base_radius_stays_in_bounds (ops : list CircleOp) :
  forall room : Room.t,
    Forall opOk ops ->
    circleOk (Room.circle room) ->
    radiusOk (Room.circle (fold_left applyOp ops room)).
Proof.
  induction ops as [| op ops IH]; intros room Hops Hok.
  - exact (proj1 Hok).
  - inversion Hops as [| ? ? Hop Hops']; subst. cbn [fold_left].
    apply IH; [exact Hops' |].
    exact (proj1 (applyOp_ok room op Hop Hok)).
Qed.

Lemma base_radius_stays_in_bounds_witness :
  radiusOk
    (Room.circle
       (fold_left applyOp
          [OpAdvance (1 / TICK_RATE) 0 0; OpResize 0.5; OpAccel;
           OpAdvance (1 / TICK_RATE) 0 0; OpShift 0.5 0.5; OpPulse; OpReset;
           OpAdvance (1 / TICK_RATE) 0 0]
          (createRoom "X"))).
Proof.
  apply (base_radius_stays_in_bounds
           [OpAdvance (1 / TICK_RATE) 0 0; OpResize 0.5; OpAccel;
            OpAdvance (1 / TICK_RATE) 0 0; OpShift 0.5 0.5; OpPulse; OpReset;
            OpAdvance (1 / TICK_RATE) 0 0]
           (createRoom "X")).
  - repeat constructor; unfold TICK_RATE; cbn; lra.
  - exact freshCircle_ok.
Defined.

Lemma shiftDue_circleOk (room : Room.t) (rnd : TickRandom.t) :
  circleOk (Room.circle room) -> circleOk (Room.circle (fst (shiftDue room rnd))).
Proof. intro H. unfold shiftDue. split_ifs; exact H. Qed.

Lemma pulseDue_circleOk (room : Room.t) :
  circleOk (Room.circle room) -> circleOk (Room.circle (fst (pulseDue room))).
Proof. intro H. unfold pulseDue. split_ifs; exact H. Qed.

Lemma accelDue_circleOk (room : Room.t) :
  circleOk (Room.circle room) -> circleOk (Room.circle (fst (accelDue room))).
Proof. intro H. unfold accelDue. split_ifs; exact H. Qed.

Lemma resizeDue_circleOk (room : Room.t) (rnd : TickRandom.t) :
  0 <= TickRandom.resize rnd < 1 ->
  circleOk (Room.circle room) ->
  circleOk (Room.circle (fst (resizeDue room rnd))).
Proof.
  intros Hr H. unfold resizeDue. split_ifs; [| exact H]. cbv zeta. cbn [fst].
  exact (proj1 (applyOp_ok (Room.set_nextResizeMs room _)
                  (OpResize (TickRandom.resize rnd)) Hr H)).
Qed.

Lemma advancePhase_as_op (room : Room.t) (dt : R) (rnd : TickRandom.t) :
  advancePhase room dt rnd
  = applyOp (Room.set_tick
               (Room.set_elapsedMs room (Room.elapsedMs room + dt * 1000))
               (Room.tick room + 1))
            (OpAdvance dt (TickRandom.angle rnd) (TickRandom.timer rnd)).
Proof. reflexivity. Qed.

Lemma damagePhase_circle (room : Room.t) (dt : R) :
  Room.circle (fst (damagePhase room dt)) = Room.circle room.
Proof. reflexivity. Qed.

Lemma eventsPhase_circleOk (room : Room.t) (rnd : TickRandom.t) :
  0 <= TickRandom.resize rnd < 1 ->
  circleOk (Room.circle room) ->
  circleOk (Room.circle (fst (eventsPhase room rnd))).
Proof.
  intros Hr Hok. unfold eventsPhase. cbv zeta. cbn [fst].
  apply accelDue_circleOk, resizeDue_circleOk; [exact Hr |].
  apply pulseDue_circleOk, shiftDue_circleOk. exact Hok.
Qed.

(** The advance and the events are all a tick does to the circle. *)
Lemma updateRoom_circleOk (room : Room.t) (dt : R) (rnd : TickRandom.t) :
  0 <= dt ->
  0 <= TickRandom.resize rnd < 1 ->
  circleOk (Room.circle room) ->
  circleOk (Room.circle (fst (updateRoom room dt rnd))).
Proof.
  intros Hdt Hr Hok. unfold updateRoom.
  destruct (Room.roundEnded room); [exact Hok |].
  cbv zeta. cbn [fst]. rewrite checkRoundEnd_circle.
  apply eventsPhase_circleOk; [exact Hr |].
  rewrite damagePhase_circle, collidePhase_circle, movePhase_circle,
    advancePhase_as_op.
  apply applyOp_ok; [exact Hdt | exact Hok].
Qed.

(** ** Protocol errors *)

Lemma safeSend_open (ws : WebSocket.t) (m : ServerMessage) :
  isOpen ws = true -> safeSend ws m = [(WebSocket.conn ws, m)].
Proof. intro H. unfold safeSend. rewrite H. reflexivity. Qed.

Lemma safeSend_not_open (ws : WebSocket.t) (m : ServerMessage) :
  isOpen ws = false -> safeSend ws m = [].
Proof. intro H. unfold safeSend. rewrite H. reflexivity. Qed.

(** A successful join records the room in the connection. *)
Lemma join_sets_currentRoom (srv : Server.t) (sess : Session.t)
    (roomCode nickname : string) (rnd : JoinRandom.t) :
  Session.currentRoom sess = None ->
  Session.currentRoom
    (snd (fst (onMessage srv sess (join roomCode nickname) rnd))) <> None.
Proof. intro H. unfold onMessage. rewrite H. cbn. discriminate. Qed.

Example afterJoin_registry :
  Server.rooms (fst (fst afterJoin)) = [("X"%string, 0%nat)]
  /\ Session.currentRoom (snd (fst afterJoin)) = Some 0%nat
  /\ Session.playerId (snd (fst afterJoin)) = Some "p1"%string
  /\ map fst (flat_map Room.players (Server.store (fst (fst afterJoin))))
     = ["p1"%string].
Proof. repeat split. Qed.

(** C9.  On a connection whose socket is open, a join message that arrives
    after the connection has joined, and an input message that arrives
    before it has joined, are each answered with exactly one [error]
    message to that connection, and the registry, the rooms with their
    players, and the connection's own state stay as they are. *)
Theorem protocol_errors_leave_state (srv : Server.t) (sess : Session.t)
    (rnd : JoinRandom.t) :
  isOpen (Session.ws sess) = true ->
  (forall roomCode nickname,
      Session.currentRoom sess <> None ->
      onMessage srv sess (join roomCode nickname) rnd
      = (srv, sess,
         [(WebSocket.conn (Session.ws sess), error "Already joined.")]))
  /\ (forall seq inp,
         Session.currentRoom sess = None ->
         onMessage srv sess (input seq inp) rnd
         = (srv, sess,
            [(WebSocket.conn (Session.ws sess),
              error "Join a room first.")])).
Proof.
  intro Hopen. split.
  - intros roomCode nickname Hjoined. unfold onMessage.
    destruct (Session.currentRoom sess) as [ref |]; [| contradiction].
    rewrite safeSend_open by exact Hopen. reflexivity.
  - intros seq inp Hnot. unfold onMessage. rewrite Hnot.
    rewrite safeSend_open by exact Hopen. reflexivity.
Qed.

Lemma protocol_errors_leave_state_witness :
  onMessage (fst (fst afterJoin)) (snd (fst afterJoin)) (join "X" "eve")
            joinDraw
  = (fst (fst afterJoin), snd (fst afterJoin),
     [(1%nat, error "Already joined.")])
  /\ onMessage emptyServer (freshSession 1) (input 0 emptyInput) joinDraw
     = (emptyServer, freshSession 1, [(1%nat, error "Join a room first.")]).
Proof.
  split.
  - apply (protocol_errors_leave_state
             (fst (fst afterJoin)) (snd (fst afterJoin)) joinDraw).
    + reflexivity.
    + cbn. discriminate.
  - apply (protocol_errors_leave_state emptyServer (freshSession 1) joinDraw).
    + reflexivity.
    + reflexivity.
Defined.

(** ** Dead players *)

Lemma frozen_refl (p : Player.t) : Player.alive p = false -> frozen p p.
Proof. intro H. unfold frozen. repeat split; auto. Qed.

Lemma frozen_trans (p q r : Player.t) : frozen p q -> frozen q r -> frozen p r.
Proof.
  unfold frozen. intros (_ & Hx & Hy & Hvx & Hvy & Hhp)
                        (Ha & Hx' & Hy' & Hvx' & Hvy' & Hhp').
  repeat split; congruence.
Qed.

Lemma deathRespected_refl (p : Player.t) : deathRespected p p.
Proof. split; [apply frozen_refl | auto]. Qed.

Lemma deathRespected_trans (p q r : Player.t) :
  deathRespected p q -> deathRespected q r -> deathRespected p r.
Proof.
  intros [Hf1 Hs1] [Hf2 Hs2]. split.
  - intro Hd. pose proof (Hf1 Hd) as Hpq.
    apply (frozen_trans p q r Hpq). apply Hf2. exact (proj1 Hpq).
  - auto.
Qed.

Lemma sameLife_respects (p p' : Player.t) :
  sameLife p p' -> deathRespected p p'.
Proof.
  intros [Ha Hd]. split.
  - intro H. rewrite (Hd H). apply frozen_refl. exact H.
  - intros Hs H'. rewrite Ha in H'. rewrite (Hd H'). exact (Hs H').
Qed.

Lemma sameLife_refl (p : Player.t) : sameLife p p.
Proof. split; auto. Qed.

Lemma sameLife_trans (p q r : Player.t) :
  sameLife p q -> sameLife q r -> sameLife p r.
Proof.
  intros [Ha1 Hd1] [Ha2 Hd2]. split; [congruence |].
  intro H. rewrite <- (Hd1 H). apply Hd2. congruence.
Qed.

Lemma movePlayer_respects (snap : Snap.t) (dt : R) (p : Player.t) :
  deathRespected p (movePlayer snap dt p).
Proof.
  unfold movePlayer. cbv zeta. split.
  - intro Hd. rewrite applyInput_dead by exact Hd.
    unfold frozen. cbn. repeat split; auto.
  - intros Hs Hd'. rewrite applyInput_alive in Hd'. cbn in Hd'.
    rewrite applyInput_dead by exact Hd'. cbn. exact (Hs Hd').
Qed.

Lemma collidePair_sameLife (a b : Player.t) :
  Player.alive a = true ->
  sameLife a (fst (collidePair a b)) /\ sameLife b (snd (collidePair a b)).
Proof.
  intro Ha. unfold collidePair.
  destruct (Player.alive b) eqn:Hb; cbn [negb].
  - cbv zeta. split_ifs; cbn [fst snd].
    + split; apply sameLife_refl.
    + split; (split; [cbn; auto | cbn; congruence]).
  - split; apply sameLife_refl.
Qed.

Lemma damagePlayer_respects (room : Room.t) (dt : R) (snap : Snap.t)
    (p : Player.t) :
  deathRespected p (fst (damagePlayer room dt snap p)).
Proof.
  unfold damagePlayer. destruct (Player.alive p) eqn:Ha; cbn [negb].
  - split; [intro H; congruence |].
    intros _. cbv zeta. unfold deadStill.
    split_ifs; cbn; intro H; first [split; reflexivity | congruence].
  - cbn [fst]. apply deathRespected_refl.
Qed.

Lemma collidePair_respects (a b : Player.t) :
  Player.alive a = true ->
  deathRespected a (fst (collidePair a b))
  /\ deathRespected b (snd (collidePair a b)).
Proof.
  intro Ha. destruct (collidePair_sameLife a b Ha) as [Hfa Hfb].
  split; apply sameLife_respects; assumption.
Qed.

Lemma resolveCollisions_respects (players : list Player.t) :
  Forall2 deathRespected players (resolveCollisions players).
Proof.
  unfold resolveCollisions.
  apply (collideFrom_pointwise deathRespected deathRespected_refl
           deathRespected_trans collidePair_respects).
Qed.

(** A tick. *)
Lemma updateRoom_respects (room : Room.t) (dt : R) (rnd : TickRandom.t) :
  entriesRespectDeath (Room.players room)
                      (Room.players (fst (updateRoom room dt rnd))).
Proof.
  unfold entriesRespectDeath. apply updateRoom_entrywise.
  - exact deathRespected_refl.
  - exact deathRespected_trans.
  - intros snap p. apply movePlayer_respects.
  - exact collidePair_respects.
  - intros r snap p. apply damagePlayer_respects.
Qed.

(** An input message writes the stored input of an alive player and
    nothing else: in every room every player keeps its key, its alive flag
    and, when dead, all of its fields. *)
Lemma mapSet_entrywise (P : Player.t -> Player.t -> Prop) (k : string)
    (v' : Player.t) :
  (forall p, P p p) ->
  forall (m : list (string * Player.t)) (v : Player.t),
    mapGet k m = Some v -> P v v' ->
    entrywise P m (mapSet k v' m).
Proof.
  intros Hrefl m. induction m as [| kv m IH]; intros v Hget HP.
  - discriminate Hget.
  - cbn [mapGet mapSet] in *.
    destruct (String.eqb (fst kv) k) eqn:Hk.
    + injection Hget as <-. apply String.eqb_eq in Hk.
      constructor.
      * split; [cbn; congruence | exact HP].
      * apply pointwise_refl. intro kp. split; [reflexivity | apply Hrefl].
    + constructor; [split; [reflexivity | apply Hrefl] |].
      exact (IH v Hget HP).
Qed.

Lemma storeSet_pointwise {A : Type} (P : A -> A -> Prop) :
  (forall a, P a a) ->
  forall (h : list A) (ref : nat) (a v : A),
    nth_error h ref = Some a -> P a v ->
    Forall2 P h (storeSet ref v h).
Proof.
  intros Hrefl h. induction h as [| x h IH]; intros ref a v Hget HP.
  - destruct ref; discriminate Hget.
  - destruct ref as [| ref]; cbn [storeSet nth_error] in *.
    + injection Hget as ->. constructor; [exact HP |].
      apply pointwise_refl. exact Hrefl.
    + constructor; [apply Hrefl | exact (IH ref a v Hget HP)].
Qed.

Lemma input_message_respects_death (srv : Server.t) (sess : Session.t)
    (seq : R) (inp : PlayerInput.t) (rnd : JoinRandom.t) :
  Forall2 (fun room room' =>
             entrywise sameLife (Room.players room) (Room.players room'))
          (Server.store srv)
          (Server.store (fst (fst (onMessage srv sess (input seq inp) rnd)))).
Proof.
  assert (Hsame : forall ps : list (string * Player.t),
             entrywise sameLife ps ps).
  { intro ps. apply pointwise_refl. intro kp.
    split; [reflexivity | apply sameLife_refl]. }
  assert (Hstay : Forall2 (fun room room' =>
                    entrywise sameLife (Room.players room)
                              (Room.players room'))
                    (Server.store srv) (Server.store srv)).
  { apply pointwise_refl. intro room. apply Hsame. }
  unfold onMessage.
  destruct (Session.currentRoom sess) as [ref |]; [| exact Hstay].
  destruct (Session.playerId sess) as [[| c s] |]; try exact Hstay.
  destruct (nth_error (Server.store srv) ref) as [room |] eqn:Hroom;
    [| exact Hstay].
  destruct (mapGet (String c s) (Room.players room)) as [player |] eqn:Hp;
    [| exact Hstay].
  destruct (Player.alive player) eqn:Ha; cbn [negb]; [| exact Hstay].
  cbn [fst Server.store].
  apply (storeSet_pointwise
           (fun room room' =>
              entrywise sameLife (Room.players room) (Room.players room'))
           (fun room => Hsame (Room.players room)) _ ref room _ Hroom).
  cbn [Room.players Room.set_players].
  apply (mapSet_entrywise sameLife _ _ sameLife_refl _ player Hp).
  split; [reflexivity |]. cbn. intro H. congruence.
Qed.

Lemma mapGet_mapSet_other {A : Type} (k k0 : string) (v : A)
    (m : list (string * A)) :
  k0 <> k -> mapGet k (mapSet k0 v m) = mapGet k m.
Proof.
  intro Hne. induction m as [| kv m IH]; cbn [mapSet mapGet].
  - cbn. destruct (String.eqb_spec k0 k); [contradiction | reflexivity].
  - destruct (String.eqb_spec (fst kv) k0) as [E0 | N0]; cbn [mapGet fst snd].
    + destruct (String.eqb_spec k0 k); [contradiction |].
      destruct (String.eqb_spec (fst kv) k); [congruence | reflexivity].
    + destruct (String.eqb (fst kv) k); [reflexivity | exact IH].
Qed.

Lemma mapGet_mapDelete_other {A : Type} (k k0 : string)
    (m : list (string * A)) :
  k0 <> k -> mapGet k (mapDelete k0 m) = mapGet k m.
Proof.
  intro Hne. induction m as [| kv m IH]; cbn [mapDelete mapGet].
  - reflexivity.
  - destruct (String.eqb_spec (fst kv) k0) as [E0 | N0]; cbn [mapGet].
    + destruct (String.eqb_spec (fst kv) k); [congruence | reflexivity].
    + destruct (String.eqb (fst kv) k); [reflexivity | exact IH].
Qed.

Lemma entrywise_mapGet (P : Player.t -> Player.t -> Prop) (k : string)
    (ps ps' : list (string * Player.t)) :
  entrywise P ps ps' ->
  forall q, mapGet k ps = Some q ->
            exists q', mapGet k ps' = Some q' /\ P q q'.
Proof.
  induction 1 as [| kp kp' ps ps' [Hk HP] _ IH]; intros q Hget.
  - discriminate Hget.
  - cbn [mapGet] in *. rewrite Hk.
    destruct (String.eqb (fst kp) k).
    + injection Hget as <-. exists (snd kp'). split; [reflexivity | exact HP].
    + exact (IH q Hget).
Qed.

Lemma nth_error_storeSet_same {A : Type} (h : list A) (ref : nat) (a v : A) :
  nth_error h ref = Some a -> nth_error (storeSet ref v h) ref = Some v.
Proof.
  revert ref. induction h as [| x h IH]; intros [| ref] H;
    cbn [storeSet nth_error] in *; try discriminate; auto.
Qed.

Lemma nth_error_storeSet_other {A : Type} (h : list A) (ref i : nat) (v : A) :
  i <> ref -> nth_error (storeSet ref v h) i = nth_error h i.
Proof.
  revert ref i. induction h as [| x h IH]; intros [| ref] [| i] H;
    cbn [storeSet nth_error]; try reflexivity; try contradiction.
  apply IH. congruence.
Qed.

Lemma deadPreserved_refl (except : option string) (room : Room.t) :
  deadPreserved except room room.
Proof.
  intros k q Hget Hd _. exists q. split; [exact Hget | apply frozen_refl, Hd].
Qed.

Lemma deadPreserved_entrywise (except : option string) (room room' : Room.t) :
  entriesRespectDeath (Room.players room) (Room.players room') ->
  deadPreserved except room room'.
Proof.
  intros H k q Hget Hd _.
  destruct (entrywise_mapGet deathRespected k _ _ H q Hget) as (q' & Hq' & HP).
  exists q'. split; [exact Hq' | exact (proj1 HP Hd)].
Qed.

Lemma pointwise_nth_error {A : Type} (P : A -> A -> Prop) (l l' : list A) :
  Forall2 P l l' ->
  forall i a, nth_error l i = Some a ->
              exists a', nth_error l' i = Some a' /\ P a a'.
Proof.
  induction 1 as [| x x' l l' Hx _ IH]; intros [| i] a Hget;
    cbn [nth_error] in *; try discriminate.
  - injection Hget as <-. eauto.
  - exact (IH i a Hget).
Qed.

Lemma mapGet_forEachPlayer (f : Player.t -> Player.t) (k : string)
    (players : list (string * Player.t)) :
  mapGet k (forEachPlayer f players) = option_map f (mapGet k players).
Proof.
  induction players as [| kp players IH]; cbn; [reflexivity |].
  destruct (String.eqb (fst kp) k); [reflexivity | exact IH].
Qed.

Lemma messageSparesDead_same (srv : Server.t) (sess : Session.t)
    (data : Incoming) (rnd : JoinRandom.t) (i : nat) (room : Room.t) :
  joinedRoom srv sess data <> Some i ->
  messageSparesDead srv sess data rnd i room room.
Proof.
  intro H. split; [intros _; apply deadPreserved_refl |].
  split; intro E; contradiction.
Qed.

(** A message. *)
Lemma onMessage_spares_dead (srv : Server.t) (sess : Session.t)
    (data : Incoming) (rnd : JoinRandom.t) (i : nat) (room : Room.t) :
  nth_error (Server.store srv) i = Some room ->
  exists room',
    nth_error (Server.store (fst (fst (onMessage srv sess data rnd)))) i
    = Some room'
    /\ messageSparesDead srv sess data rnd i room room'.
Proof.
  intro Hroom.
  assert (Hstay : joinedRoom srv sess data <> Some i ->
             exists room',
               nth_error (Server.store srv) i = Some room'
               /\ messageSparesDead srv sess data rnd i room room').
  { intro H. exists room.
    split; [exact Hroom | apply messageSparesDead_same, H]. }
  destruct data as [| roomCode0 nickname0 | seq inp |].
  - apply Hstay. discriminate.
  - destruct (Session.currentRoom sess) as [r0 |] eqn:Hcur.
    { unfold onMessage. rewrite Hcur. apply Hstay.
      unfold joinedRoom. rewrite Hcur. discriminate. }
    clear Hstay. unfold messageSparesDead, joinedRoom, onMessage.
    rewrite Hcur. cbv zeta. cbn [fst Server.store].
    set (roomCode := toUpperCase (trim roomCode0)).
    set (found := mapGet roomCode (Server.rooms srv)).
    set (ref := match found with
                | Some ref => ref
                | None => List.length (Server.store srv)
                end).
    set (store0 := match found with
                   | Some _ => Server.store srv
                   | None => Server.store srv ++ [createRoom roomCode]
                   end).
    assert (H0 : nth_error store0 i = Some room).
    { unfold store0. destruct found; [exact Hroom |].
      rewrite nth_error_app1; [exact Hroom |].
      apply nth_error_Some. congruence. }
    destruct (Nat.eq_dec i ref) as [-> | Hne].
    + rewrite (nth_error_nth _ _ (createRoom roomCode) H0).
      eexists. split; [apply (nth_error_storeSet_same _ _ room), H0 |].
      cbn [Room.roundEnded Room.set_players].
      split; [intro H; contradiction H; reflexivity |].
      split; intros _ Hended; rewrite Hended.
      * intros k q Hget Hd Hk.
        exists q. split; [| apply frozen_refl, Hd].
        cbn [Room.players Room.set_players].
        rewrite mapGet_mapSet_other; [exact Hget | congruence].
      * intros k q Hget Hk.
        change (Room.players (resetRoomRound ?r))
          with (forEachPlayer resetPlayer (Room.players r)).
        cbn [Room.players Room.set_players].
        rewrite mapGet_forEachPlayer.
        rewrite mapGet_mapSet_other by congruence.
        rewrite Hget. reflexivity.
    + exists room. split.
      * rewrite nth_error_storeSet_other by exact Hne. exact H0.
      * split; [intros _; apply deadPreserved_refl |].
        split; intro E; congruence.
  - pose proof (input_message_respects_death srv sess seq inp rnd) as H.
    destruct (pointwise_nth_error _ _ _ H i room Hroom) as (room' & Hroom' & He).
    exists room'. split; [exact Hroom' |].
    split; [| split; intro E; discriminate E].
    intros _ k q Hget Hd _.
    destruct (entrywise_mapGet sameLife k _ _ He q Hget) as (q' & Hq' & Hs).
    exists q'. split; [exact Hq' |].
    rewrite (proj2 Hs Hd). apply frozen_refl, Hd.
  - apply Hstay. discriminate.
Qed.

(** The end of a connection. *)
Lemma onClose_spares_dead (srv : Server.t) (sess : Session.t) (i : nat)
    (room : Room.t) :
  nth_error (Server.store srv) i = Some room ->
  exists room',
    nth_error (Server.store (onClose srv sess)) i = Some room'
    /\ (Session.currentRoom sess <> Some i -> deadPreserved None room room')
    /\ (Session.currentRoom sess = Some i ->
        deadPreserved (Session.playerId sess) room room').
Proof.
  intro Hroom.
  assert (Hstay : exists room',
             nth_error (Server.store srv) i = Some room'
             /\ (Session.currentRoom sess <> Some i ->
                 deadPreserved None room room')
             /\ (Session.currentRoom sess = Some i ->
                 deadPreserved (Session.playerId sess) room room')).
  { exists room. split; [exact Hroom |].
    split; intros _; apply deadPreserved_refl. }
  unfold onClose.
  destruct (Session.currentRoom sess) as [ref |]; [| exact Hstay].
  destruct (Session.playerId sess) as [[| c s] |] eqn:Hpid; try exact Hstay.
  destruct (nth_error (Server.store srv) ref) as [r |] eqn:Hr;
    [| exact Hstay].
  cbv zeta.
  assert (Hgoal : exists room',
             nth_error
               (storeSet ref
                  (Room.set_players r
                     (mapDelete (String c s) (Room.players r)))
                  (Server.store srv)) i = Some room'
             /\ (Some ref <> Some i -> deadPreserved None room room')
             /\ (Some ref = Some i ->
                 deadPreserved (Some (String c s)) room room')).
  { destruct (Nat.eq_dec i ref) as [-> | Hne].
    - rewrite Hroom in Hr. injection Hr as <-.
      eexists. split; [apply (nth_error_storeSet_same _ _ room), Hroom |].
      split; [intro H; contradiction H; reflexivity |].
      intros _ k q Hget Hd Hk. exists q. split; [| apply frozen_refl, Hd].
      cbn [Room.players Room.set_players].
      rewrite mapGet_mapDelete_other; [exact Hget | congruence].
    - exists room. split.
      + rewrite nth_error_storeSet_other by exact Hne. exact Hroom.
      + split; [intros _; apply deadPreserved_refl | intro E; congruence]. }
  match goal with
  | |- context [if ?b then _ else _] => destruct b
  end; exact Hgoal.
Qed.

(** C6 (as amended).  Once a player's alive flag is false its velocity is
    zero, and no operation other than a round reset changes its position,
    velocity or hp until it is removed.  Movement integration, collision
    resolution and the damage and domination pass each leave a dead player
    dead with position, velocity and hp unchanged, and none of them leaves
    a player dead with a velocity other than zero; so does the whole tick.
    A message leaves every dead player of every room in its room, frozen,
    with two exceptions, both of them accepted joins into the player's
    own room: a join that draws the player's own id replaces the player,
    and a join into the room after its round has ended resets the round,
    which gives every player who was in the room, dead ones included,
    the state that [resetPlayer] gives it.  A malformed message, a
    message of another type, an input message, a join on a connection
    that has joined already and a join into another room leave all the
    dead of the room frozen.  A connection that closes leaves every dead
    player of every room frozen, but for its own player in its own
    room, which it removes. *)
Theorem dead_players_stay_frozen :
  (forall snap dt p, deathRespected p (movePlayer snap dt p))
  /\ (forall players,
         Forall2 deathRespected players (resolveCollisions players))
  /\ (forall room dt snap p,
         deathRespected p (fst (damagePlayer room dt snap p)))
  /\ (forall room dt rnd,
         entriesRespectDeath (Room.players room)
                             (Room.players (fst (updateRoom room dt rnd))))
  /\ (forall srv sess data rnd i room,
         nth_error (Server.store srv) i = Some room ->
         exists room',
           nth_error (Server.store (fst (fst (onMessage srv sess data rnd)))) i
           = Some room'
           /\ (joinedRoom srv sess data <> Some i ->
               deadPreserved None room room')
           /\ (joinedRoom srv sess data = Some i ->
               Room.roundEnded room = false ->
               deadPreserved (Some (JoinRandom.newId rnd)) room room')
           /\ (joinedRoom srv sess data = Some i ->
               Room.roundEnded room = true ->
               forall k q,
                 mapGet k (Room.players room) = Some q ->
                 k <> JoinRandom.newId rnd ->
                 mapGet k (Room.players room') = Some (resetPlayer q)))
  /\ (forall srv sess i room,
         nth_error (Server.store srv) i = Some room ->
         exists room',
           nth_error (Server.store (onClose srv sess)) i = Some room'
           /\ (Session.currentRoom sess <> Some i ->
               deadPreserved None room room')
           /\ (Session.currentRoom sess = Some i ->
               deadPreserved (Session.playerId sess) room room')).
Proof.
  split; [intros snap dt p; apply movePlayer_respects |].
  split; [exact resolveCollisions_respects |].
  split; [intros room dt snap p; apply damagePlayer_respects |].
  split; [exact updateRoom_respects |].
  split; [exact onMessage_spares_dead | exact onClose_spares_dead].
Qed.

(** C6 (as stated) fails: a round reset is an operation that changes the
    health of a dead player that stays in the room.  Player B of the ended
    room is dead with hp 0; when a third connection joins the room, B is
    still in the room, with hp 100 and alive. *)
Lemma rejoin_revives_the_dead :
  mapGet "B" (Room.players (nth 0 (Server.store endedServer) (createRoom "")))
    = Some deadB
  /\ Player.alive deadB = false
  /\ Player.hp deadB = 0
  /\ mapGet "B" (Room.players
                   (nth 0 (Server.store (fst (fst afterRejoin)))
                        (createRoom "")))
     = Some (resetPlayer deadB)
  /\ Player.hp (resetPlayer deadB) = 100
  /\ ~ frozen deadB (resetPlayer deadB).
Proof.
  split; [reflexivity |]. split; [reflexivity |]. split; [reflexivity |].
  split; [reflexivity |]. split; [reflexivity |].
  unfold frozen. cbn. intros (_ & _ & _ & _ & _ & H). lra.
Qed.

(** ** Positions and the arena *)

(** Movement integration ends with the clamp. *)
Lemma integrate_inArena (p : Player.t) (dt : R) : inArena (integrate p dt).
Proof.
  assert (Hclamp : forall hi v, PLAYER_RADIUS <= hi ->
             PLAYER_RADIUS <= Rmax PLAYER_RADIUS (Rmin hi v) <= hi).
  { intros hi v Hhi. split; [apply Rmax_l |].
    apply Rmax_lub; [exact Hhi | apply Rmin_l]. }
  unfold inArena, integrate. cbv zeta. cbn [Player.x Player.y Player.set_pos].
  split; apply Hclamp; unfold PLAYER_RADIUS; cbn; lra.
Qed.

Lemma applyInput_inArena (p : Player.t) (dt m : R) :
  Player.alive p = true -> inArena (applyInput p dt m).
Proof.
  intro Ha. unfold applyInput. rewrite Ha. cbn [negb]. cbv zeta.
  apply integrate_inArena.
Qed.

Lemma movePlayer_inArena (snap : Snap.t) (dt : R) (p : Player.t) :
  Player.alive p = true -> inArena (movePlayer snap dt p).
Proof.
  intro Ha. unfold movePlayer. cbv zeta. apply applyInput_inArena. exact Ha.
Qed.

(** C2 (as amended).  After the movement-integration step of a tick the
    position of every alive player lies within
    [[playerRadius, worldWidth - playerRadius] x
     [playerRadius, worldHeight - playerRadius]]. *)
Theorem movement_keeps_alive_players_in_arena (room : Room.t) (dt : R)
    (kp : string * Player.t) :
  In kp (Room.players (movePhase room dt)) ->
  Player.alive (snd kp) = true ->
  inArena (snd kp).
Proof.
  unfold movePhase. cbv zeta. cbn [Room.players Room.set_players].
  unfold forEachPlayer. intros Hin Ha.
  apply in_map_iff in Hin. destruct Hin as (kp0 & <- & _).
  cbn [snd] in *. apply movePlayer_inArena.
  rewrite movePlayer_alive in Ha. exact Ha.
Qed.

Lemma movement_keeps_alive_players_in_arena_witness :
  inArena (movePlayer (getCircleSnapshot (Room.circle runnerRoom))
                      (1 / TICK_RATE) runner).
Proof.
  apply (movement_keeps_alive_players_in_arena runnerRoom (1 / TICK_RATE)
           ("A"%string,
            movePlayer (getCircleSnapshot (Room.circle runnerRoom))
                       (1 / TICK_RATE) runner)).
  - left. reflexivity.
  - cbn [snd]. rewrite movePlayer_alive. reflexivity.
Defined.

(** A player that stands still inside the arena and gives no input is not
    moved by the integration. *)
Lemma applyInput_idle (p : Player.t) (dt m : R) :
  Player.alive p = true -> Player.input p = emptyInput ->
  Player.vx p = 0 -> Player.vy p = 0 ->
  inArena p ->
  applyInput p dt m = p.
Proof.
  destruct p as [id nick ws inp x y vx vy ld dc hp al dm].
  unfold inArena. cbn.
  intros -> -> -> -> [Hx Hy].
  unfold applyInput, steer, dashImpulse, dampAndCap, integrate.
  cbn [Player.alive negb Player.input emptyInput PlayerInput.right
       PlayerInput.left PlayerInput.up PlayerInput.down PlayerInput.dash
       b2r andb].
  replace (0 - 0) with 0 by ring.
  rewrite normalize_0. cbn [Vec.x Vec.y].
  rewrite (Reqb_true 0 0) by reflexivity.
  cbn [Vec.x Vec.y negb orb Player.set_vel Player.vx Player.vy Player.id
       Player.nickname Player.ws Player.input Player.x Player.y
       Player.lastDir Player.dashCooldown Player.hp Player.alive
       Player.dominationTime PlayerInput.dash emptyInput andb].
  replace (0 + 0 * ACCEL * m * dt) with 0 by ring.
  replace (0 * exp (- DAMPING * dt)) with 0 by ring.
  rewrite clampMagnitude_0.
  cbn [fst snd Player.set_pos Player.set_vel Player.vx Player.vy Player.id
       Player.nickname Player.ws Player.input Player.x Player.y
       Player.lastDir Player.dashCooldown Player.hp Player.alive
       Player.dominationTime].
  replace (x + 0 * dt) with x by ring.
  replace (y + 0 * dt) with y by ring.
  unfold PLAYER_RADIUS in *.
  cbn [WorldConfig.width WorldConfig.height WORLD] in *.
  rewrite (Rmin_right _ x) by lra.
  rewrite (Rmin_right _ y) by lra.
  rewrite (Rmax_right _ x) by lra.
  rewrite (Rmax_right _ y) by lra.
  reflexivity.
Qed.

Lemma movePlayer_idle (snap : Snap.t) (dt : R) (p : Player.t) :
  Player.alive p = true -> Player.input p = emptyInput ->
  Player.vx p = 0 -> Player.vy p = 0 ->
  inArena p ->
  movePlayer snap dt p
  = Player.set_dashCooldown p (Rmax 0 (Player.dashCooldown p - dt)).
Proof.
  intros Ha Hi Hvx Hvy Hin. unfold movePlayer. cbv zeta.
  apply applyInput_idle; assumption.
Qed.


(** [b] overlaps [a] from the right: [a] is pushed left and [b] right, by
    half the overlap each. *)
Lemma collidePair_right (a b : Player.t) :
  Player.alive b = true ->
  Player.y b = Player.y a ->
  0 < Player.x b - Player.x a < PLAYER_RADIUS * 2 ->
  let r := collidePair a b in
  Player.x (fst r)
    = Player.x a - (PLAYER_RADIUS * 2 - (Player.x b - Player.x a)) * 0.5
  /\ Player.x (snd r)
     = Player.x b + (PLAYER_RADIUS * 2 - (Player.x b - Player.x a)) * 0.5
  /\ Player.y (fst r) = Player.y a /\ Player.y (snd r) = Player.y b
  /\ Player.alive (fst r) = Player.alive a /\ Player.alive (snd r) = true.
Proof.
  intros Hb Hy Hd. unfold collidePair. rewrite Hb. cbn [negb]. cbv zeta.
  rewrite Hy. replace (Player.y a - Player.y a) with 0 by ring.
  rewrite hypot_flat. rewrite Rabs_pos_eq by lra.
  rewrite Reqb_false by lra. unfold Rgeb. rewrite Rleb_false by lra.
  cbn [orb fst snd Player.x Player.y Player.alive Player.set_pos
       Player.set_vel].
  repeat split; try assumption; field; lra.
Qed.


(** The pass over two and over three players, pair by pair. *)
Lemma resolveCollisions_two (a b : Player.t) :
  Player.alive a = true ->
  resolveCollisions [a; b]
  = [fst (collidePair a b); snd (collidePair a b)].
Proof.
  intro Ha. unfold resolveCollisions.
  cbn [List.length collideFrom collideWithRest fst snd].
  rewrite Ha. cbn [negb].
  destruct (negb (Player.alive (snd (collidePair a b)))); reflexivity.
Qed.


Lemma damagePlayer_position (room : Room.t) (dt : R) (snap : Snap.t)
    (p : Player.t) :
  Player.x (fst (damagePlayer room dt snap p)) = Player.x p
  /\ Player.y (fst (damagePlayer room dt snap p)) = Player.y p.
Proof.
  unfold damagePlayer. cbv zeta. split_ifs; cbn; split; reflexivity.
Qed.

Lemma damageLoop_positions (room : Room.t) (dt : R) (snap : Snap.t)
    (players : list (string * Player.t)) :
  map posOf (fst (damageLoop room dt snap players)) = map posOf players.
Proof.
  induction players as [| kp players IH]; cbn [damageLoop fst map].
  - reflexivity.
  - rewrite IH. f_equal. unfold posOf. cbn [fst snd].
    destruct (damagePlayer_position room dt snap (snd kp)) as [-> ->].
    reflexivity.
Qed.

Lemma damagePhase_positions (room : Room.t) (dt : R) :
  map posOf (Room.players (fst (damagePhase room dt)))
  = map posOf (Room.players room).
Proof.
  unfold damagePhase. cbv zeta. cbn [fst Room.players Room.set_players].
  apply damageLoop_positions.
Qed.

(** The positions a tick of an active room leaves behind are those the
    collision resolution leaves behind. *)
Lemma updateRoom_positions (room : Room.t) (dt : R) (rnd : TickRandom.t) :
  Room.roundEnded room = false ->
  map posOf (Room.players (fst (updateRoom room dt rnd)))
  = map posOf
      (Room.players (collidePhase (movePhase (advancePhase room dt rnd) dt))).
Proof.
  intro Hact. unfold updateRoom. rewrite Hact. cbv zeta. cbn [fst].
  rewrite checkRoundEnd_players, eventsPhase_players.
  apply damagePhase_positions.
Qed.

(** C2 (as stated) fails: collision resolution moves players after the
    clamp and does not clamp again.  Two alive players stand still at
    (18, 100) and (30, 100), inside the arena; after one tick the first is
    at x = 6, less than the player radius. *)
Lemma collision_pushes_player_out_of_arena :
  Forall (fun kp => inArena (snd kp) /\ Player.alive (snd kp) = true)
         (Room.players wallRoom)
  /\ map posOf
       (Room.players (fst (updateRoom wallRoom (1 / TICK_RATE) calmDraw)))
     = [("A"%string, 6, 100); ("B"%string, 42, 100)]
  /\ 6 < PLAYER_RADIUS.
Proof.
  split; [| split].
  - unfold inArena, PLAYER_RADIUS. cbn.
    repeat constructor; cbn; lra.
  - rewrite updateRoom_positions by reflexivity.
    unfold collidePhase, movePhase. cbv zeta.
    cbn [Room.players Room.set_players].
    rewrite advancePhase_players.
    set (snap := getCircleSnapshot _).
    cbn [wallRoom withPlayers Room.players Room.set_players map
         forEachPlayer fst snd].
    rewrite !movePlayer_idle;
      try reflexivity;
      try (unfold inArena, PLAYER_RADIUS; cbn; lra).
    set (a := Player.set_dashCooldown (spawn "A" 1 18 100) _).
    set (b := Player.set_dashCooldown (spawn "B" 2 30 100) _).
    rewrite (resolveCollisions_two a b) by reflexivity.
    destruct (collidePair_right a b) as (Hxa & Hxb & Hya & Hyb & _).
    + reflexivity.
    + reflexivity.
    + unfold PLAYER_RADIUS. cbn. lra.
    + cbn [combine map]. unfold posOf. cbn [fst snd].
      rewrite Hxa, Hxb, Hya, Hyb. unfold PLAYER_RADIUS. cbn.
      repeat f_equal; lra.
  - unfold PLAYER_RADIUS. lra.
Qed.

(** ** Distances across a collision pass *)

Lemma distance_flat (p q : Player.t) :
  Player.y q = Player.y p -> distance p q = Rabs (Player.x q - Player.x p).
Proof.
  intro Hy. unfold distance. rewrite Hy.
  replace (Player.y p - Player.y p) with 0 by ring. apply hypot_flat.
Qed.



Lemma collidePair_apart_any (a b : Player.t) :
  Player.alive a = true -> apart a b -> collidePair a b = (a, b).
Proof.
  intros Ha [H | [H | [H | H]]]; unfold collidePair.
  - congruence.
  - rewrite H. reflexivity.
  - destruct (negb (Player.alive b)); [reflexivity |]. cbv zeta.
    fold (distance a b). rewrite H.
    rewrite (Reqb_true 0 0) by reflexivity. reflexivity.
  - destruct (negb (Player.alive b)); [reflexivity |]. cbv zeta.
    fold (distance a b). unfold Rgeb. rewrite (Rleb_true _ _ H).
    rewrite orb_true_r. reflexivity.
Qed.

Lemma collideWithRest_apart (rest : list Player.t) (a : Player.t) :
  Player.alive a = true ->
  Forall (apart a) rest -> collideWithRest a rest = (a, rest).
Proof.
  intros Ha H. induction H as [| b rest Hb _ IH]; cbn [collideWithRest].
  - reflexivity.
  - rewrite (collidePair_apart_any a b Ha Hb). cbn [fst snd].
    rewrite IH. reflexivity.
Qed.

Lemma collideFrom_apart (players : list Player.t) :
  ForallOrdPairs apart players ->
  forall n, collideFrom n players = players.
Proof.
  induction 1 as [| a rest Ha _ IH]; intros [| n]; cbn [collideFrom];
    try reflexivity.
  destruct (Player.alive a) eqn:Hal; cbn [negb].
  - rewrite (collideWithRest_apart rest a Hal Ha). cbn [fst snd].
    rewrite IH. reflexivity.
  - rewrite IH. reflexivity.
Qed.







(** * Further properties of the server *)

(** ** Lengths *)

Lemma hypot_nonneg (a b : R) : 0 <= hypot a b.
Proof. unfold hypot. apply sqrt_pos. Qed.

Lemma hypot_sqr (a b : R) : hypot a b * hypot a b = a * a + b * b.
Proof. unfold hypot. apply sqrt_sqrt. nra. Qed.

Lemma hypot_eq_0 (a b : R) : hypot a b = 0 -> a = 0 /\ b = 0.
Proof.
  intro H. pose proof (hypot_sqr a b) as Hs. rewrite H in Hs.
  split; nra.
Qed.

Lemma hypot_scale (a b k : R) : 0 <= k -> hypot (a * k) (b * k) = hypot a b * k.
Proof.
  intro Hk. unfold hypot at 1. apply sqrt_lem_1.
  - nra.
  - apply Rmult_le_pos; [apply hypot_nonneg | exact Hk].
  - pose proof (hypot_sqr a b) as Hs. nra.
Qed.

(** X1.  [normalize] of a vector other than zero has length one. *)
Theorem normalize_unit (x y : R) :
  x <> 0 \/ y <> 0 ->
  hypot (Vec.x (normalize x y)) (Vec.y (normalize x y)) = 1.
Proof.
  intro Hnz. unfold normalize.
  assert (Hlen : hypot x y <> 0).
  { intro H0. apply hypot_eq_0 in H0. tauto. }
  rewrite Reqb_false by exact Hlen. cbn [Vec.x Vec.y].
  unfold Rdiv. rewrite hypot_scale.
  - field. exact Hlen.
  - apply Rlt_le, Rinv_0_lt_compat.
    pose proof (hypot_nonneg x y). lra.
Qed.

Lemma normalize_unit_witness :
  hypot (Vec.x (normalize 3 4)) (Vec.y (normalize 3 4)) = 1.
Proof. apply (normalize_unit 3 4). left. lra. Defined.

Lemma clampMagnitude_hypot (vx vy max : R) :
  0 <= max ->
  hypot (fst (clampMagnitude vx vy max)) (snd (clampMagnitude vx vy max))
  = Rmin (hypot vx vy) max.
Proof.
  intro Hmax. unfold clampMagnitude.
  destruct (Rleb_spec (hypot vx vy) max) as [Hle | Hgt]; cbn [fst snd].
  - rewrite Rmin_left by exact Hle. reflexivity.
  - apply Rnot_le_lt in Hgt. rewrite Rmin_right by lra.
    rewrite hypot_scale.
    + field. lra.
    + apply Rmult_le_pos; [exact Hmax |].
      apply Rlt_le, Rinv_0_lt_compat. lra.
Qed.

(** X2.  In exact arithmetic, [clampMagnitude] with a bound that is not
    negative returns a vector whose length is the smaller of the length
    it was given and the bound; a vector within the bound is returned as
    it is (this part is a comparison and holds as it stands). *)
Theorem clampMagnitude_length (vx vy max : R) :
  0 <= max ->
  hypot (fst (clampMagnitude vx vy max)) (snd (clampMagnitude vx vy max))
  = Rmin (hypot vx vy) max
  /\ (hypot vx vy <= max -> clampMagnitude vx vy max = (vx, vy)).
Proof.
  intro Hmax. split; [apply clampMagnitude_hypot; exact Hmax |].
  intro Hle. unfold clampMagnitude. rewrite (Rleb_true _ _ Hle). reflexivity.
Qed.

Lemma clampMagnitude_length_witness :
  hypot (fst (clampMagnitude 600 800 MAX_SPEED))
        (snd (clampMagnitude 600 800 MAX_SPEED))
  = Rmin (hypot 600 800) MAX_SPEED
  /\ (hypot 600 800 <= MAX_SPEED ->
      clampMagnitude 600 800 MAX_SPEED = (600, 800)).
Proof. apply (clampMagnitude_length 600 800 MAX_SPEED). unfold MAX_SPEED. lra. Defined.

(** ** Speed, damping and the dash *)

Lemma dampAndCap_speed (p : Player.t) (dt : R) :
  speed (dampAndCap p dt)
  = Rmin (speed p * exp (- DAMPING * dt)) MAX_SPEED.
Proof.
  unfold speed, dampAndCap. cbv zeta.
  cbn [Player.vx Player.vy Player.set_vel].
  rewrite clampMagnitude_hypot by (unfold MAX_SPEED; lra).
  rewrite hypot_scale by (apply Rlt_le, exp_pos). reflexivity.
Qed.

Lemma integrate_speed (p : Player.t) (dt : R) :
  speed (integrate p dt) = speed p.
Proof. reflexivity. Qed.

(** X3.  In exact arithmetic, the speed of an alive player after the
    movement integration is at most [MAX_SPEED]; floating-point numbers
    meet the cap up to the rounding of the scaling in [clampMagnitude]. *)
Theorem applyInput_caps_speed (p : Player.t) (dt m : R) :
  Player.alive p = true ->
  speed (applyInput p dt m) <= MAX_SPEED.
Proof.
  intro Ha. unfold applyInput. rewrite Ha. cbn [negb]. cbv zeta.
  rewrite integrate_speed, dampAndCap_speed. apply Rmin_r.
Qed.

Lemma applyInput_caps_speed_witness :
  speed (applyInput
           (Player.set_vel runner 9000 0) (1 / TICK_RATE) 1) <= MAX_SPEED.
Proof.
  apply (applyInput_caps_speed (Player.set_vel runner 9000 0)
           (1 / TICK_RATE) 1).
  reflexivity.
Defined.

Lemma steer_no_direction (p : Player.t) (dt m : R) :
  PlayerInput.right (Player.input p) = PlayerInput.left (Player.input p) ->
  PlayerInput.down (Player.input p) = PlayerInput.up (Player.input p) ->
  steer p dt m = p.
Proof.
  intros Hx Hy. unfold steer. cbv zeta. rewrite Hx, Hy.
  replace (b2r (PlayerInput.left (Player.input p))
           - b2r (PlayerInput.left (Player.input p))) with 0 by ring.
  replace (b2r (PlayerInput.up (Player.input p))
           - b2r (PlayerInput.up (Player.input p))) with 0 by ring.
  rewrite normalize_0. cbn [Vec.x Vec.y].
  rewrite (Reqb_true 0 0) by reflexivity. cbn [negb orb].
  destruct p. unfold Player.set_vel. cbn. f_equal; ring.
Qed.

(** X4.  In exact arithmetic, an alive player who moves, presses no
    direction (or opposite directions) and does not dash is slowed down by
    every integration step of positive length: its speed is multiplied by
    [exp (- DAMPING * dt)], which is less than 1, and capped at
    [MAX_SPEED].  Floating-point numbers follow until the speed is
    negligible: the smallest positive speed is not reduced any further. *)
Theorem damping_slows (p : Player.t) (dt m : R) :
  Player.alive p = true ->
  PlayerInput.right (Player.input p) = PlayerInput.left (Player.input p) ->
  PlayerInput.down (Player.input p) = PlayerInput.up (Player.input p) ->
  PlayerInput.dash (Player.input p) = false ->
  0 < dt ->
  0 < speed p ->
  speed (applyInput p dt m)
  = Rmin (speed p * exp (- DAMPING * dt)) MAX_SPEED
  /\ speed (applyInput p dt m) < speed p.
Proof.
  intros Ha Hx Hy Hdash Hdt Hv.
  unfold applyInput. rewrite Ha. cbn [negb]. cbv zeta.
  rewrite (steer_no_direction p dt m Hx Hy).
  assert (Hd : dashImpulse p = p).
  { unfold dashImpulse. cbv zeta. rewrite Hdash. reflexivity. }
  rewrite Hd.
  rewrite integrate_speed, dampAndCap_speed.
  split; [reflexivity |].
  assert (He : exp (- DAMPING * dt) < 1).
  { rewrite <- exp_0. apply exp_increasing. unfold DAMPING. lra. }
  apply Rle_lt_trans with (speed p * exp (- DAMPING * dt)); [apply Rmin_l |].
  pose proof (exp_pos (- DAMPING * dt)). nra.
Qed.

Lemma damping_slows_witness :
  speed (applyInput (Player.set_vel (spawn "A" 1 600 400) 3 4)
                    (1 / TICK_RATE) 1)
  = Rmin (speed (Player.set_vel (spawn "A" 1 600 400) 3 4)
          * exp (- DAMPING * (1 / TICK_RATE))) MAX_SPEED
  /\ speed (applyInput (Player.set_vel (spawn "A" 1 600 400) 3 4)
                       (1 / TICK_RATE) 1)
     < speed (Player.set_vel (spawn "A" 1 600 400) 3 4).
Proof.
  apply (damping_slows (Player.set_vel (spawn "A" 1 600 400) 3 4)
           (1 / TICK_RATE) 1); try reflexivity.
  - unfold TICK_RATE. lra.
  - unfold speed. cbn. rewrite hypot_3_4. lra.
Defined.

Lemma steer_input (p : Player.t) (dt m : R) :
  Player.input (steer p dt m) = Player.input p
  /\ Player.dashCooldown (steer p dt m) = Player.dashCooldown p.
Proof. unfold steer. cbv zeta. split_ifs; split; reflexivity. Qed.

Lemma dashImpulse_cooling (p : Player.t) :
  0 < Player.dashCooldown p -> dashImpulse p = p.
Proof.
  intro H. unfold dashImpulse. cbv zeta.
  rewrite Rleb_false by exact H. rewrite andb_false_r. reflexivity.
Qed.

Lemma steer_without_dash (p : Player.t) (dt m : R) :
  steer (Player.set_input p (withoutDash (Player.input p))) dt m
  = Player.set_input (steer p dt m) (withoutDash (Player.input p)).
Proof.
  unfold steer. cbv zeta.
  cbn [Player.input Player.set_input withoutDash PlayerInput.up
       PlayerInput.down PlayerInput.left PlayerInput.right].
  split_ifs; reflexivity.
Qed.

Lemma dampAndCap_set_input (p : Player.t) (i : PlayerInput.t) (dt : R) :
  dampAndCap (Player.set_input p i) dt = Player.set_input (dampAndCap p dt) i.
Proof. reflexivity. Qed.

Lemma integrate_set_input (p : Player.t) (i : PlayerInput.t) (dt : R) :
  integrate (Player.set_input p i) dt = Player.set_input (integrate p dt) i.
Proof. reflexivity. Qed.

Lemma physics_keeps_input (p : Player.t) (dt : R) :
  Player.input (integrate (dampAndCap p dt) dt) = Player.input p
  /\ Player.dashCooldown (integrate (dampAndCap p dt) dt)
     = Player.dashCooldown p.
Proof. split; reflexivity. Qed.

Lemma set_input_back (p : Player.t) (i' i : PlayerInput.t) :
  Player.input p = i -> Player.set_input (Player.set_input p i') i = p.
Proof. destruct p. cbn. intros <-. reflexivity. Qed.

Lemma applyInput_ignores_dash (p : Player.t) (dt m : R) :
  0 < Player.dashCooldown p ->
  applyInput p dt m
  = Player.set_input
      (applyInput (Player.set_input p (withoutDash (Player.input p))) dt m)
      (Player.input p).
Proof.
  intro Hcd. unfold applyInput.
  change (Player.alive (Player.set_input p (withoutDash (Player.input p))))
    with (Player.alive p).
  destruct (Player.alive p); cbn [negb].
  - cbv zeta. rewrite steer_without_dash.
    rewrite (dashImpulse_cooling (steer p dt m))
      by (rewrite (proj2 (steer_input _ _ _)); exact Hcd).
    rewrite (dashImpulse_cooling (Player.set_input (steer p dt m) _))
      by (cbn [Player.dashCooldown Player.set_input];
          rewrite (proj2 (steer_input _ _ _)); exact Hcd).
    rewrite dampAndCap_set_input, integrate_set_input.
    symmetry. apply set_input_back.
    rewrite (proj1 (physics_keeps_input _ dt)).
    apply (proj1 (steer_input p dt m)).
  - symmetry. apply set_input_back. reflexivity.
Qed.

(** While the cooldown outlasts the step, the dash flag of the input makes
    no difference to the movement of a player. *)
Lemma movePlayer_ignores_dash (snap : Snap.t) (dt : R) (p : Player.t) :
  dt < Player.dashCooldown p ->
  movePlayer snap dt p
  = Player.set_input
      (movePlayer snap dt
         (Player.set_input p (withoutDash (Player.input p))))
      (Player.input p)
  /\ Player.dashCooldown (movePlayer snap dt p) = Player.dashCooldown p - dt.
Proof.
  intro Hcd.
  set (c := Rmax 0 (Player.dashCooldown p - dt)).
  assert (Hc : c = Player.dashCooldown p - dt)
    by (unfold c; apply Rmax_right; lra).
  set (P := Player.set_dashCooldown p c).
  assert (HP : 0 < Player.dashCooldown P) by (cbn; lra).
  split.
  - unfold movePlayer. cbv zeta. fold c. fold P.
    exact (applyInput_ignores_dash P dt _ HP).
  - unfold movePlayer. cbv zeta. fold c. fold P.
    rewrite (applyInput_ignores_dash P dt _ HP).
    cbn [Player.dashCooldown Player.set_input].
    unfold applyInput.
    destruct (negb (Player.alive
                      (Player.set_input P (withoutDash (Player.input P))))).
    + cbn. exact Hc.
    + cbv zeta. rewrite (proj2 (physics_keeps_input _ dt)).
      rewrite dashImpulse_cooling
        by (rewrite (proj2 (steer_input _ _ _)); cbn; lra).
      rewrite (proj2 (steer_input _ _ _)). cbn. exact Hc.
Qed.

Lemma steer_set_dashCooldown (p : Player.t) (c dt m : R) :
  steer (Player.set_dashCooldown p c) dt m
  = Player.set_dashCooldown (steer p dt m) c.
Proof.
  unfold steer. cbv zeta.
  cbn [Player.input Player.set_dashCooldown Player.vx Player.vy].
  split_ifs; reflexivity.
Qed.

(** X5.  A dash fires once.  When an alive player presses dash and the
    cooldown runs out within the step, the dash adds [DASH_SPEED] times
    the direction last steered in to the steered velocity, before damping
    and the speed cap, and the step ends with the cooldown at
    [DASH_COOLDOWN]; the next step, if shorter than the cooldown, moves
    the player as if dash were not pressed and only counts the cooldown
    down. *)
Theorem dash_fires_once (snap snap' : Snap.t) (dt dt' : R) (p : Player.t) :
  Player.alive p = true ->
  PlayerInput.dash (Player.input p) = true ->
  Player.dashCooldown p <= dt ->
  dt' < DASH_COOLDOWN ->
  let q := movePlayer snap dt p in
  let s := steer p dt (if isOutside p snap then OUTSIDE_SPEED_MULT else 1) in
  (Player.vx q, Player.vy q)
  = clampMagnitude
      ((Player.vx s + Vec.x (Player.lastDir s) * DASH_SPEED)
       * exp (- DAMPING * dt))
      ((Player.vy s + Vec.y (Player.lastDir s) * DASH_SPEED)
       * exp (- DAMPING * dt))
      MAX_SPEED
  /\ Player.dashCooldown q = DASH_COOLDOWN
  /\ movePlayer snap' dt' q
     = Player.set_input
         (movePlayer snap' dt'
            (Player.set_input q (withoutDash (Player.input q))))
         (Player.input q)
  /\ Player.dashCooldown (movePlayer snap' dt' q) = DASH_COOLDOWN - dt'.
Proof.
  intros Ha Hdash Hcd Hdt' q s.
  set (m := if isOutside p snap then OUTSIDE_SPEED_MULT else 1) in *.
  set (p0 := Player.set_dashCooldown p (Rmax 0 (Player.dashCooldown p - dt))).
  assert (Hfire : dashImpulse (steer p0 dt m)
                  = Player.set_dashCooldown
                      (Player.set_vel (steer p0 dt m)
                         (Player.vx (steer p0 dt m)
                          + Vec.x (Player.lastDir (steer p0 dt m)) * DASH_SPEED)
                         (Player.vy (steer p0 dt m)
                          + Vec.y (Player.lastDir (steer p0 dt m)) * DASH_SPEED))
                      DASH_COOLDOWN).
  { unfold dashImpulse. cbv zeta.
    rewrite (proj1 (steer_input _ _ _)), (proj2 (steer_input _ _ _)).
    unfold p0. cbn [Player.dashCooldown Player.input Player.set_dashCooldown].
    rewrite Hdash.
    rewrite (Rmax_left 0 (Player.dashCooldown p - dt)) by lra.
    rewrite (Rleb_true 0 0) by lra. reflexivity. }
  assert (Hq0 : q = integrate (dampAndCap (dashImpulse (steer p0 dt m)) dt) dt).
  { unfold q, movePlayer. cbv zeta. fold p0.
    change (isOutside p0 snap) with (isOutside p snap). fold m.
    unfold applyInput. change (Player.alive p0) with (Player.alive p).
    rewrite Ha. reflexivity. }
  assert (Hs : Player.vx (steer p0 dt m) = Player.vx s
               /\ Player.vy (steer p0 dt m) = Player.vy s
               /\ Player.lastDir (steer p0 dt m) = Player.lastDir s).
  { unfold s, p0. rewrite steer_set_dashCooldown. repeat split. }
  assert (Hq : Player.dashCooldown q = DASH_COOLDOWN).
  { rewrite Hq0, (proj2 (physics_keeps_input _ dt)), Hfire. reflexivity. }
  split.
  { rewrite Hq0, Hfire.
    destruct Hs as (Hx & Hy & Hl). rewrite Hx, Hy, Hl.
    unfold integrate, dampAndCap. cbv zeta.
    cbn [Player.vx Player.vy Player.set_vel Player.set_pos
         Player.set_dashCooldown].
    symmetry. apply surjective_pairing. }
  split; [exact Hq |].
  rewrite <- Hq in Hdt' |- *.
  exact (movePlayer_ignores_dash snap' dt' q Hdt').
Qed.

Lemma dash_fires_once_witness :
  let p := Player.set_input (spawn "A" 1 600 400)
             (PlayerInput.mk false false false false true) in
  let snap := getCircleSnapshot freshCircle in
  let q := movePlayer snap (1 / TICK_RATE) p in
  let s := steer p (1 / TICK_RATE)
                 (if isOutside p snap then OUTSIDE_SPEED_MULT else 1) in
  (Player.vx q, Player.vy q)
  = clampMagnitude
      ((Player.vx s + Vec.x (Player.lastDir s) * DASH_SPEED)
       * exp (- DAMPING * (1 / TICK_RATE)))
      ((Player.vy s + Vec.y (Player.lastDir s) * DASH_SPEED)
       * exp (- DAMPING * (1 / TICK_RATE)))
      MAX_SPEED
  /\ Player.dashCooldown q = DASH_COOLDOWN
  /\ movePlayer snap (1 / TICK_RATE) q
     = Player.set_input
         (movePlayer snap (1 / TICK_RATE)
            (Player.set_input q (withoutDash (Player.input q))))
         (Player.input q)
  /\ Player.dashCooldown (movePlayer snap (1 / TICK_RATE) q)
     = DASH_COOLDOWN - 1 / TICK_RATE.
Proof.
  intros p snap.
  apply (dash_fires_once snap snap (1 / TICK_RATE) (1 / TICK_RATE) p).
  - reflexivity.
  - reflexivity.
  - cbn. unfold TICK_RATE. lra.
  - unfold DASH_COOLDOWN, TICK_RATE. lra.
Defined.

(** ** What a collision pass conserves *)

Lemma collidePair_total (a b : Player.t) :
  Player.x (fst (collidePair a b)) + Player.x (snd (collidePair a b))
  = Player.x a + Player.x b
  /\ Player.y (fst (collidePair a b)) + Player.y (snd (collidePair a b))
     = Player.y a + Player.y b
  /\ Player.vx (fst (collidePair a b)) + Player.vx (snd (collidePair a b))
     = Player.vx a + Player.vx b
  /\ Player.vy (fst (collidePair a b)) + Player.vy (snd (collidePair a b))
     = Player.vy a + Player.vy b.
Proof.
  unfold collidePair. cbv zeta.
  split_ifs; cbn [fst snd Player.x Player.y Player.vx Player.vy
                  Player.set_pos Player.set_vel];
    repeat split; lra.
Qed.

Section Conserved.
Variable f : Player.t -> R.
Hypothesis f_pair :
  forall a b, f (fst (collidePair a b)) + f (snd (collidePair a b))
              = f a + f b.

Lemma collideWithRest_total (rest : list Player.t) :
  forall a : Player.t,
    f (fst (collideWithRest a rest)) + total f (snd (collideWithRest a rest))
    = f a + total f rest.
Proof.
  induction rest as [| b rest IH]; intro a;
    cbn [collideWithRest fst snd total fold_right].
  - reflexivity.
  - fold (total f rest). fold (total f (snd (collideWithRest (fst (collidePair a b)) rest))).
    pose proof (IH (fst (collidePair a b))) as H1.
    pose proof (f_pair a b) as H2. lra.
Qed.

Lemma collideFrom_total (n : nat) :
  forall players : list Player.t,
    total f (collideFrom n players) = total f players.
Proof.
  induction n as [| n IH]; intro players; [reflexivity |].
  destruct players as [| a rest]; cbn [collideFrom]; [reflexivity |].
  destruct (negb (Player.alive a)); cbn [total fold_right].
  - fold (total f rest). fold (total f (collideFrom n rest)).
    rewrite IH. reflexivity.
  - fold (total f rest).
    fold (total f (collideFrom n (snd (collideWithRest a rest)))).
    rewrite IH. apply collideWithRest_total.
Qed.
End Conserved.

(** X6.  A collision pass moves the players of every pair by opposite
    amounts and pushes them by opposite impulses: in exact arithmetic the
    sums of the positions and of the velocities over all players are the
    same before and after the pass. *)
Theorem resolveCollisions_conserves (players : list Player.t) :
  total Player.x (resolveCollisions players) = total Player.x players
  /\ total Player.y (resolveCollisions players) = total Player.y players
  /\ total Player.vx (resolveCollisions players) = total Player.vx players
  /\ total Player.vy (resolveCollisions players) = total Player.vy players.
Proof.
  unfold resolveCollisions.
  repeat split; apply collideFrom_total; intros a b;
    apply (collidePair_total a b).
Qed.

(** ** Pairs that a pass leaves alone *)

(** X7.  A collision pass changes nothing when every two players are
    apart: for each pair, one is dead, or the centres coincide (no normal
    is defined, the pair is skipped), or the centres are at least two
    radii from each other. *)
Theorem resolveCollisions_apart (players : list Player.t) :
  ForallOrdPairs apart players ->
  resolveCollisions players = players.
Proof. intro H. apply collideFrom_apart. exact H. Qed.

Lemma resolveCollisions_apart_witness :
  resolveCollisions
    [spawn "A" 1 100 100; spawn "B" 2 100 100; deadB; spawn "C" 3 136 100]
  = [spawn "A" 1 100 100; spawn "B" 2 100 100; deadB; spawn "C" 3 136 100].
Proof.
  apply (resolveCollisions_apart
           [spawn "A" 1 100 100; spawn "B" 2 100 100; deadB;
            spawn "C" 3 136 100]).
  assert (Hsame : distance (spawn "A" 1 100 100) (spawn "B" 2 100 100) = 0).
  { rewrite distance_flat by reflexivity. cbn.
    replace (100 - 100) with 0 by lra. apply Rabs_R0. }
  assert (Hfar : forall i n, PLAYER_RADIUS * 2
                     <= distance (spawn i n 100 100) (spawn "C" 3 136 100)).
  { intros i n. rewrite distance_flat by reflexivity. cbn.
    rewrite Rabs_pos_eq by lra. unfold PLAYER_RADIUS. lra. }
  apply FOP_cons.
  { apply Forall_cons; [right; right; left; exact Hsame |].
    apply Forall_cons; [right; left; reflexivity |].
    apply Forall_cons; [right; right; right; apply Hfar | apply Forall_nil]. }
  apply FOP_cons.
  { apply Forall_cons; [right; left; reflexivity |].
    apply Forall_cons; [right; right; right; apply Hfar | apply Forall_nil]. }
  apply FOP_cons.
  { apply Forall_cons; [left; reflexivity | apply Forall_nil]. }
  apply FOP_cons; [apply Forall_nil | apply FOP_nil].
Defined.

(** X8.  When two alive players overlap, the pass pushes each of them
    along the line of their centres, in opposite directions and whatever
    their velocities were; in exact arithmetic the two impulses are
    opposite and of size [COLLISION_PUSH]. *)
Theorem collidePair_impulse (a b : Player.t) :
  Player.alive b = true ->
  0 < distance a b < PLAYER_RADIUS * 2 ->
  let a' := fst (collidePair a b) in
  let b' := snd (collidePair a b) in
  hypot (Player.vx b' - Player.vx b) (Player.vy b' - Player.vy b)
  = COLLISION_PUSH
  /\ Player.vx a' - Player.vx a = - (Player.vx b' - Player.vx b)
  /\ Player.vy a' - Player.vy a = - (Player.vy b' - Player.vy b)
  /\ (Player.vx b' - Player.vx b) * distance a b
     = (Player.x b - Player.x a) * COLLISION_PUSH
  /\ (Player.vy b' - Player.vy b) * distance a b
     = (Player.y b - Player.y a) * COLLISION_PUSH.
Proof.
  intros Hb [Hpos Hlt]. unfold collidePair. rewrite Hb. cbn [negb]. cbv zeta.
  fold (distance a b).
  rewrite Reqb_false by lra. unfold Rgeb. rewrite Rleb_false by lra.
  cbn [orb fst snd Player.vx Player.vy Player.set_pos Player.set_vel].
  set (d := distance a b) in *.
  set (dx := Player.x b - Player.x a).
  set (dy := Player.y b - Player.y a).
  assert (Hd : hypot dx dy = d) by reflexivity.
  split; [| repeat split; try lra; field; lra].
  replace (Player.vx b + dx / d * COLLISION_PUSH - Player.vx b)
    with (dx * (COLLISION_PUSH / d)) by (field; lra).
  replace (Player.vy b + dy / d * COLLISION_PUSH - Player.vy b)
    with (dy * (COLLISION_PUSH / d)) by (field; lra).
  rewrite hypot_scale.
  - rewrite Hd. field. lra.
  - unfold COLLISION_PUSH. apply Rlt_le, Rdiv_lt_0_compat; lra.
Qed.

Lemma collidePair_impulse_witness :
  let a' := fst (collidePair crowdA crowdB) in
  let b' := snd (collidePair crowdA crowdB) in
  hypot (Player.vx b' - Player.vx crowdB) (Player.vy b' - Player.vy crowdB)
  = COLLISION_PUSH
  /\ Player.vx a' - Player.vx crowdA = - (Player.vx b' - Player.vx crowdB)
  /\ Player.vy a' - Player.vy crowdA = - (Player.vy b' - Player.vy crowdB)
  /\ (Player.vx b' - Player.vx crowdB) * distance crowdA crowdB
     = (Player.x crowdB - Player.x crowdA) * COLLISION_PUSH
  /\ (Player.vy b' - Player.vy crowdB) * distance crowdA crowdB
     = (Player.y crowdB - Player.y crowdA) * COLLISION_PUSH.
Proof.
  apply (collidePair_impulse crowdA crowdB).
  - reflexivity.
  - rewrite distance_flat by reflexivity. cbn.
    rewrite Rabs_pos_eq by lra. unfold PLAYER_RADIUS. lra.
Defined.

(** ** The circle snapshot *)

(** X9.  The radius of a snapshot is the base radius while no pulse is
    active, and stays within the pulse amplitude of it otherwise; the
    inner radius is the radius times the inner factor. *)
Theorem snapshot_radius_bounds (c : Circle.t) :
  0 <= Circle.baseRadius c ->
  0 <= Pulse.amplitude (Circle.pulse c) ->
  let s := getCircleSnapshot c in
  Circle.baseRadius c * (1 - Pulse.amplitude (Circle.pulse c))
    <= Snap.radius s
    <= Circle.baseRadius c * (1 + Pulse.amplitude (Circle.pulse c))
  /\ (Pulse.active (Circle.pulse c) = false ->
      Snap.radius s = Circle.baseRadius c)
  /\ Snap.innerRadius s = Snap.radius s * Circle.innerFactor c
  /\ Snap.x s = Circle.x c /\ Snap.y s = Circle.y c.
Proof.
  intros Hb Ha. unfold getCircleSnapshot. cbv zeta.
  cbn [Snap.radius Snap.innerRadius Snap.x Snap.y].
  destruct (Pulse.active (Circle.pulse c)).
  - pose proof (SIN_bound (Pulse.elapsed (Circle.pulse c) * PULSE_FREQ))
      as [Hlo Hhi].
    set (w := sin (Pulse.elapsed (Circle.pulse c) * PULSE_FREQ)) in *.
    set (amp := Pulse.amplitude (Circle.pulse c)) in *.
    set (b := Circle.baseRadius c) in *.
    assert (Hw : - amp <= amp * w <= amp) by (split; nra).
    assert (Hbw : - (b * amp) <= b * (amp * w) <= b * amp) by (split; nra).
    repeat split; try reflexivity; try discriminate; lra.
  - repeat split; try reflexivity; nra.
Qed.

Lemma snapshot_radius_bounds_witness :
  let c := Room.circle (fst (triggerPulse (createRoom "X"))) in
  let s := getCircleSnapshot c in
  Circle.baseRadius c * (1 - Pulse.amplitude (Circle.pulse c))
    <= Snap.radius s
    <= Circle.baseRadius c * (1 + Pulse.amplitude (Circle.pulse c))
  /\ (Pulse.active (Circle.pulse c) = false ->
      Snap.radius s = Circle.baseRadius c)
  /\ Snap.innerRadius s = Snap.radius s * Circle.innerFactor c
  /\ Snap.x s = Circle.x c /\ Snap.y s = Circle.y c.
Proof.
  intro c. apply (snapshot_radius_bounds c).
  - cbn. lra.
  - cbn. unfold PULSE_AMPLITUDE. lra.
Defined.

(** ** The drift of the circle *)

Lemma driftStep_unit (c : Circle.t) (dt a t : R) :
  unitDrift c -> unitDrift (driftStep c dt a t).
Proof.
  intro H. unfold unitDrift, driftStep in *. cbv zeta.
  split_ifs; cbn [Circle.vx Circle.vy Circle.set_pos Circle.set_vel
                  Circle.set_driftSpeed Circle.set_driftTimer].
  - pose proof (sin2_cos2 (a * PI * 2)) as E. unfold Rsqr in E. lra.
  - exact H.
Qed.

Lemma bounceStep_unit (c : Circle.t) :
  unitDrift c -> unitDrift (bounceStep c).
Proof.
  intro H. unfold unitDrift, bounceStep in *. cbv zeta.
  split_ifs; cbn [Circle.vx Circle.vy Circle.set_pos Circle.set_vel]; nra.
Qed.

Lemma tail_steps_velocity (c : Circle.t) (dt : R) :
  Circle.vx (pulseStep (shiftStep (shrinkStep c dt) dt) dt) = Circle.vx c
  /\ Circle.vy (pulseStep (shiftStep (shrinkStep c dt) dt) dt) = Circle.vy c.
Proof.
  unfold pulseStep, shiftStep, shrinkStep. cbv zeta.
  split_ifs; split; reflexivity.
Qed.

Lemma applyOp_unit (room : Room.t) (op : CircleOp) :
  unitDrift (Room.circle room) -> unitDrift (Room.circle (applyOp room op)).
Proof.
  intro H. destruct op; cbn [applyOp]; try exact H.
  - unfold updateCircle. cbv zeta. cbn [Room.circle Room.set_circle].
    unfold unitDrift.
    destruct (tail_steps_velocity
                (bounceStep (driftStep (Room.circle room) dt rndAngle
                                       rndTimer)) dt) as [-> ->].
    apply bounceStep_unit, driftStep_unit. exact H.
  - unfold unitDrift. cbn. lra.
Qed.

(** X10.  In exact arithmetic, the drift direction of the circle is a unit
    vector and stays one: a new direction is drawn as (cos, sin) of an
    angle, a bounce flips the sign of one component, and nothing else
    writes it. *)
Theorem drift_direction_stays_unit (ops : list CircleOp) :
  forall room : Room.t,
    unitDrift (Room.circle room) ->
    unitDrift (Room.circle (fold_left applyOp ops room)).
Proof.
  induction ops as [| op ops IH]; intros room H; cbn [fold_left].
  - exact H.
  - apply IH. apply applyOp_unit. exact H.
Qed.

Lemma drift_direction_stays_unit_witness :
  unitDrift
    (Room.circle
       (fold_left applyOp
          [OpAdvance 3 0.25 0.5; OpAccel; OpAdvance 1 0 0; OpShift 0.5 0.5]
          (createRoom "X"))).
Proof.
  apply (drift_direction_stays_unit
           [OpAdvance 3 0.25 0.5; OpAccel; OpAdvance 1 0 0; OpShift 0.5 0.5]
           (createRoom "X")).
  unfold unitDrift. cbn. lra.
Defined.

(** ** Bounce, shift and pulse *)

Lemma driftStep_frame (c : Circle.t) (dt a t : R) :
  Circle.baseRadius (driftStep c dt a t) = Circle.baseRadius c
  /\ Circle.shift (driftStep c dt a t) = Circle.shift c
  /\ Circle.pulse (driftStep c dt a t) = Circle.pulse c.
Proof. unfold driftStep. cbv zeta. split_ifs; repeat split. Qed.

Lemma bounceStep_frame (c : Circle.t) :
  Circle.baseRadius (bounceStep c) = Circle.baseRadius c
  /\ Circle.shift (bounceStep c) = Circle.shift c
  /\ Circle.pulse (bounceStep c) = Circle.pulse c.
Proof. unfold bounceStep. cbv zeta. split_ifs; repeat split. Qed.

Lemma pulseStep_position (c : Circle.t) (dt : R) :
  Circle.x (pulseStep c dt) = Circle.x c
  /\ Circle.y (pulseStep c dt) = Circle.y c
  /\ Circle.shift (pulseStep c dt) = Circle.shift c.
Proof. unfold pulseStep. cbv zeta. split_ifs; repeat split. Qed.

Lemma bounceStep_margin (c : Circle.t) :
  let m := Circle.baseRadius c + 20 in
  (m <= Circle.x (bounceStep c)
   /\ (m <= WorldConfig.width WORLD - m ->
       Circle.x (bounceStep c) <= WorldConfig.width WORLD - m)
   /\ (WorldConfig.width WORLD - m < m -> Circle.x (bounceStep c) = m))
  /\ (m <= Circle.y (bounceStep c)
      /\ (m <= WorldConfig.height WORLD - m ->
          Circle.y (bounceStep c) <= WorldConfig.height WORLD - m)
      /\ (WorldConfig.height WORLD - m < m -> Circle.y (bounceStep c) = m)).
Proof.
  assert (Hclamp : forall m hi v,
             m <= Rmax m (Rmin hi v)
             /\ (m <= hi -> Rmax m (Rmin hi v) <= hi)
             /\ (hi < m -> Rmax m (Rmin hi v) = m)).
  { intros m hi v. split; [apply Rmax_l |]. split.
    - intro H. apply Rmax_lub; [exact H | apply Rmin_l].
    - intro H. apply Rmax_left. pose proof (Rmin_l hi v). lra. }
  intro m. unfold bounceStep. fold m. cbv zeta. unfold Rgtb.
  split.
  - destruct (Rltb_spec (Circle.x c) m) as [H1 | H1];
      destruct (Rltb_spec (WorldConfig.width WORLD - m) (Circle.x c))
        as [H2 | H2]; cbn [orb];
      split_ifs;
      cbn [Circle.x Circle.y Circle.set_pos Circle.set_vel];
      try apply Hclamp; repeat split; intros; lra.
  - destruct (Rltb (Circle.x c) m
              || Rltb (WorldConfig.width WORLD - m) (Circle.x c));
      cbn [Circle.x Circle.y Circle.set_pos Circle.set_vel];
      destruct (Rltb_spec (Circle.y c) m) as [H1 | H1];
      destruct (Rltb_spec (WorldConfig.height WORLD - m) (Circle.y c))
        as [H2 | H2]; cbn [orb];
      cbn [Circle.x Circle.y Circle.set_pos Circle.set_vel];
      try apply Hclamp; repeat split; intros; lra.
Qed.

(** X11.  While no shift is in flight, an advance leaves the centre of the
    circle at least [baseRadius + 20] (the base radius before the shrink
    of this advance) from the left and the top edge of the arena, and from
    the right and the bottom edge as long as that margin fits twice into
    the arena; when it does not fit, the centre is pinned at the
    margin. *)
Theorem advance_keeps_margin (room : Room.t) (dt a t : R) :
  Shift.active (Circle.shift (Room.circle room)) = false ->
  let m := Circle.baseRadius (Room.circle room) + 20 in
  let c' := Room.circle (updateCircle room dt a t) in
  (m <= Circle.x c'
   /\ (m <= WorldConfig.width WORLD - m ->
       Circle.x c' <= WorldConfig.width WORLD - m)
   /\ (WorldConfig.width WORLD - m < m -> Circle.x c' = m))
  /\ (m <= Circle.y c'
      /\ (m <= WorldConfig.height WORLD - m ->
          Circle.y c' <= WorldConfig.height WORLD - m)
      /\ (WorldConfig.height WORLD - m < m -> Circle.y c' = m)).
Proof.
  intros Hshift m c'.
  set (d := driftStep (Room.circle room) dt a t).
  assert (Hc' : Circle.x c' = Circle.x (bounceStep d)
                /\ Circle.y c' = Circle.y (bounceStep d)).
  { unfold c', updateCircle. cbv zeta. cbn [Room.circle Room.set_circle].
    fold d.
    destruct (pulseStep_position (shiftStep (shrinkStep (bounceStep d) dt) dt)
                                 dt) as (-> & -> & _).
    unfold shiftStep.
    assert (Hs : Shift.active (Circle.shift (shrinkStep (bounceStep d) dt))
                 = false).
    { cbn [shrinkStep Circle.shift Circle.set_baseRadius].
      rewrite (proj1 (proj2 (bounceStep_frame d))).
      unfold d. rewrite (proj1 (proj2 (driftStep_frame _ _ _ _))).
      exact Hshift. }
    rewrite Hs. split; reflexivity. }
  destruct Hc' as [-> ->].
  assert (Hm : m = Circle.baseRadius d + 20).
  { unfold m, d. rewrite (proj1 (driftStep_frame _ _ _ _)). reflexivity. }
  rewrite Hm. apply bounceStep_margin.
Qed.

Lemma advance_keeps_margin_witness :
  let room := fst (triggerResize (createRoom "X") 0.9) in
  let m := Circle.baseRadius (Room.circle room) + 20 in
  let c' := Room.circle (updateCircle room (1 / TICK_RATE) 0 0) in
  (m <= Circle.x c'
   /\ (m <= WorldConfig.width WORLD - m ->
       Circle.x c' <= WorldConfig.width WORLD - m)
   /\ (WorldConfig.width WORLD - m < m -> Circle.x c' = m))
  /\ (m <= Circle.y c'
      /\ (m <= WorldConfig.height WORLD - m ->
          Circle.y c' <= WorldConfig.height WORLD - m)
      /\ (WorldConfig.height WORLD - m < m -> Circle.y c' = m)).
Proof.
  intro room.
  apply (advance_keeps_margin room (1 / TICK_RATE) 0 0). reflexivity.
Defined.

Lemma pre_shift_frame (c : Circle.t) (dt a t : R) :
  Circle.shift (shrinkStep (bounceStep (driftStep c dt a t)) dt)
  = Circle.shift c
  /\ Circle.pulse (shrinkStep (bounceStep (driftStep c dt a t)) dt)
     = Circle.pulse c.
Proof.
  cbn [shrinkStep Circle.shift Circle.pulse Circle.set_baseRadius].
  rewrite (proj1 (proj2 (bounceStep_frame _))),
          (proj2 (proj2 (bounceStep_frame _))),
          (proj1 (proj2 (driftStep_frame _ _ _ _))),
          (proj2 (proj2 (driftStep_frame _ _ _ _))).
  split; reflexivity.
Qed.

Lemma shiftStep_active (c : Circle.t) (dt : R) :
  Shift.active (Circle.shift c) = true ->
  let s := Circle.shift c in
  let t := Rmin 1 ((Shift.elapsed s + dt) / Shift.duration s) in
  Circle.x (shiftStep c dt)
  = Shift.startX s + (Shift.targetX s - Shift.startX s) * t
  /\ Circle.y (shiftStep c dt)
     = Shift.startY s + (Shift.targetY s - Shift.startY s) * t
  /\ Shift.active (Circle.shift (shiftStep c dt)) = negb (Rgeb t 1)
  /\ Shift.elapsed (Circle.shift (shiftStep c dt)) = Shift.elapsed s + dt.
Proof.
  intro Ha. cbv zeta. unfold shiftStep. rewrite Ha. cbv zeta.
  cbn [Circle.x Circle.y Circle.shift Circle.set_shift Circle.set_pos
       Shift.active Shift.elapsed].
  destruct (Rgeb _ 1); repeat split.
Qed.

(** X12.  A shift in flight takes the centre of the circle along the
    straight line from its start to its target, whatever drift and bounce
    computed: an advance puts the centre at the fraction
    [elapsed / duration] of the way, and once the elapsed time reaches the
    duration the fraction is 1 and the shift is over: the centre is
    [start + (target - start) * 1], which is the target in exact
    arithmetic. *)
Theorem shift_moves_to_target (room : Room.t) (dt a t : R) :
  Shift.active (Circle.shift (Room.circle room)) = true ->
  0 < Shift.duration (Circle.shift (Room.circle room)) ->
  let s := Circle.shift (Room.circle room) in
  let c' := Room.circle (updateCircle room dt a t) in
  (Shift.elapsed s + dt < Shift.duration s ->
   Shift.active (Circle.shift c') = true
   /\ Circle.x c'
      = Shift.startX s
        + (Shift.targetX s - Shift.startX s)
          * ((Shift.elapsed s + dt) / Shift.duration s)
   /\ Circle.y c'
      = Shift.startY s
        + (Shift.targetY s - Shift.startY s)
          * ((Shift.elapsed s + dt) / Shift.duration s))
  /\ (Shift.duration s <= Shift.elapsed s + dt ->
      Shift.active (Circle.shift c') = false
      /\ Circle.x c'
         = Shift.startX s + (Shift.targetX s - Shift.startX s) * 1
      /\ Circle.y c'
         = Shift.startY s + (Shift.targetY s - Shift.startY s) * 1).
Proof.
  intros Ha Hdur s c'.
  set (c0 := shrinkStep
               (bounceStep (driftStep (Room.circle room) dt a t)) dt).
  assert (Hs0 : Circle.shift c0 = s) by apply pre_shift_frame.
  assert (Ha0 : Shift.active (Circle.shift c0) = true)
    by (rewrite Hs0; exact Ha).
  destruct (shiftStep_active c0 dt Ha0) as (Hx & Hy & Hact & _).
  rewrite Hs0 in Hx, Hy, Hact.
  assert (Hc' : Circle.x c' = Circle.x (shiftStep c0 dt)
                /\ Circle.y c' = Circle.y (shiftStep c0 dt)
                /\ Circle.shift c' = Circle.shift (shiftStep c0 dt)).
  { unfold c', updateCircle. cbv zeta. cbn [Room.circle Room.set_circle].
    fold c0. apply pulseStep_position. }
  destruct Hc' as (-> & -> & ->). rewrite Hx, Hy, Hact.
  set (q := (Shift.elapsed s + dt) / Shift.duration s).
  assert (HqD : q * Shift.duration s = Shift.elapsed s + dt).
  { unfold q. field. apply Rgt_not_eq. exact Hdur. }
  fold s in Hdur.
  split.
  - intro Hlt.
    assert (Hq : q < 1) by nra.
    rewrite (Rmin_right 1 q) by lra. unfold Rgeb.
    rewrite (Rleb_false 1 q) by exact Hq. repeat split.
  - intro Hge.
    assert (Hq : 1 <= q) by nra.
    rewrite (Rmin_left 1 q) by exact Hq. unfold Rgeb.
    rewrite (Rleb_true 1 1) by lra. repeat split.
Qed.

Lemma shift_moves_to_target_witness :
  let room := fst (triggerShift (createRoom "X") 0.5 0.5) in
  let s := Circle.shift (Room.circle room) in
  let c' := Room.circle (updateCircle room 2 0 0) in
  (Shift.elapsed s + 2 < Shift.duration s ->
   Shift.active (Circle.shift c') = true
   /\ Circle.x c'
      = Shift.startX s
        + (Shift.targetX s - Shift.startX s)
          * ((Shift.elapsed s + 2) / Shift.duration s)
   /\ Circle.y c'
      = Shift.startY s
        + (Shift.targetY s - Shift.startY s)
          * ((Shift.elapsed s + 2) / Shift.duration s))
  /\ (Shift.duration s <= Shift.elapsed s + 2 ->
      Shift.active (Circle.shift c') = false
      /\ Circle.x c'
         = Shift.startX s + (Shift.targetX s - Shift.startX s) * 1
      /\ Circle.y c'
         = Shift.startY s + (Shift.targetY s - Shift.startY s) * 1).
Proof.
  intro room. apply (shift_moves_to_target room 2 0 0).
  - reflexivity.
  - cbn. unfold SHIFT_DURATION_MS. lra.
Defined.

(** X13.  [triggerShift] starts a shift from the current centre of the
    circle to a target that keeps the margin [max (140, 0.6 * baseRadius)]
    from every edge of the arena, as long as that margin fits twice into
    the arena; the event it returns names that target and the shift
    duration. *)
Theorem triggerShift_target (room : Room.t) (rndX rndY : R) :
  0 <= rndX < 1 ->
  0 <= rndY < 1 ->
  Circle.baseRadius (Room.circle room) * 0.6
    <= WorldConfig.height WORLD / 2 ->
  let margin := Rmax 140 (Circle.baseRadius (Room.circle room) * 0.6) in
  let s := Circle.shift (Room.circle (fst (triggerShift room rndX rndY))) in
  snd (triggerShift room rndX rndY)
  = ActiveEvent.SHIFT (Shift.targetX s) (Shift.targetY s) SHIFT_DURATION_MS
  /\ margin <= Shift.targetX s <= WorldConfig.width WORLD - margin
  /\ margin <= Shift.targetY s <= WorldConfig.height WORLD - margin
  /\ Shift.active s = true /\ Shift.elapsed s = 0
  /\ Shift.startX s = Circle.x (Room.circle room)
  /\ Shift.startY s = Circle.y (Room.circle room)
  /\ Shift.duration s * 1000 = SHIFT_DURATION_MS.
Proof.
  intros [Hx0 Hx1] [Hy0 Hy1] Hfit margin s.
  unfold s, triggerShift. cbv zeta.
  cbn [fst snd Room.circle Room.set_circle Circle.shift Circle.set_shift
       Shift.targetX Shift.targetY Shift.active Shift.elapsed Shift.startX
       Shift.startY Shift.duration WorldConfig.width WorldConfig.height
       WORLD] in *.
  fold margin.
  assert (Hm : 140 <= margin <= 400).
  { unfold margin. split; [apply Rmax_l |]. apply Rmax_lub; lra. }
  split; [reflexivity |].
  repeat split; try reflexivity; nra.
Qed.

Lemma triggerShift_target_witness :
  let room := createRoom "X" in
  let margin := Rmax 140 (Circle.baseRadius (Room.circle room) * 0.6) in
  let s := Circle.shift (Room.circle (fst (triggerShift room 0.25 0.75))) in
  snd (triggerShift room 0.25 0.75)
  = ActiveEvent.SHIFT (Shift.targetX s) (Shift.targetY s) SHIFT_DURATION_MS
  /\ margin <= Shift.targetX s <= WorldConfig.width WORLD - margin
  /\ margin <= Shift.targetY s <= WorldConfig.height WORLD - margin
  /\ Shift.active s = true /\ Shift.elapsed s = 0
  /\ Shift.startX s = Circle.x (Room.circle room)
  /\ Shift.startY s = Circle.y (Room.circle room)
  /\ Shift.duration s * 1000 = SHIFT_DURATION_MS.
Proof.
  intro room. apply (triggerShift_target room 0.25 0.75).
  - lra.
  - lra.
  - cbn. lra.
Defined.

(** ** The pulse *)

Lemma applyOp_pulseOk (room : Room.t) (op : CircleOp) :
  stepOk op ->
  pulseOk (Room.circle room) -> pulseOk (Room.circle (applyOp room op)).
Proof.
  intros Hop H. destruct op; cbn [applyOp stepOk] in *; try exact H.
  - unfold updateCircle. cbv zeta. cbn [Room.circle Room.set_circle].
    set (c0 := shrinkStep
                 (bounceStep (driftStep (Room.circle room) dt rndAngle
                                        rndTimer)) dt).
    assert (Hp : Circle.pulse (shiftStep c0 dt)
                 = Circle.pulse (Room.circle room)).
    { unfold shiftStep. cbv zeta.
      destruct (Shift.active (Circle.shift c0));
        cbn [Circle.pulse Circle.set_shift Circle.set_pos];
        apply pre_shift_frame. }
    unfold pulseOk, pulseStep in *. rewrite Hp. cbv zeta.
    destruct (Pulse.active (Circle.pulse (Room.circle room))) eqn:Hact.
    + specialize (H eq_refl). unfold Rgeb.
      destruct (Rleb_spec
                  (Pulse.duration (Circle.pulse (Room.circle room)))
                  (Pulse.elapsed (Circle.pulse (Room.circle room)) + dt))
        as [Hge | Hlt];
        cbn [Circle.pulse Circle.set_pulse Pulse.active Pulse.elapsed
             Pulse.duration].
      * discriminate.
      * intros _. lra.
    + rewrite Hp, Hact. discriminate.
  - unfold pulseOk. cbn. intros _. unfold PULSE_DURATION_MS. lra.
  - unfold pulseOk. cbn. discriminate.
Qed.

(** X14.  An active pulse has been running for less than its duration, at
    every point of every sequence of advances (by steps that are not
    negative), events and resets: the advance that reaches the duration
    ends the pulse and clears its elapsed time. *)
Theorem pulse_never_overruns (ops : list CircleOp) :
  forall room : Room.t,
    Forall stepOk ops ->
    pulseOk (Room.circle room) ->
    pulseOk (Room.circle (fold_left applyOp ops room)).
Proof.
  induction ops as [| op ops IH]; intros room Hops H; cbn [fold_left].
  - exact H.
  - inversion Hops; subst. apply IH; [assumption |].
    apply applyOp_pulseOk; assumption.
Qed.

Lemma pulse_never_overruns_witness :
  pulseOk
    (Room.circle
       (fold_left applyOp [OpPulse; OpAdvance 5 0 0; OpAdvance 2 0 0]
                  (createRoom "X"))).
Proof.
  apply (pulse_never_overruns [OpPulse; OpAdvance 5 0 0; OpAdvance 2 0 0]
           (createRoom "X")).
  - repeat constructor; cbn; lra.
  - unfold pulseOk. cbn. discriminate.
Defined.

(** ** Health in a tick *)

Lemma kept_hp (p p' : Player.t) :
  keptByPhysics p' = keptByPhysics p -> Player.hp p' = Player.hp p.
Proof. unfold keptByPhysics. intro H. injection H. auto. Qed.

Lemma damagePlayer_neverHeals (room : Room.t) (dt : R) (snap : Snap.t)
    (p : Player.t) :
  0 <= dt -> neverHeals p (fst (damagePlayer room dt snap p)).
Proof.
  intros Hdt Hhp. unfold damagePlayer. cbv zeta.
  assert (Hd : 0 <= Rmax 0 (Player.hp p - OUTSIDE_HP_DRAIN * dt)
                    <= Player.hp p).
  { split; [apply Rmax_l |]. apply Rmax_lub; [exact Hhp |].
    unfold OUTSIDE_HP_DRAIN. lra. }
  split_ifs; cbn [fst Player.hp Player.set_hp Player.set_alive Player.set_vel
                  Player.set_dominationTime]; lra.
Qed.

(** X15.  A tick never heals: with a step that is not negative, every
    player whose health was not negative keeps a health that is not
    negative and not greater than before. *)
Theorem tick_never_heals (room : Room.t) (dt : R) (rnd : TickRandom.t) :
  0 <= dt ->
  entrywise neverHeals (Room.players room)
            (Room.players (fst (updateRoom room dt rnd))).
Proof.
  intro Hdt. apply updateRoom_entrywise.
  - intros p H. lra.
  - intros p q r Hpq Hqr H. specialize (Hpq H).
    assert (H' : 0 <= Player.hp q) by lra. specialize (Hqr H'). lra.
  - intros snap p H. rewrite (kept_hp _ _ (movePlayer_kept snap dt p)). lra.
  - intros a b _. destruct (collidePair_kept a b) as [Ha Hb].
    split; intro H; [rewrite (kept_hp _ _ Ha) | rewrite (kept_hp _ _ Hb)];
      lra.
  - intros r snap p. apply damagePlayer_neverHeals. exact Hdt.
Qed.

Lemma tick_never_heals_witness :
  entrywise neverHeals (Room.players wallRoom)
            (Room.players (fst (updateRoom wallRoom (1 / TICK_RATE)
                                           calmDraw))).
Proof.
  apply (tick_never_heals wallRoom (1 / TICK_RATE) calmDraw).
  unfold TICK_RATE. lra.
Defined.

Lemma damagePlayer_alive_hp (room : Room.t) (dt : R) (snap : Snap.t)
    (p : Player.t) :
  Player.alive (fst (damagePlayer room dt snap p)) = true ->
  0 < Player.hp (fst (damagePlayer room dt snap p)).
Proof.
  unfold damagePlayer. cbv zeta.
  destruct (Player.alive p) eqn:Ha; cbn [negb fst]; [| congruence].
  destruct (isOutside p snap).
  - destruct (Rleb_spec (Player.hp (Player.set_hp p
                 (Rmax 0 (Player.hp p - OUTSIDE_HP_DRAIN * dt)))) 0)
      as [Hle | Hgt]; cbn [fst].
    + cbn. discriminate.
    + destruct (Rleb _ _); cbn [fst Player.hp Player.set_dominationTime];
        intros _; lra.
  - destruct (Rleb_spec (Player.hp p) 0) as [Hle | Hgt]; cbn [fst].
    + cbn. discriminate.
    + destruct (Rleb _ _); cbn [fst Player.hp Player.set_dominationTime];
        intros _; lra.
Qed.

Lemma damageLoop_alive_hp (room : Room.t) (dt : R) (snap : Snap.t)
    (players : list (string * Player.t)) :
  Forall (fun kp => Player.alive (snd kp) = true -> 0 < Player.hp (snd kp))
         (fst (damageLoop room dt snap players)).
Proof.
  induction players as [| kp players IH]; cbn [damageLoop fst].
  - constructor.
  - constructor; [apply damagePlayer_alive_hp | exact IH].
Qed.

(** X16.  At the end of a tick of an active room every player still alive
    has health above zero: the damage pass declares dead whoever has
    none left. *)
Theorem alive_after_tick_has_health (room : Room.t) (dt : R)
    (rnd : TickRandom.t) :
  Room.roundEnded room = false ->
  Forall (fun kp => Player.alive (snd kp) = true -> 0 < Player.hp (snd kp))
         (Room.players (fst (updateRoom room dt rnd))).
Proof.
  intro Hact. unfold updateRoom. rewrite Hact. cbv zeta. cbn [fst].
  rewrite checkRoundEnd_players, eventsPhase_players.
  unfold damagePhase. cbv zeta. cbn [fst Room.players Room.set_players].
  apply damageLoop_alive_hp.
Qed.

Lemma alive_after_tick_has_health_witness :
  Forall (fun kp => Player.alive (snd kp) = true -> 0 < Player.hp (snd kp))
         (Room.players (fst (updateRoom wallRoom (1 / TICK_RATE) calmDraw))).
Proof.
  apply (alive_after_tick_has_health wallRoom (1 / TICK_RATE) calmDraw).
  reflexivity.
Defined.

(** ** Death notices *)

Lemma damagePlayer_notice (room : Room.t) (dt : R) (snap : Snap.t)
    (p : Player.t) :
  snd (damagePlayer room dt snap p)
  = if Player.alive p && negb (Player.alive (fst (damagePlayer room dt snap p)))
    then sendToAll room (death (Player.id p) (Player.nickname p))
    else [].
Proof.
  unfold damagePlayer. cbv zeta.
  destruct (Player.alive p) eqn:Ha; cbn [negb andb fst snd]; [| reflexivity].
  destruct (isOutside p snap);
    match goal with
    | |- context [Rleb (Player.hp ?q) 0] => destruct (Rleb (Player.hp q) 0)
    end;
    try (match goal with
         | |- context [Rleb ?u ?v] => destruct (Rleb u v)
         end);
    cbn [fst snd Player.alive Player.set_alive Player.set_vel
         Player.set_hp Player.set_dominationTime negb andb Player.id
         Player.nickname broadcastDeath];
    rewrite ?Ha; reflexivity.
Qed.

(** X17.  The damage pass sends death notices for exactly the players it
    kills, in the order of the player map: every member of the room with
    an open socket is told the id and the nickname of each player who was
    alive before the pass and is dead after it, and nothing else is
    sent. *)
Theorem death_notices (room : Room.t) (dt : R) (snap : Snap.t)
    (players : list (string * Player.t)) :
  snd (damageLoop room dt snap players)
  = flat_map
      (fun kp =>
         if Player.alive (snd kp)
            && negb (Player.alive
                       (fst (damagePlayer room dt snap (snd kp))))
         then sendToAll room
                (death (Player.id (snd kp)) (Player.nickname (snd kp)))
         else [])
      players.
Proof.
  induction players as [| kp players IH]; cbn [damageLoop snd flat_map].
  - reflexivity.
  - rewrite IH, damagePlayer_notice. reflexivity.
Qed.

(** ** The clock, the deadlines and the tick counter *)

Lemma shiftDue_schedule (room : Room.t) (rnd : TickRandom.t) :
  schedule (fst (shiftDue room rnd))
  = (Room.elapsedMs room,
     moved (Room.elapsedMs room) (Room.nextShiftMs room) SHIFT_INTERVAL_MS,
     Room.nextPulseMs room, Room.nextResizeMs room, Room.nextAccelMs room).
Proof. unfold shiftDue, moved, schedule. split_ifs; reflexivity. Qed.

Lemma pulseDue_schedule (room : Room.t) :
  schedule (fst (pulseDue room))
  = (Room.elapsedMs room, Room.nextShiftMs room,
     moved (Room.elapsedMs room) (Room.nextPulseMs room) PULSE_INTERVAL_MS,
     Room.nextResizeMs room, Room.nextAccelMs room).
Proof. unfold pulseDue, moved, schedule. split_ifs; reflexivity. Qed.

Lemma resizeDue_schedule (room : Room.t) (rnd : TickRandom.t) :
  schedule (fst (resizeDue room rnd))
  = (Room.elapsedMs room, Room.nextShiftMs room, Room.nextPulseMs room,
     moved (Room.elapsedMs room) (Room.nextResizeMs room) RESIZE_INTERVAL_MS,
     Room.nextAccelMs room).
Proof. unfold resizeDue, moved, schedule. split_ifs; reflexivity. Qed.

Lemma accelDue_schedule (room : Room.t) :
  schedule (fst (accelDue room))
  = (Room.elapsedMs room, Room.nextShiftMs room, Room.nextPulseMs room,
     Room.nextResizeMs room,
     moved (Room.elapsedMs room) (Room.nextAccelMs room) ACCEL_INTERVAL_MS).
Proof. unfold accelDue, moved, schedule. split_ifs; reflexivity. Qed.

Lemma eventsPhase_schedule (room : Room.t) (rnd : TickRandom.t) :
  schedule (fst (eventsPhase room rnd))
  = (Room.elapsedMs room,
     moved (Room.elapsedMs room) (Room.nextShiftMs room) SHIFT_INTERVAL_MS,
     moved (Room.elapsedMs room) (Room.nextPulseMs room) PULSE_INTERVAL_MS,
     moved (Room.elapsedMs room) (Room.nextResizeMs room) RESIZE_INTERVAL_MS,
     moved (Room.elapsedMs room) (Room.nextAccelMs room) ACCEL_INTERVAL_MS).
Proof.
  unfold eventsPhase. cbv zeta. cbn [fst].
  set (r1 := fst (shiftDue room rnd)).
  set (r2 := fst (pulseDue r1)).
  set (r3 := fst (resizeDue r2 rnd)).
  pose proof (shiftDue_schedule room rnd) as H1. fold r1 in H1.
  pose proof (pulseDue_schedule r1) as H2. fold r2 in H2.
  pose proof (resizeDue_schedule r2 rnd) as H3. fold r3 in H3.
  rewrite (accelDue_schedule r3).
  unfold schedule in H1, H2, H3.
  injection H3 as E3 S3 P3 R3 A3.
  injection H2 as E2 S2 P2 R2 A2.
  injection H1 as E1 S1 P1 R1 A1.
  repeat first
    [ rewrite E3 | rewrite S3 | rewrite P3 | rewrite R3 | rewrite A3
    | rewrite E2 | rewrite S2 | rewrite P2 | rewrite R2 | rewrite A2
    | rewrite E1 | rewrite S1 | rewrite P1 | rewrite R1 | rewrite A1 ].
  reflexivity.
Qed.

Lemma checkRoundEnd_schedule (room : Room.t) :
  schedule (fst (checkRoundEnd room)) = schedule room
  /\ Room.tick (fst (checkRoundEnd room)) = Room.tick room
  /\ Room.code (fst (checkRoundEnd room)) = Room.code room.
Proof. unfold checkRoundEnd. cbv zeta. split_ifs; repeat split. Qed.

Lemma eventsPhase_tick (room : Room.t) (rnd : TickRandom.t) :
  Room.tick (fst (eventsPhase room rnd)) = Room.tick room
  /\ Room.code (fst (eventsPhase room rnd)) = Room.code room.
Proof.
  unfold eventsPhase, accelDue, resizeDue, pulseDue, shiftDue. cbv zeta.
  split_ifs; split; reflexivity.
Qed.

Lemma damagePhase_label (room : Room.t) (dt : R) :
  label (fst (damagePhase room dt)) = label room.
Proof. reflexivity. Qed.

Lemma collidePhase_label (room : Room.t) : label (collidePhase room) = label room.
Proof. reflexivity. Qed.

Lemma movePhase_label (room : Room.t) (dt : R) :
  label (movePhase room dt) = label room.
Proof. reflexivity. Qed.

Lemma advancePhase_label (room : Room.t) (dt : R) (rnd : TickRandom.t) :
  label (advancePhase room dt rnd)
  = (Room.elapsedMs room + dt * 1000, Room.nextShiftMs room,
     Room.nextPulseMs room, Room.nextResizeMs room, Room.nextAccelMs room,
     (Room.tick room + 1)%nat, Room.code room).
Proof. reflexivity. Qed.

Lemma eventsPhase_label (room : Room.t) (rnd : TickRandom.t) :
  label (fst (eventsPhase room rnd))
  = (Room.elapsedMs room,
     moved (Room.elapsedMs room) (Room.nextShiftMs room) SHIFT_INTERVAL_MS,
     moved (Room.elapsedMs room) (Room.nextPulseMs room) PULSE_INTERVAL_MS,
     moved (Room.elapsedMs room) (Room.nextResizeMs room) RESIZE_INTERVAL_MS,
     moved (Room.elapsedMs room) (Room.nextAccelMs room) ACCEL_INTERVAL_MS,
     Room.tick room, Room.code room).
Proof.
  unfold label. rewrite eventsPhase_schedule.
  destruct (eventsPhase_tick room rnd) as [-> ->]. reflexivity.
Qed.

Lemma checkRoundEnd_label (room : Room.t) :
  label (fst (checkRoundEnd room)) = label room.
Proof.
  unfold label. destruct (checkRoundEnd_schedule room) as (-> & -> & ->).
  reflexivity.
Qed.

Lemma updateRoom_label (room : Room.t) (dt : R) (rnd : TickRandom.t) :
  Room.roundEnded room = false ->
  label (fst (updateRoom room dt rnd))
  = (Room.elapsedMs room + dt * 1000,
     moved (Room.elapsedMs room + dt * 1000) (Room.nextShiftMs room)
           SHIFT_INTERVAL_MS,
     moved (Room.elapsedMs room + dt * 1000) (Room.nextPulseMs room)
           PULSE_INTERVAL_MS,
     moved (Room.elapsedMs room + dt * 1000) (Room.nextResizeMs room)
           RESIZE_INTERVAL_MS,
     moved (Room.elapsedMs room + dt * 1000) (Room.nextAccelMs room)
           ACCEL_INTERVAL_MS,
     (Room.tick room + 1)%nat, Room.code room).
Proof.
  intro Hact. unfold updateRoom. rewrite Hact. cbv zeta. cbn [fst].
  rewrite checkRoundEnd_label, eventsPhase_label.
  remember (fst (damagePhase
                   (collidePhase (movePhase (advancePhase room dt rnd) dt))
                   dt)) as r eqn:Er.
  assert (Hr : label r
               = (Room.elapsedMs room + dt * 1000, Room.nextShiftMs room,
                  Room.nextPulseMs room, Room.nextResizeMs room,
                  Room.nextAccelMs room,
                  (Room.tick room + 1)%nat, Room.code room)).
  { rewrite Er, damagePhase_label, collidePhase_label, movePhase_label.
    apply advancePhase_label. }
  clear Er. unfold label, schedule in Hr.
  injection Hr as -> -> -> -> -> -> ->. reflexivity.
Qed.



(** A deadline that lies more than one interval back is still due after
    the tick that fired its event. *)
Example stalled_deadline_stays_due :
  moved 48000 15000 SHIFT_INTERVAL_MS = 30000
  /\ Rgeb 48000 (moved 48000 15000 SHIFT_INTERVAL_MS) = true.
Proof.
  unfold moved, Rgeb, SHIFT_INTERVAL_MS.
  rewrite (Rleb_true 15000 48000) by lra.
  split; [lra | apply Rleb_true; lra].
Qed.

(** X19.  The round-end check speaks once: run again on the room it
    returned, it changes nothing and sends nothing. *)
Theorem checkRoundEnd_once (room : Room.t) :
  checkRoundEnd (fst (checkRoundEnd room)) = (fst (checkRoundEnd room), []).
Proof.
  unfold checkRoundEnd at 2 3. cbv zeta.
  destruct (Room.roundEnded room) eqn:Hended; cbn [fst].
  - unfold checkRoundEnd. rewrite Hended. reflexivity.
  - destruct (List.length (Room.players room) <? 2)%nat eqn:Hsz; cbn [fst].
    + unfold checkRoundEnd. rewrite Hended, Hsz. reflexivity.
    + destruct (List.length
                  (filter (fun kp => Player.alive (snd kp))
                          (Room.players room)) <=? 1)%nat eqn:Hal; cbn [fst].
      * reflexivity.
      * destruct (Rgeb (Room.elapsedMs room) ROUND_DURATION_MS) eqn:Hto;
          cbn [fst]; [reflexivity |].
        unfold checkRoundEnd. rewrite Hended, Hsz, Hal, Hto. reflexivity.
Qed.

(** X20.  An ended room is frozen: each tick adds one to its tick counter
    and does nothing else, whatever the step and the draws, and no tick
    sends anything. *)
Theorem ended_room_only_counts (draws : list (R * TickRandom.t)) :
  forall room : Room.t,
    Room.roundEnded room = true ->
    ticks room draws
    = (Room.set_tick room (Room.tick room + List.length draws)%nat, []).
Proof.
  induction draws as [| d draws IH]; intros room Hended; cbn [ticks].
  - destruct room. cbn. rewrite Nat.add_0_r. reflexivity.
  - assert (Hstep : updateRoom room (fst d) (snd d)
                    = (Room.set_tick room (Room.tick room + 1)%nat, []))
      by (unfold updateRoom; rewrite Hended; reflexivity).
    rewrite Hstep. cbn [fst snd app].
    rewrite (IH (Room.set_tick room (Room.tick room + 1)%nat) Hended).
    cbn [fst snd List.length]. unfold Room.set_tick. cbn.
    do 2 f_equal. lia.
Qed.

Lemma ended_room_only_counts_witness :
  ticks (Room.set_roundEnded duelRoom true)
        [(1 / TICK_RATE, calmDraw); (1 / TICK_RATE, calmDraw)]
  = (Room.set_tick (Room.set_roundEnded duelRoom true) 2, []).
Proof.
  apply (ended_room_only_counts
           [(1 / TICK_RATE, calmDraw); (1 / TICK_RATE, calmDraw)]
           (Room.set_roundEnded duelRoom true)).
  reflexivity.
Defined.

(** ** Who is told *)

(** X21.  A broadcast to a room reaches exactly the members whose socket
    is open, once each and in the order of the player map; nobody else
    is sent anything. *)
Theorem sendToAll_open_members (room : Room.t) (message : ServerMessage) :
  sendToAll room message
  = map (fun kp => (WebSocket.conn (Player.ws (snd kp)), message))
        (filter (fun kp => isOpen (Player.ws (snd kp))) (Room.players room)).
Proof.
  unfold sendToAll.
  induction (Room.players room) as [| kp players IH]; cbn [flat_map filter].
  - reflexivity.
  - rewrite IH. unfold safeSend.
    destruct (isOpen (Player.ws (snd kp))); reflexivity.
Qed.

(** ** The round duration *)

Lemma checkRoundEnd_ends (room : Room.t) :
  (2 <= List.length (Room.players room))%nat ->
  ROUND_DURATION_MS <= Room.elapsedMs room ->
  Room.roundEnded (fst (checkRoundEnd room)) = true.
Proof.
  intros Hsz Hto. unfold checkRoundEnd. cbv zeta.
  destruct (Room.roundEnded room) eqn:Hended; [exact Hended |].
  assert (Hs : (List.length (Room.players room) <? 2)%nat = false)
    by (apply Nat.ltb_ge; exact Hsz).
  rewrite Hs. unfold Rgeb. rewrite (Rleb_true _ _ Hto).
  split_ifs; reflexivity.
Qed.

(** X22.  A round of at least two players does not outlive the round
    duration: the tick whose clock reaches [ROUND_DURATION_MS] leaves the
    room ended, by the last-alive rule or by timeout. *)
Theorem round_ends_in_time (room : Room.t) (dt : R) (rnd : TickRandom.t) :
  (2 <= List.length (Room.players room))%nat ->
  ROUND_DURATION_MS <= Room.elapsedMs room + dt * 1000 ->
  Room.roundEnded (fst (updateRoom room dt rnd)) = true.
Proof.
  intros Hsz Hto.
  destruct (Room.roundEnded room) eqn:Hended.
  - unfold updateRoom. rewrite Hended. exact Hended.
  - pose proof (updateRoom_size room dt rnd) as Hlen.
    unfold updateRoom in *. rewrite Hended in *. cbv zeta in *.
    cbn [fst] in *.
    rewrite checkRoundEnd_players in Hlen.
    remember (fst (eventsPhase
                     (fst (damagePhase
                             (collidePhase
                                (movePhase (advancePhase room dt rnd) dt))
                             dt)) rnd)) as r eqn:Er.
    assert (Hr : Room.elapsedMs r = Room.elapsedMs room + dt * 1000).
    { pose proof (eventsPhase_label
                    (fst (damagePhase
                            (collidePhase
                               (movePhase (advancePhase room dt rnd) dt))
                            dt)) rnd) as H.
      rewrite <- Er in H. unfold label, schedule in H.
      injection H as -> _ _ _ _ _ _. reflexivity. }
    apply checkRoundEnd_ends.
    + rewrite Hlen. exact Hsz.
    + rewrite Hr. exact Hto.
Qed.

Lemma round_ends_in_time_witness :
  Room.roundEnded (fst (updateRoom podiumRoom (1 / TICK_RATE) calmDraw))
  = true.
Proof.
  apply (round_ends_in_time podiumRoom (1 / TICK_RATE) calmDraw).
  - cbn. lia.
  - cbn. unfold ROUND_DURATION_MS, TICK_RATE. lra.
Defined.

(** ** Maps *)

Section MapFacts.
Context {A : Type}.

Lemma mapGet_In (k : string) (m : list (string * A)) (v : A) :
  mapGet k m = Some v -> In (k, v) m.
Proof.
  induction m as [| kv m IH]; cbn [mapGet]; [discriminate |].
  destruct (String.eqb_spec (fst kv) k) as [E | N].
  - intro H. left. destruct kv as [k' v']. cbn [fst snd] in *. congruence.
  - intro H. right. exact (IH H).
Qed.

Lemma mapGet_None (k : string) (m : list (string * A)) :
  mapGet k m = None -> ~ In k (map fst m).
Proof.
  induction m as [| kv m IH]; cbn [mapGet map]; [intros _ [] |].
  destruct (String.eqb_spec (fst kv) k) as [E | N]; [discriminate |].
  intros H [Hk | Hin]; [contradiction | exact (IH H Hin)].
Qed.

Lemma In_mapSet (k : string) (v : A) (m : list (string * A))
    (e : string * A) :
  In e (mapSet k v m) -> e = (k, v) \/ In e m.
Proof.
  induction m as [| kv m IH]; cbn [mapSet].
  - intros [H | []]. left. congruence.
  - destruct (String.eqb (fst kv) k).
    + intros [H | H]; [left; congruence | right; right; exact H].
    + intros [H | H]; [right; left; exact H |].
      destruct (IH H); [left; assumption | right; right; assumption].
Qed.

Lemma mapSet_keys (k : string) (v : A) (m : list (string * A)) :
  map fst (mapSet k v m)
  = if existsb (fun kv => String.eqb (fst kv) k) m
    then map fst m else map fst m ++ [k].
Proof.
  induction m as [| kv m IH]; cbn [mapSet existsb map app]; [reflexivity |].
  destruct (String.eqb_spec (fst kv) k) as [E | N]; cbn [orb map fst].
  - rewrite E. reflexivity.
  - rewrite IH. destruct (existsb _ m); reflexivity.
Qed.

Lemma mapSet_NoDup (k : string) (v : A) (m : list (string * A)) :
  NoDup (map fst m) -> NoDup (map fst (mapSet k v m)).
Proof.
  intro H. rewrite mapSet_keys.
  destruct (existsb (fun kv => String.eqb (fst kv) k) m) eqn:Hex;
    [exact H |].
  apply NoDup_app; [exact H | repeat constructor; intros [] |].
  intros x Hx [E | []]. subst x.
  apply in_map_iff in Hx. destruct Hx as (kv & Hk & Hin).
  assert (Ht : existsb (fun kv => String.eqb (fst kv) k) m = true).
  { apply existsb_exists. exists kv. split; [exact Hin |].
    apply String.eqb_eq. exact Hk. }
  congruence.
Qed.

Lemma In_mapDelete (k : string) (m : list (string * A)) (e : string * A) :
  In e (mapDelete k m) -> In e m.
Proof.
  induction m as [| kv m IH]; cbn [mapDelete]; [auto |].
  destruct (String.eqb (fst kv) k).
  - intro H. right. exact H.
  - intros [H | H]; [left; exact H | right; exact (IH H)].
Qed.

Lemma mapDelete_NoDup (k : string) (m : list (string * A)) :
  NoDup (map fst m) -> NoDup (map fst (mapDelete k m)).
Proof.
  induction m as [| kv m IH]; cbn [mapDelete map]; [auto |].
  intro H. inversion H as [| ? ? Hnotin Hnd]; subst.
  destruct (String.eqb (fst kv) k); [exact Hnd |].
  cbn [map]. constructor; [| exact (IH Hnd)].
  intro Hin. apply Hnotin.
  apply in_map_iff in Hin. destruct Hin as (e & He & Hin).
  apply in_map_iff. exists e. split; [exact He | exact (In_mapDelete _ _ _ Hin)].
Qed.

Lemma mapDelete_gone (k : string) (m : list (string * A)) :
  NoDup (map fst m) -> ~ In k (map fst (mapDelete k m)).
Proof.
  induction m as [| kv m IH]; cbn [mapDelete map]; [intros _ [] |].
  intro H. inversion H as [| ? ? Hnotin Hnd]; subst.
  destruct (String.eqb_spec (fst kv) k) as [E | N].
  - rewrite <- E. exact Hnotin.
  - cbn [map]. intros [Hk | Hin]; [contradiction | exact (IH Hnd Hin)].
Qed.
End MapFacts.

(** ** The registry stays in order *)

Lemma entryOk_app (store l : list Room.t) (e : string * nat) :
  entryOk store e -> entryOk (store ++ l) e.
Proof.
  intros (room & Hn & Hr). exists room. split; [| exact Hr].
  rewrite nth_error_app1; [exact Hn |].
  apply nth_error_Some. congruence.
Qed.

Lemma entryOk_storeSet (store : list Room.t) (ref : nat) (new : Room.t)
    (e : string * nat) :
  entryOk store e ->
  (forall old code, nth_error store ref = Some old ->
                    roomOk code old -> roomOk code new) ->
  entryOk (storeSet ref new store) e.
Proof.
  intros (room & Hn & Hr) H.
  destruct (Nat.eq_dec (snd e) ref) as [E | N].
  - subst ref. exists new.
    split; [exact (nth_error_storeSet_same _ _ room _ Hn) |].
    exact (H room _ Hn Hr).
  - exists room. rewrite nth_error_storeSet_other by exact N. auto.
Qed.

Lemma register_wellFormed (store : list Room.t) (rooms : list (string * nat))
    (code : string) (ref : nat) (old new : Room.t) :
  NoDup (map fst rooms) -> Forall (entryOk store) rooms ->
  nth_error store ref = Some old -> Room.code old = code ->
  roomOk code new ->
  wellFormed (Server.mk (storeSet ref new store) (mapSet code ref rooms)).
Proof.
  intros Hnd Hok Hold Hco Hnew. split; cbn [Server.rooms Server.store].
  - apply mapSet_NoDup, Hnd.
  - apply Forall_forall. intros e He.
    destruct (In_mapSet _ _ _ _ He) as [-> | Hin].
    + exists new. cbn [fst snd].
      split; [exact (nth_error_storeSet_same _ _ old _ Hold) | exact Hnew].
    + apply entryOk_storeSet.
      * exact (proj1 (Forall_forall _ _) Hok e Hin).
      * intros old' code' Hold' [Hc' _].
        assert (code' = code) as -> by congruence. exact Hnew.
Qed.

Lemma mapSet_nonempty {A : Type} (k : string) (v : A)
    (m : list (string * A)) :
  mapSet k v m <> [].
Proof.
  destruct m as [| kv m]; cbn [mapSet]; [discriminate |].
  destruct (String.eqb (fst kv) k); discriminate.
Qed.

Lemma forEachPlayer_keys (f : Player.t -> Player.t)
    (players : list (string * Player.t)) :
  map fst (forEachPlayer f players) = map fst players.
Proof.
  unfold forEachPlayer. rewrite map_map. reflexivity.
Qed.

Lemma entrywise_keys (P : Player.t -> Player.t -> Prop)
    (ps ps' : list (string * Player.t)) :
  entrywise P ps ps' -> map fst ps' = map fst ps.
Proof.
  induction 1 as [| kp kp' ps ps' [Hk _] _ IH]; cbn [map];
    [reflexivity | congruence].
Qed.

Lemma keys_nonempty {A : Type} (m m' : list (string * A)) :
  map fst m' = map fst m -> m <> [] -> m' <> [].
Proof.
  destruct m, m'; cbn; congruence.
Qed.

(** The new round that a join into an ended room starts. *)
Lemma restart_roomOk (code : string) (room : Room.t) :
  roomOk code room ->
  roomOk code (if Room.roundEnded room then resetRoomRound room else room).
Proof.
  destruct (Room.roundEnded room); [| auto].
  intros (Hc & Hp & Hnd). unfold roomOk.
  change (Room.players (resetRoomRound room))
    with (forEachPlayer resetPlayer (Room.players room)).
  rewrite forEachPlayer_keys.
  split; [exact Hc | split; [| exact Hnd]].
  apply (keys_nonempty (Room.players room));
    [apply forEachPlayer_keys | exact Hp].
Qed.

Lemma enter_roomOk (code k : string) (player : Player.t) (room : Room.t) :
  Room.code room = code -> NoDup (map fst (Room.players room)) ->
  roomOk code
    (Room.set_players room (mapSet k player (Room.players room))).
Proof.
  intros Hc Hnd. unfold roomOk. cbn.
  split; [exact Hc | split; [apply mapSet_nonempty | apply mapSet_NoDup, Hnd]].
Qed.

Lemma join_wellFormed (srv : Server.t) (sess : Session.t)
    (roomCode0 nickname0 : string) (rnd : JoinRandom.t) :
  wellFormed srv ->
  wellFormed (fst (fst (onMessage srv sess (join roomCode0 nickname0) rnd))).
Proof.
  intros [Hnd Hok]. unfold onMessage.
  destruct (Session.currentRoom sess); [split; assumption |].
  cbv zeta. cbn [fst].
  set (roomCode := toUpperCase (trim roomCode0)).
  destruct (mapGet roomCode (Server.rooms srv)) as [ref |] eqn:Hget.
  - pose proof (proj1 (Forall_forall _ _) Hok _ (mapGet_In _ _ _ Hget))
      as (old & Hn & Hc & Hp & Hk).
    cbn [fst snd] in Hn, Hc.
    rewrite (nth_error_nth _ _ _ Hn).
    apply (register_wellFormed _ _ _ _ old); auto.
    apply restart_roomOk, enter_roomOk; assumption.
  - assert (Hn : nth_error (Server.store srv ++ [createRoom roomCode])
                           (List.length (Server.store srv))
                 = Some (createRoom roomCode)).
    { rewrite nth_error_app2 by lia. rewrite Nat.sub_diag. reflexivity. }
    rewrite (nth_error_nth _ _ _ Hn).
    apply (register_wellFormed _ _ _ _ (createRoom roomCode)); auto.
    + eapply Forall_impl; [| exact Hok]. intros e. apply entryOk_app.
    + apply restart_roomOk, enter_roomOk; [reflexivity | constructor].
Qed.

Lemma input_wellFormed (srv : Server.t) (sess : Session.t) (seq : R)
    (inp : PlayerInput.t) (rnd : JoinRandom.t) :
  wellFormed srv ->
  wellFormed (fst (fst (onMessage srv sess (input seq inp) rnd))).
Proof.
  intros [Hnd Hok]. unfold onMessage.
  destruct (Session.currentRoom sess) as [ref |]; [| split; assumption].
  destruct (Session.playerId sess) as [[| c s] |]; try (split; assumption).
  destruct (nth_error (Server.store srv) ref) as [room |] eqn:Hn;
    [| split; assumption].
  destruct (mapGet _ (Room.players room)) as [player |];
    [| split; assumption].
  destruct (negb (Player.alive player)); [split; assumption |].
  cbv zeta. cbn [fst]. split; cbn [Server.rooms Server.store]; [exact Hnd |].
  eapply Forall_impl; [| exact Hok]. intros e He.
  apply entryOk_storeSet; [exact He |].
  intros old code Hold (Hc & _ & Hk). assert (old = room) as -> by congruence.
  apply enter_roomOk; assumption.
Qed.

Lemma onMessage_wellFormed (srv : Server.t) (sess : Session.t)
    (data : Incoming) (rnd : JoinRandom.t) :
  wellFormed srv -> wellFormed (fst (fst (onMessage srv sess data rnd))).
Proof.
  destruct data as [| roomCode0 nickname0 | seq inp |].
  - auto.
  - apply join_wellFormed.
  - apply input_wellFormed.
  - auto.
Qed.

Lemma onClose_wellFormed (srv : Server.t) (sess : Session.t) :
  wellFormed srv -> wellFormed (onClose srv sess).
Proof.
  intros [Hnd Hok]. unfold onClose.
  destruct (Session.currentRoom sess) as [ref |]; [| split; assumption].
  destruct (Session.playerId sess) as [[| c s] |]; try (split; assumption).
  destruct (nth_error (Server.store srv) ref) as [room |] eqn:Hn;
    [| split; assumption].
  cbv zeta. cbn [Room.players Room.set_players Room.code].
  set (pid := String c s).
  set (room' := Room.set_players room (mapDelete pid (Room.players room))).
  destruct (Nat.eqb_spec (List.length (mapDelete pid (Room.players room))) 0)
    as [Hempty | Hsome].
  - split; cbn [Server.rooms Server.store]; [apply mapDelete_NoDup, Hnd |].
    apply Forall_forall. intros e He.
    pose proof (proj1 (Forall_forall _ _) Hok e (In_mapDelete _ _ _ He))
      as (r & Hr & Hc & Hp).
    destruct (Nat.eq_dec (snd e) ref) as [E | N].
    + exfalso. apply (mapDelete_gone (Room.code room) (Server.rooms srv) Hnd).
      apply in_map_iff. exists e. split; [| exact He].
      rewrite E in Hr. congruence.
    + exists r. rewrite nth_error_storeSet_other by exact N.
      split; [exact Hr | split; assumption].
  - split; cbn [Server.rooms Server.store]; [exact Hnd |].
    eapply Forall_impl; [| exact Hok]. intros e He.
    apply entryOk_storeSet; [exact He |].
    intros old code Hold (Hc & _ & Hk). assert (old = room) as -> by congruence.
    subst room'. unfold roomOk. cbn.
    split; [exact Hc | split; [| apply mapDelete_NoDup, Hk]].
    intro H. apply Hsome. rewrite H. reflexivity.
Qed.

Lemma updateRoom_code (room : Room.t) (dt : R) (rnd : TickRandom.t) :
  Room.code (fst (updateRoom room dt rnd)) = Room.code room.
Proof.
  destruct (Room.roundEnded room) eqn:Hend.
  - unfold updateRoom. rewrite Hend. reflexivity.
  - exact (f_equal snd (updateRoom_label room dt rnd Hend)).
Qed.

Lemma updateRoom_keys (room : Room.t) (dt : R) (rnd : TickRandom.t) :
  map fst (Room.players (fst (updateRoom room dt rnd)))
  = map fst (Room.players room).
Proof.
  apply (entrywise_keys (fun _ _ => True)).
  apply (updateRoom_entrywise (fun _ _ => True) dt); auto.
Qed.

Lemma updateRoom_roomOk (code : string) (room : Room.t) (dt : R)
    (rnd : TickRandom.t) :
  roomOk code room -> roomOk code (fst (updateRoom room dt rnd)).
Proof.
  intros (Hc & Hp & Hk). unfold roomOk.
  rewrite updateRoom_code, updateRoom_keys.
  split; [exact Hc | split; [| exact Hk]].
  exact (keys_nonempty _ _ (updateRoom_keys room dt rnd) Hp).
Qed.

Lemma tickRooms_entryOk (rooms : list (string * nat)) (refs : list nat)
    (rnd : nat -> TickRandom.t) :
  forall (k : nat) (store : list Room.t),
    Forall (entryOk store) rooms ->
    Forall (entryOk (fst (tickRooms refs k rnd store))) rooms.
Proof.
  induction refs as [| ref refs IH]; intros k store Hok; cbn [tickRooms];
    [exact Hok |].
  destruct (nth_error store ref) as [room |] eqn:Hn; [| apply IH, Hok].
  cbv zeta. cbn [fst]. apply IH.
  eapply Forall_impl; [| exact Hok]. intros e He.
  apply entryOk_storeSet; [exact He |].
  intros old code Hold. assert (old = room) as -> by congruence.
  apply updateRoom_roomOk.
Qed.

Lemma simulationTick_wellFormed (srv : Server.t) (rnd : nat -> TickRandom.t) :
  wellFormed srv -> wellFormed (fst (simulationTick srv rnd)).
Proof.
  intros [Hnd Hok]. split; cbn; [exact Hnd |].
  apply tickRooms_entryOk, Hok.
Qed.

Lemma step_wellFormed (srv : Server.t) (ev : Event) :
  wellFormed srv -> wellFormed (step srv ev).
Proof.
  destruct ev as [sess data rnd | sess | rnd]; cbn [step].
  - apply onMessage_wellFormed.
  - apply onClose_wellFormed.
  - apply simulationTick_wellFormed.
Qed.

Lemma run_wellFormed (evs : list Event) :
  forall srv, wellFormed srv -> wellFormed (fold_left step evs srv).
Proof.
  induction evs as [| ev evs IH]; intros srv H; cbn [fold_left];
    [exact H | apply IH, step_wellFormed, H].
Qed.

Lemma emptyServer_wellFormed : wellFormed emptyServer.
Proof.
  split; constructor.
Qed.

(** X23.  Whatever messages, closes and ticks a server has handled since it
    started, in any order and with any draws, its registry holds every
    room code once, and every entry names a room of the store that
    carries the entry's code, has at least one player and holds every
    player id once. *)
Theorem registry_stays_in_order (evs : list Event) :
  wellFormed (fold_left step evs emptyServer).
Proof.
  apply run_wellFormed, emptyServer_wellFormed.
Qed.

(** ** Snapshots and the simulation driver *)

Lemma In_safeSend (ws : WebSocket.t) (m : ServerMessage) (s : Sent) :
  In s (safeSend ws m) <-> isOpen ws = true /\ s = (WebSocket.conn ws, m).
Proof.
  unfold safeSend. destruct (isOpen ws); cbn.
  - split; [intros [H | []]; auto | intros [_ H]; auto].
  - split; [intros [] | intros [H _]; discriminate].
Qed.

Lemma In_sendToAll (room : Room.t) (m : ServerMessage) (s : Sent) :
  In s (sendToAll room m) <->
  exists kp, In kp (Room.players room)
             /\ isOpen (Player.ws (snd kp)) = true
             /\ s = (WebSocket.conn (Player.ws (snd kp)), m).
Proof.
  unfold sendToAll. rewrite in_flat_map.
  split; intros (kp & Hin & H); exists kp; (split; [exact Hin |]);
    apply In_safeSend; exact H.
Qed.

Lemma In_registered (srv : Server.t) (room : Room.t) :
  In room (registered srv) <->
  exists cr, In cr (Server.rooms srv)
             /\ nth_error (Server.store srv) (snd cr) = Some room.
Proof.
  unfold registered. rewrite in_flat_map.
  split; intros (cr & Hin & H); exists cr; (split; [exact Hin |]).
  - destruct (nth_error (Server.store srv) (snd cr)) as [r |];
      [destruct H as [-> | []]; reflexivity | destruct H].
  - rewrite H. left. reflexivity.
Qed.

(** X24.  A snapshot broadcast sends the message [m] to the connection [c]
    exactly when [c] is the open connection of a player of a registered
    room and [m] is the snapshot of that room: no closed socket, no room
    that left the registry and no other room's snapshot. *)
Theorem snapshots_reach_open_members (srv : Server.t) (c : nat)
    (m : ServerMessage) :
  In (c, m) (broadcastSnapshots srv) <->
  exists cr room kp,
    In cr (Server.rooms srv)
    /\ nth_error (Server.store srv) (snd cr) = Some room
    /\ In kp (Room.players room)
    /\ isOpen (Player.ws (snd kp)) = true
    /\ c = WebSocket.conn (Player.ws (snd kp))
    /\ m = roomSnapshot room.
Proof.
  unfold broadcastSnapshots. rewrite in_flat_map. split.
  - intros (room & Hreg & Hin).
    apply In_registered in Hreg. destruct Hreg as (cr & Hcr & Hn).
    apply In_sendToAll in Hin. destruct Hin as (kp & Hkp & Ho & E).
    injection E as -> ->. exists cr, room, kp. auto 10.
  - intros (cr & room & kp & Hcr & Hn & Hkp & Ho & -> & ->).
    exists room. split.
    + apply In_registered. exists cr. auto.
    + apply In_sendToAll. exists kp. auto.
Qed.

Lemma tickRooms_other (rnd : nat -> TickRandom.t) (ref : nat) :
  forall (refs : list nat) (k : nat) (store : list Room.t),
    ~ In ref refs ->
    nth_error (fst (tickRooms refs k rnd store)) ref = nth_error store ref.
Proof.
  induction refs as [| r refs IH]; intros k store Hnot; cbn [tickRooms];
    [reflexivity |].
  assert (Hne : ref <> r) by (intro E; apply Hnot; left; auto).
  assert (Hnot' : ~ In ref refs) by (intro E; apply Hnot; right; auto).
  destruct (nth_error store r) as [room |]; [| apply IH, Hnot'].
  cbv zeta. cbn [fst]. rewrite IH by exact Hnot'.
  apply nth_error_storeSet_other, Hne.
Qed.

Lemma tickRooms_each (rnd : nat -> TickRandom.t) (ref : nat) (room : Room.t) :
  forall (refs : list nat) (i k : nat) (store : list Room.t),
    NoDup refs ->
    nth_error refs i = Some ref ->
    nth_error store ref = Some room ->
    nth_error (fst (tickRooms refs k rnd store)) ref
    = Some (fst (updateRoom room (1 / TICK_RATE) (rnd (k + i)%nat))).
Proof.
  induction refs as [| r refs IH]; intros [| i] k store Hnd Hi Hn;
    cbn [nth_error] in Hi; try discriminate; cbn [tickRooms];
    inversion Hnd as [| ? ? Hnot Hnd']; subst.
  - injection Hi as ->. rewrite Hn. cbv zeta. cbn [fst].
    rewrite tickRooms_other by exact Hnot.
    rewrite Nat.add_0_r. exact (nth_error_storeSet_same _ _ room _ Hn).
  - assert (Hne : ref <> r).
    { intros ->. apply Hnot. exact (nth_error_In _ _ Hi). }
    replace (k + S i)%nat with (S k + i)%nat by lia.
    destruct (nth_error store r) as [room0 |]; [| apply IH; assumption].
    cbv zeta. cbn [fst]. apply IH; [assumption | assumption |].
    rewrite nth_error_storeSet_other by exact Hne. exact Hn.
Qed.

Lemma wellFormed_refs (srv : Server.t) :
  wellFormed srv -> NoDup (map snd (Server.rooms srv)).
Proof.
  intros [Hnd Hok]. induction (Server.rooms srv) as [| e rooms IH];
    cbn [map] in *; [constructor |].
  inversion Hnd as [| ? ? Hnot Hnd']; subst.
  inversion Hok as [| ? ? He Hok']; subst.
  constructor; [| exact (IH Hnd' Hok')].
  intro Hin. apply Hnot.
  apply in_map_iff in Hin. destruct Hin as (e' & Href & Hin').
  apply in_map_iff. exists e'. split; [| exact Hin'].
  destruct He as (room & Hn & Hc & _).
  destruct (proj1 (Forall_forall _ _) Hok' e' Hin') as (room' & Hn' & Hc' & _).
  rewrite Href in Hn'. congruence.
Qed.

(** X25.  One run of the simulation driver ticks every registered room
    exactly once, by [1 / TICK_RATE] seconds and with the draws of its
    place in the registry, whatever the other rooms do; it leaves the
    rooms outside the registry and the registry itself as they are. *)
Theorem simulation_ticks_each_room_once (srv : Server.t)
    (rnd : nat -> TickRandom.t) :
  wellFormed srv ->
  let srv' := fst (simulationTick srv rnd) in
  Server.rooms srv' = Server.rooms srv
  /\ (forall i code ref room,
         nth_error (Server.rooms srv) i = Some (code, ref) ->
         nth_error (Server.store srv) ref = Some room ->
         nth_error (Server.store srv') ref
         = Some (fst (updateRoom room (1 / TICK_RATE) (rnd i))))
  /\ (forall ref,
         ~ In ref (map snd (Server.rooms srv)) ->
         nth_error (Server.store srv') ref
         = nth_error (Server.store srv) ref).
Proof.
  intros Hwf. cbv zeta. split; [reflexivity |]. split.
  - intros i code ref room Hi Hn. cbn.
    apply (tickRooms_each rnd ref room _ i 0%nat);
      [exact (wellFormed_refs srv Hwf) | | exact Hn].
    rewrite nth_error_map, Hi. reflexivity.
  - intros ref Hnot. cbn. apply tickRooms_other, Hnot.
Qed.

(** ** Joining, steering and leaving *)

Lemma mapGet_mapSet_same {A : Type} (k : string) (v : A)
    (m : list (string * A)) :
  mapGet k (mapSet k v m) = Some v.
Proof.
  induction m as [| kv m IH]; cbn [mapSet mapGet].
  - cbn. rewrite String.eqb_refl. reflexivity.
  - destruct (String.eqb (fst kv) k) eqn:E; cbn [mapGet fst snd].
    + rewrite String.eqb_refl. reflexivity.
    + rewrite E. exact IH.
Qed.

Lemma mapSet_mapSet {A : Type} (k : string) (v w : A)
    (m : list (string * A)) :
  mapSet k w (mapSet k v m) = mapSet k w m.
Proof.
  induction m as [| kv m IH]; cbn [mapSet].
  - cbn. rewrite String.eqb_refl. reflexivity.
  - destruct (String.eqb (fst kv) k) eqn:E; cbn [mapSet fst].
    + rewrite String.eqb_refl. reflexivity.
    + rewrite E, IH. reflexivity.
Qed.

Lemma mapSet_same_keys {A : Type} (k : string) (v w : A)
    (m : list (string * A)) :
  mapGet k m = Some v -> map fst (mapSet k w m) = map fst m.
Proof.
  induction m as [| kv m IH]; cbn [mapSet mapGet map]; [discriminate |].
  destruct (String.eqb_spec (fst kv) k) as [E | N]; cbn [map fst].
  - intros _. rewrite E. reflexivity.
  - intro H. rewrite (IH H). reflexivity.
Qed.

Lemma mapGet_mapDelete_same {A : Type} (k : string) (m : list (string * A)) :
  NoDup (map fst m) -> mapGet k (mapDelete k m) = None.
Proof.
  intro Hnd. destruct (mapGet k (mapDelete k m)) as [v |] eqn:E;
    [| reflexivity].
  exfalso. apply (mapDelete_gone k m Hnd).
  apply in_map_iff. exists (k, v). split; [reflexivity |].
  apply mapGet_In, E.
Qed.

Lemma storeSet_storeSet {A : Type} (ref : nat) (v w : A) (h : list A) :
  storeSet ref w (storeSet ref v h) = storeSet ref w h.
Proof.
  revert ref. induction h as [| a h IH]; intros [| ref]; cbn [storeSet];
    try reflexivity.
  rewrite IH. reflexivity.
Qed.

Lemma length_slice0 (n : nat) (s : string) :
  (String.length (slice0 n s) <= n)%nat.
Proof.
  unfold slice0. revert n. induction s as [| c s IH]; intros [| n]; cbn;
    try lia.
  specialize (IH n). lia.
Qed.

Lemma nickname_length (s : string) :
  (1 <= String.length (orElse (slice0 16 (trim s)) "Player") <= 16)%nat.
Proof.
  pose proof (length_slice0 16 (trim s)) as H.
  destruct (slice0 16 (trim s)) as [| c t]; cbn in *; lia.
Qed.

Lemma restart_code (room : Room.t) :
  Room.code (if Room.roundEnded room then resetRoomRound room else room)
  = Room.code room.
Proof.
  destruct (Room.roundEnded room); reflexivity.
Qed.

Lemma restart_running (room : Room.t) :
  Room.roundEnded (if Room.roundEnded room then resetRoomRound room else room)
  = false.
Proof.
  destruct (Room.roundEnded room) eqn:E; [reflexivity | exact E].
Qed.

Lemma restart_newcomer (room : Room.t) (k : string) (ws : WebSocket.t)
    (nickname : string) (p : Player.t) :
  mapGet k (Room.players room) = Some p -> newcomer ws nickname p ->
  exists p',
    mapGet k (Room.players
                (if Room.roundEnded room then resetRoomRound room else room))
    = Some p'
    /\ newcomer ws nickname p'.
Proof.
  intros Hget Hnew. destruct (Room.roundEnded room); [| exists p; auto].
  exists (resetPlayer p). split.
  - change (Room.players (resetRoomRound room))
      with (forEachPlayer resetPlayer (Room.players room)).
    rewrite mapGet_forEachPlayer, Hget. reflexivity.
  - destruct Hnew as (H1 & H2 & _ & _ & _ & _ & _ & H8).
    unfold newcomer. cbn. auto 10.
Qed.

(** X26.  A join on a connection that has not joined puts the connection
    into the room registered under the trimmed, upper-cased code: the
    connection's state names that room and the new player id, the room is
    not ended (a finished round is restarted), the new player is in it,
    alive, with 100 hp, no domination time and no velocity, under a
    nickname of 1 to 16 characters, and the only reply is the welcome
    message. *)
Theorem join_enters_running_room (srv : Server.t) (sess : Session.t)
    (roomCode0 nickname0 : string) (rnd : JoinRandom.t) :
  wellFormed srv ->
  Session.currentRoom sess = None ->
  let code := toUpperCase (trim roomCode0) in
  let pid := JoinRandom.newId rnd in
  let r := onMessage srv sess (join roomCode0 nickname0) rnd in
  snd r = safeSend (Session.ws sess)
                   (welcome pid code SNAPSHOT_RATE TICK_RATE WORLD)
  /\ exists ref room player,
       snd (fst r) = Session.mk (Session.ws sess) (Some ref) (Some pid)
       /\ mapGet code (Server.rooms (fst (fst r))) = Some ref
       /\ nth_error (Server.store (fst (fst r))) ref = Some room
       /\ Room.code room = code
       /\ Room.roundEnded room = false
       /\ mapGet pid (Room.players room) = Some player
       /\ newcomer (Session.ws sess)
                   (orElse (slice0 16 (trim nickname0)) "Player") player
       /\ (1 <= String.length (Player.nickname player) <= 16)%nat.
Proof.
  intros [Hnd Hok] Hnone. cbv zeta. unfold onMessage. rewrite Hnone.
  cbv zeta. cbn [fst snd Server.rooms Server.store].
  split; [reflexivity |].
  set (code := toUpperCase (trim roomCode0)).
  set (nick := orElse (slice0 16 (trim nickname0)) "Player").
  assert (Hold : exists old,
             nth_error
               match mapGet code (Server.rooms srv) with
               | Some _ => Server.store srv
               | None => Server.store srv ++ [createRoom code]
               end
               match mapGet code (Server.rooms srv) with
               | Some ref => ref
               | None => List.length (Server.store srv)
               end = Some old
             /\ Room.code old = code).
  { destruct (mapGet code (Server.rooms srv)) as [ref |] eqn:Hget.
    - destruct (proj1 (Forall_forall _ _) Hok _ (mapGet_In _ _ _ Hget))
        as (old & Hn & Hc & _).
      exists old. auto.
    - exists (createRoom code). split; [| reflexivity].
      rewrite nth_error_app2 by lia. rewrite Nat.sub_diag. reflexivity. }
  destruct Hold as (old & Hn & Hc).
  rewrite (nth_error_nth _ _ _ Hn).
  remember (match mapGet code (Server.rooms srv) with
            | Some ref => ref
            | None => List.length (Server.store srv)
            end) as ref eqn:Eref.
  remember (match mapGet code (Server.rooms srv) with
            | Some _ => Server.store srv
            | None => Server.store srv ++ [createRoom code]
            end) as store eqn:Estore.
  clear Eref Estore.
  set (player := Player.mk (JoinRandom.newId rnd) nick (Session.ws sess)
                           emptyInput _ _ 0 0 (Vec.mk 0 (-1)) 0 100 true 0).
  set (room2 := Room.set_players old
                  (mapSet (JoinRandom.newId rnd) player (Room.players old))).
  destruct (restart_newcomer room2 (JoinRandom.newId rnd) (Session.ws sess)
              nick player) as (p' & Hget' & Hnew').
  { apply mapGet_mapSet_same. }
  { unfold newcomer. cbn. auto 10. }
  exists ref, (if Room.roundEnded room2 then resetRoomRound room2 else room2),
         p'.
  split; [reflexivity |].
  split; [apply mapGet_mapSet_same |].
  split; [exact (nth_error_storeSet_same _ _ old _ Hn) |].
  split; [etransitivity; [apply restart_code | exact Hc] |].
  split; [apply restart_running |].
  split; [exact Hget' |].
  split; [exact Hnew' |].
  destruct Hnew' as (_ & -> & _). apply nickname_length.
Qed.

Lemma endedServer_wellFormed : wellFormed endedServer.
Proof.
  split; cbn.
  - constructor; [intros [] | constructor].
  - constructor; [| constructor].
    eexists. split; [reflexivity |].
    split; [reflexivity |]. split; [discriminate |]. cbn.
    constructor; [intros [H | []]; discriminate |].
    constructor; [intros [] | constructor].
Qed.

Lemma join_enters_running_room_witness :
  snd afterRejoin
  = safeSend (sock 3) (welcome "p1" "X" SNAPSHOT_RATE TICK_RATE WORLD)
  /\ exists ref room player,
       snd (fst afterRejoin) = Session.mk (sock 3) (Some ref) (Some "p1"%string)
       /\ mapGet "X" (Server.rooms (fst (fst afterRejoin))) = Some ref
       /\ nth_error (Server.store (fst (fst afterRejoin))) ref = Some room
       /\ Room.code room = "X"%string
       /\ Room.roundEnded room = false
       /\ mapGet "p1" (Room.players room) = Some player
       /\ newcomer (sock 3) "carol" player
       /\ (1 <= String.length (Player.nickname player) <= 16)%nat.
Proof.
  apply (join_enters_running_room endedServer (freshSession 3) "x" "carol"
           joinDraw).
  - exact endedServer_wellFormed.
  - reflexivity.
Defined.

Lemma onMessage_input_accepted (srv : Server.t) (sess : Session.t) (seq : R)
    (inp : PlayerInput.t) (rnd : JoinRandom.t) (ref : nat) (pid : string)
    (room : Room.t) (player : Player.t) :
  Session.currentRoom sess = Some ref ->
  Session.playerId sess = Some pid ->
  pid <> EmptyString ->
  nth_error (Server.store srv) ref = Some room ->
  mapGet pid (Room.players room) = Some player ->
  Player.alive player = true ->
  onMessage srv sess (input seq inp) rnd
  = (Server.mk
       (storeSet ref
          (Room.set_players room
             (mapSet pid (Player.set_input player inp) (Room.players room)))
          (Server.store srv))
       (Server.rooms srv),
     sess, []).
Proof.
  intros Hroom Hpid Hne Hn Hget Halive. unfold onMessage.
  rewrite Hroom, Hpid. destruct pid as [| c s]; [contradiction |].
  rewrite Hn, Hget, Halive. reflexivity.
Qed.

(** X27.  An input message from a joined connection whose player is alive
    is stored as that player's input and answered with nothing: in the
    connection's room the player carries the new input and is otherwise as
    before, every other player and the order of the players stay the same,
    and the registry and the connection's state do not change. *)
Theorem input_is_stored (srv : Server.t) (sess : Session.t) (seq : R)
    (inp : PlayerInput.t) (rnd : JoinRandom.t) (ref : nat) (pid : string)
    (room : Room.t) (player : Player.t) :
  Session.currentRoom sess = Some ref ->
  Session.playerId sess = Some pid ->
  pid <> EmptyString ->
  nth_error (Server.store srv) ref = Some room ->
  mapGet pid (Room.players room) = Some player ->
  Player.alive player = true ->
  let r := onMessage srv sess (input seq inp) rnd in
  snd r = []
  /\ snd (fst r) = sess
  /\ Server.rooms (fst (fst r)) = Server.rooms srv
  /\ exists room',
       nth_error (Server.store (fst (fst r))) ref = Some room'
       /\ mapGet pid (Room.players room') = Some (Player.set_input player inp)
       /\ (forall k, k <> pid ->
                     mapGet k (Room.players room')
                     = mapGet k (Room.players room))
       /\ map fst (Room.players room') = map fst (Room.players room)
       /\ Room.set_players room' (Room.players room) = room.
Proof.
  intros Hroom Hpid Hne Hn Hget Halive. cbv zeta.
  rewrite (onMessage_input_accepted srv sess seq inp rnd ref pid room player)
    by assumption.
  cbn [fst snd Server.rooms Server.store].
  split; [reflexivity |]. split; [reflexivity |]. split; [reflexivity |].
  eexists. split; [exact (nth_error_storeSet_same _ _ room _ Hn) |].
  cbn [Room.players Room.set_players].
  split; [apply mapGet_mapSet_same |].
  split; [intros k Hk; apply mapGet_mapSet_other; congruence |].
  split; [exact (mapSet_same_keys _ _ _ _ Hget) |].
  destruct room; reflexivity.
Qed.

Lemma input_is_stored_witness :
  let room := Room.set_roundEnded duelRoom true in
  let inp := PlayerInput.mk true false false false true in
  let r := onMessage endedServer (seated 1 "A") (input 1 inp) joinDraw in
  snd r = []
  /\ snd (fst r) = seated 1 "A"
  /\ Server.rooms (fst (fst r)) = Server.rooms endedServer
  /\ exists room',
       nth_error (Server.store (fst (fst r))) 0 = Some room'
       /\ mapGet "A" (Room.players room')
          = Some (Player.set_input (spawn "A" 1 600 400) inp)
       /\ (forall k, k <> "A"%string ->
                     mapGet k (Room.players room')
                     = mapGet k (Room.players room))
       /\ map fst (Room.players room') = map fst (Room.players room)
       /\ Room.set_players room' (Room.players room) = room.
Proof.
  apply (input_is_stored endedServer (seated 1 "A") 1
           (PlayerInput.mk true false false false true) joinDraw 0 "A"
           (Room.set_roundEnded duelRoom true) (spawn "A" 1 600 400)).
  - reflexivity.
  - reflexivity.
  - discriminate.
  - reflexivity.
  - reflexivity.
  - reflexivity.
Defined.

Lemma set_input_twice (player : Player.t) (i1 i2 : PlayerInput.t) :
  Player.set_input (Player.set_input player i1) i2
  = Player.set_input player i2.
Proof.
  destruct player; reflexivity.
Qed.

(** X28.  Of two input messages that a connection sends one after the
    other, only the second counts: the server handles the second message
    after the first exactly as it would have handled it alone. *)
Theorem latest_input_wins (srv : Server.t) (sess : Session.t) (s1 s2 : R)
    (i1 i2 : PlayerInput.t) (rnd1 rnd2 : JoinRandom.t) :
  onMessage (fst (fst (onMessage srv sess (input s1 i1) rnd1))) sess
            (input s2 i2) rnd2
  = onMessage srv sess (input s2 i2) rnd2.
Proof.
  destruct (Session.currentRoom sess) as [ref |] eqn:Hroom;
    [| unfold onMessage at 2; rewrite Hroom; reflexivity].
  destruct (Session.playerId sess) as [pid |] eqn:Hpid;
    [| unfold onMessage at 2; rewrite Hroom, Hpid; reflexivity].
  destruct pid as [| c s];
    [unfold onMessage at 2; rewrite Hroom, Hpid; reflexivity |].
  destruct (nth_error (Server.store srv) ref) as [room |] eqn:Hn;
    [| unfold onMessage at 2; rewrite Hroom, Hpid, Hn; reflexivity].
  destruct (mapGet (String c s) (Room.players room)) as [player |] eqn:Hget;
    [| unfold onMessage at 2; rewrite Hroom, Hpid, Hn, Hget; reflexivity].
  destruct (Player.alive player) eqn:Halive;
    [| unfold onMessage at 2; rewrite Hroom, Hpid, Hn, Hget, Halive;
       reflexivity].
  assert (Hne : String c s <> EmptyString) by discriminate.
  rewrite (onMessage_input_accepted srv sess s1 i1 rnd1 ref (String c s) room
             player)
    by assumption.
  rewrite (onMessage_input_accepted srv sess s2 i2 rnd2 ref (String c s) room
             player)
    by assumption.
  cbn [fst].
  rewrite (onMessage_input_accepted _ sess s2 i2 rnd2 ref (String c s)
             (Room.set_players room
                (mapSet (String c s) (Player.set_input player i1)
                        (Room.players room)))
             (Player.set_input player i1));
    try assumption.
  - cbn [Server.store Server.rooms Room.players Room.set_players].
    rewrite storeSet_storeSet, mapSet_mapSet, set_input_twice.
    destruct room; reflexivity.
  - exact (nth_error_storeSet_same _ _ room _ Hn).
  - apply mapGet_mapSet_same.
Qed.

(** X29.  When a joined connection closes, its player leaves its room and
    the other players stay; if the room is then empty its code leaves the
    registry while every other code stays, and otherwise the registry does
    not change. *)
Theorem close_leaves_room (srv : Server.t) (sess : Session.t) (code : string)
    (ref : nat) (pid : string) (room : Room.t) :
  wellFormed srv ->
  In (code, ref) (Server.rooms srv) ->
  nth_error (Server.store srv) ref = Some room ->
  Session.currentRoom sess = Some ref ->
  Session.playerId sess = Some pid ->
  pid <> EmptyString ->
  let srv' := onClose srv sess in
  exists room',
    nth_error (Server.store srv') ref = Some room'
    /\ mapGet pid (Room.players room') = None
    /\ (forall k, k <> pid ->
                  mapGet k (Room.players room') = mapGet k (Room.players room))
    /\ (Room.players room' = [] ->
        mapGet code (Server.rooms srv') = None
        /\ forall c, c <> code ->
                     mapGet c (Server.rooms srv') = mapGet c (Server.rooms srv))
    /\ (Room.players room' <> [] -> Server.rooms srv' = Server.rooms srv).
Proof.
  intros [Hnd Hok] Hin Hn Hroom Hpid Hne. cbv zeta.
  destruct (proj1 (Forall_forall _ _) Hok _ Hin) as (r & Hr & Hc & _ & Hk).
  cbn [fst snd] in Hr, Hc. assert (r = room) as -> by congruence.
  unfold onClose. rewrite Hroom, Hpid.
  destruct pid as [| c s]; [contradiction |]. rewrite Hn. cbv zeta.
  cbn [Room.players Room.set_players Room.code]. rewrite Hc.
  set (pid := String c s).
  exists (Room.set_players room (mapDelete pid (Room.players room))).
  cbn [Room.players Room.set_players].
  destruct (Nat.eqb_spec (List.length (mapDelete pid (Room.players room))) 0)
    as [Hempty | Hsome]; cbn [Server.store Server.rooms].
  - split; [exact (nth_error_storeSet_same _ _ room _ Hn) |].
    split; [apply mapGet_mapDelete_same, Hk |].
    split; [intros k Hne'; apply mapGet_mapDelete_other; congruence |].
    split.
    + intros _. split; [apply mapGet_mapDelete_same, Hnd |].
      intros c0 Hc0. apply mapGet_mapDelete_other. congruence.
    + intro H. exfalso. apply H. apply length_zero_iff_nil, Hempty.
  - split; [exact (nth_error_storeSet_same _ _ room _ Hn) |].
    split; [apply mapGet_mapDelete_same, Hk |].
    split; [intros k Hne'; apply mapGet_mapDelete_other; congruence |].
    split.
    + intro H. exfalso. apply Hsome. rewrite H. reflexivity.
    + reflexivity.
Qed.

Lemma close_leaves_room_witness :
  let srv' := onClose endedServer (seated 1 "A") in
  exists room',
    nth_error (Server.store srv') 0 = Some room'
    /\ mapGet "A" (Room.players room') = None
    /\ (forall k, k <> "A"%string ->
                  mapGet k (Room.players room')
                  = mapGet k (Room.players (Room.set_roundEnded duelRoom true)))
    /\ (Room.players room' = [] ->
        mapGet "X" (Server.rooms srv') = None
        /\ forall c, c <> "X"%string ->
                     mapGet c (Server.rooms srv')
                     = mapGet c (Server.rooms endedServer))
    /\ (Room.players room' <> [] ->
        Server.rooms srv' = Server.rooms endedServer).
Proof.
  apply (close_leaves_room endedServer (seated 1 "A") "X" 0 "A"
           (Room.set_roundEnded duelRoom true)).
  - exact endedServer_wellFormed.
  - left. reflexivity.
  - reflexivity.
  - reflexivity.
  - reflexivity.
  - discriminate.
Defined.

Lemma simulation_ticks_each_room_once_witness :
  let rnd := fun _ : nat => calmDraw in
  let srv' := fst (simulationTick endedServer rnd) in
  Server.rooms srv' = Server.rooms endedServer
  /\ (forall i code ref room,
         nth_error (Server.rooms endedServer) i = Some (code, ref) ->
         nth_error (Server.store endedServer) ref = Some room ->
         nth_error (Server.store srv') ref
         = Some (fst (updateRoom room (1 / TICK_RATE) (rnd i))))
  /\ (forall ref,
         ~ In ref (map snd (Server.rooms endedServer)) ->
         nth_error (Server.store srv') ref
         = nth_error (Server.store endedServer) ref).
Proof.
  apply (simulation_ticks_each_room_once endedServer (fun _ => calmDraw)).
  exact endedServer_wellFormed.
Defined.

(** ** Room codes *)

Lemma upperChar_twice (c : ascii) : upperChar (upperChar c) = upperChar c.
Proof.
  destruct c as [[] [] [] [] [] [] [] []]; reflexivity.
Qed.

Lemma isSpace_upperChar (c : ascii) : isSpace (upperChar c) = isSpace c.
Proof.
  destruct c as [[] [] [] [] [] [] [] []]; reflexivity.
Qed.

Lemma toUpperCase_twice (s : string) :
  toUpperCase (toUpperCase s) = toUpperCase s.
Proof.
  induction s as [| c s IH]; cbn [toUpperCase]; [reflexivity |].
  rewrite upperChar_twice, IH. reflexivity.
Qed.

Lemma trimStart_toUpperCase (s : string) :
  trimStart (toUpperCase s) = toUpperCase (trimStart s).
Proof.
  induction s as [| c s IH]; cbn [toUpperCase trimStart]; [reflexivity |].
  rewrite isSpace_upperChar. destruct (isSpace c); [exact IH | reflexivity].
Qed.

Lemma trimEnd_toUpperCase (s : string) :
  trimEnd (toUpperCase s) = toUpperCase (trimEnd s).
Proof.
  induction s as [| c s IH]; cbn [toUpperCase trimEnd]; [reflexivity |].
  rewrite IH, isSpace_upperChar.
  destruct (trimEnd s) as [| a t]; cbn [toUpperCase];
    [destruct (isSpace c) |]; reflexivity.
Qed.

Lemma trim_toUpperCase (s : string) :
  trim (toUpperCase s) = toUpperCase (trim s).
Proof.
  unfold trim. rewrite trimStart_toUpperCase. apply trimEnd_toUpperCase.
Qed.

Lemma trimEnd_twice (s : string) : trimEnd (trimEnd s) = trimEnd s.
Proof.
  induction s as [| c s IH]; cbn [trimEnd]; [reflexivity |].
  destruct (trimEnd s) as [| a t] eqn:E.
  - destruct (isSpace c) eqn:Ec; cbn [trimEnd]; [reflexivity |].
    rewrite Ec. reflexivity.
  - cbn [trimEnd] in *. rewrite IH. reflexivity.
Qed.

Lemma trimStart_trimEnd (s : string) :
  trimStart (trimEnd (trimStart s)) = trimEnd (trimStart s).
Proof.
  induction s as [| c s IH]; cbn [trimStart]; [reflexivity |].
  destruct (isSpace c) eqn:Ec; [exact IH |].
  cbn [trimEnd]. destruct (trimEnd s) as [| a t]; [rewrite Ec |];
    cbn [trimStart]; rewrite Ec; reflexivity.
Qed.

Lemma trim_twice (s : string) : trim (trim s) = trim s.
Proof.
  unfold trim. rewrite trimStart_trimEnd. apply trimEnd_twice.
Qed.

Lemma roomCode_twice (s : string) :
  toUpperCase (trim (toUpperCase (trim s))) = toUpperCase (trim s).
Proof.
  rewrite trim_toUpperCase, toUpperCase_twice, trim_twice. reflexivity.
Qed.

(** X30.  Room codes do not depend on case or on surrounding white space:
    a join under a code and a join under the trimmed, upper-cased form of
    that code are handled alike, on every server and connection. *)
Theorem join_normalises_code (srv : Server.t) (sess : Session.t)
    (roomCode nickname : string) (rnd : JoinRandom.t) :
  onMessage srv sess (join (toUpperCase (trim roomCode)) nickname) rnd
  = onMessage srv sess (join roomCode nickname) rnd.
Proof.
  unfold onMessage. rewrite roomCode_twice. reflexivity.
Qed.
